(** * go-json-schema-generate: schema resolution and Elasticsearch mapping

    A shallow embedding of [generator.go] (type resolution, naming) and
    [esoutput.go] (mapping renderer), and the properties established
    about them.

    Conventions of the embedding
    - Go strings are byte strings: Rocq [string].
    - [*Schema] pointers are indices into a store of schema nodes; the
      two fields the generator assigns ([GeneratedType], [TypeValue]) are
      updated in that store, so aliasing between references is kept.
    - Go maps that are only looked up or written ([Structs], [Aliases],
      [Fields], [conventions]) are [gmap string _]. Maps that the code
      walks with [range] ([Properties], [Definitions]) are association
      lists: the list order is the order in which [range] yields the
      entries, which Go leaves unspecified.
    - Recursion that Go does not bound carries fuel; [None] means that the
      fuel ran out (or that a pointer does not denote a node of the store,
      which no parsed schema exhibits). *)

From Stdlib Require Import ZArith Ascii String DecimalString DecimalZ.
From stdpp Require Import base tactics option list gmap strings sorting.

Local Open Scope string_scope.
Local Open Scope Z_scope.

(** ** Go runtime pieces used by the code *)

Module Go.

Definition byteZ (a : ascii) : Z := Z.of_N (N_of_ascii a).
Definition byte_of (z : Z) : ascii := ascii_of_N (Z.to_N z).

Definition inRange (lo hi x : Z) : bool := (lo <=? x) && (x <=? hi).

(** The double quote, tab and newline bytes. *)
Definition dq : string := String (ascii_of_nat 34) EmptyString.
Definition tab : string := String (ascii_of_nat 9) EmptyString.
Definition nl : string := String (ascii_of_nat 10) EmptyString.

(** [unicode/utf8]: the replacement rune and the decoder that [range]
    over a string applies at each position (rune, width in bytes). *)
Definition RuneError : Z := 0xFFFD.

Definition cont (a : ascii) : bool := inRange 0x80 0xBF (byteZ a).

Definition DecodeRuneInString (s : string) : Z * nat :=
  match s with
  | EmptyString => (RuneError, 0%nat)
  | String a0 t =>
    let b0 := byteZ a0 in
    if b0 <? 0x80 then (b0, 1%nat)
    else if inRange 0xC2 0xDF b0 then
      match t with
      | String a1 _ =>
        if cont a1
        then (Z.lor (Z.shiftl (Z.land b0 0x1F) 6) (Z.land (byteZ a1) 0x3F), 2%nat)
        else (RuneError, 1%nat)
      | _ => (RuneError, 1%nat)
      end
    else if inRange 0xE0 0xEF b0 then
      let lo := if b0 =? 0xE0 then 0xA0 else 0x80 in
      let hi := if b0 =? 0xED then 0x9F else 0xBF in
      match t with
      | String a1 (String a2 _) =>
        if inRange lo hi (byteZ a1) && cont a2
        then (Z.lor (Z.shiftl (Z.land b0 0x0F) 12)
               (Z.lor (Z.shiftl (Z.land (byteZ a1) 0x3F) 6)
                      (Z.land (byteZ a2) 0x3F)), 3%nat)
        else (RuneError, 1%nat)
      | _ => (RuneError, 1%nat)
      end
    else if inRange 0xF0 0xF4 b0 then
      let lo := if b0 =? 0xF0 then 0x90 else 0x80 in
      let hi := if b0 =? 0xF4 then 0x8F else 0xBF in
      match t with
      | String a1 (String a2 (String a3 _)) =>
        if inRange lo hi (byteZ a1) && cont a2 && cont a3
        then (Z.lor (Z.shiftl (Z.land b0 0x07) 18)
               (Z.lor (Z.shiftl (Z.land (byteZ a1) 0x3F) 12)
                 (Z.lor (Z.shiftl (Z.land (byteZ a2) 0x3F) 6)
                        (Z.land (byteZ a3) 0x3F))), 4%nat)
        else (RuneError, 1%nat)
      | _ => (RuneError, 1%nat)
      end
    else (RuneError, 1%nat)
  end.

Fixpoint dropBytes (n : nat) (s : string) : string :=
  match n, s with
  | S n', String _ t => dropBytes n' t
  | _, _ => s
  end.

(** [for _, c := range s]: the runes of [s] in order. The fuel is the
    byte length, and every step consumes at least one byte. *)
Fixpoint rangeRunes (fuel : nat) (s : string) : list Z :=
  match fuel, s with
  | S fuel', String _ _ =>
    let '(r, w) := DecodeRuneInString s in
    r :: rangeRunes fuel' (dropBytes w s)
  | _, _ => []
  end.

Definition runes (s : string) : list Z := rangeRunes (String.length s) s.

(** [bytes.Buffer.WriteRune]: the UTF-8 encoding of a rune. *)
Definition str1 (z : Z) : string := String (byte_of z) EmptyString.

Definition EncodeRune (r : Z) : string :=
  let three (r : Z) :=
    str1 (Z.lor 0xE0 (Z.shiftr r 12)) +:+
    str1 (Z.lor 0x80 (Z.land (Z.shiftr r 6) 0x3F)) +:+
    str1 (Z.lor 0x80 (Z.land r 0x3F)) in
  if inRange 0 0x7F r then str1 r
  else if inRange 0x80 0x7FF r then
    str1 (Z.lor 0xC0 (Z.shiftr r 6)) +:+ str1 (Z.lor 0x80 (Z.land r 0x3F))
  else if (r <? 0) || (0x10FFFF <? r) || inRange 0xD800 0xDFFF r then three RuneError
  else if r <=? 0xFFFF then three r
  else
    str1 (Z.lor 0xF0 (Z.shiftr r 18)) +:+
    str1 (Z.lor 0x80 (Z.land (Z.shiftr r 12) 0x3F)) +:+
    str1 (Z.lor 0x80 (Z.land (Z.shiftr r 6) 0x3F)) +:+
    str1 (Z.lor 0x80 (Z.land r 0x3F)).

(** The parts of Go's [unicode] and [strings] packages that are tables of
    the Unicode standard: the development is parametric in them above
    ASCII, where Go's definitions are the ones below. *)
Class Unicode := {
  letter_above_ascii : Z → bool;
  digit_above_ascii : Z → bool;
  ToUpper_non_ascii : string → string
}.

Section WithUnicode.
Context `{!Unicode}.

Definition IsLetter (r : Z) : bool :=
  if r <? 0x80 then inRange 65 90 r || inRange 97 122 r
  else letter_above_ascii r.

Definition IsDigit (r : Z) : bool :=
  if r <? 0x80 then inRange 48 57 r else digit_above_ascii r.

Fixpoint allAscii (s : string) : bool :=
  match s with
  | EmptyString => true
  | String a t => (byteZ a <? 0x80) && allAscii t
  end.

Definition upperByte (a : ascii) : ascii :=
  if inRange 97 122 (byteZ a) then byte_of (byteZ a - 32) else a.

Fixpoint mapBytes (f : ascii → ascii) (s : string) : string :=
  match s with
  | EmptyString => EmptyString
  | String a t => String (f a) (mapBytes f t)
  end.

(** [strings.ToUpper] *)
Definition ToUpper (s : string) : string :=
  if allAscii s then mapBytes upperByte s else ToUpper_non_ascii s.

End WithUnicode.

(** [strings.HasPrefix s prefix] *)
Definition HasPrefix (s pre : string) : bool := String.prefix pre s.

Fixpoint containsByte (cutset : string) (a : ascii) : bool :=
  match cutset with
  | EmptyString => false
  | String c t => if decide (c = a) then true else containsByte t a
  end.

Fixpoint TrimLeft (s cutset : string) : string :=
  match s with
  | EmptyString => EmptyString
  | String a t => if containsByte cutset a then TrimLeft t cutset else s
  end.

Fixpoint TrimRight (s cutset : string) : string :=
  match s with
  | EmptyString => EmptyString
  | String a t =>
    match TrimRight t cutset with
    | EmptyString => if containsByte cutset a then EmptyString else String a EmptyString
    | t' => String a t'
    end
  end.

(** [strings.Trim s cutset], for a cutset of ASCII bytes (the code only
    passes the cutsets [*] and [[]*]). *)
Definition Trim (s cutset : string) : string := TrimRight (TrimLeft s cutset) cutset.

(** [strings.IndexAny(v, "0123456789") == 0] *)
Definition startsWithDigit (v : string) : bool :=
  match v with
  | EmptyString => false
  | String a _ => inRange 48 57 (byteZ a)
  end.

(** [strings.Repeat] *)
Fixpoint Repeat (s : string) (n : nat) : string :=
  match n with
  | O => EmptyString
  | S n' => s +:+ Repeat s n'
  end.

(** [%d] of [fmt.Sprintf] on an [int]. *)
Definition itoa (z : Z) : string := NilEmpty.string_of_int (Z.to_int z).

(** Go's [int] is 64 bits wide; [++] wraps. *)
Definition wrap64 (z : Z) : Z := (z + 2^63) mod 2^64 - 2^63.

End Go.

Import Go.

(** An instance of the tables that agrees with Go on every ASCII rune and
    treats nothing above ASCII as a letter or digit; it is used to run the
    code on ASCII inputs only. *)
Definition ascii_tables : Unicode :=
  {| letter_above_ascii := λ _, false;
     digit_above_ascii := λ _, false;
     ToUpper_non_ascii := λ s, s |}.

(** ** Data model *)

(** [type Field struct] *)
Module Field.
Record t := mk {
  Name : string;
  JSONName : string;
  Type_ : string;
  Required : bool;
  Description : string;
  Format : string
}.
#[global] Instance field_eq_dec : EqDecision t.
Proof. solve_decision. Defined.
End Field.

(** [type Struct struct] *)
Module Struct.
Record t := mk {
  ID : string;
  Name : string;
  Description : string;
  Fields : gmap string Field.t;
  GenerateCode : bool;
  AdditionalType : string;
  importTypes : list string
}.
#[global] Instance struct_eq_dec : EqDecision t.
Proof. solve_decision. Defined.
End Struct.

(** [type stringFormatType struct] *)
Record stringFormatType := { PackageName : string; TypeName : string }.

(** A [*Schema]: the index of the node in the store. *)
Abbreviation ptr := nat (only parsing).

(** Modelled from the spec: the [Schema] struct is declared outside the
    two source files. The fields are the ones the code reads and writes
    ([ID] is what the method [schema.ID()] returns); [TypeValue] holds the
    declared primitive-type tags, in order, and is empty when the schema
    declares no type. *)
Module Schema.
Record t := mk {
  ID : string;
  Title : string;
  Description : string;
  Format : string;
  JSONKey : string;
  PathElement : string;
  TypeValue : list string;
  Parent : option ptr;
  Properties : list (string * ptr);
  Items : option ptr;
  Required : list string;
  AdditionalProperties : option ptr;
  AdditionalPropertiesBool : option bool;
  Definitions : list (string * ptr);
  Reference : string;
  GeneratedType : string
}.

Definition set_GeneratedType (v : string) (s : t) : t :=
  mk (ID s) (Title s) (Description s) (Format s) (JSONKey s) (PathElement s)
     (TypeValue s) (Parent s) (Properties s) (Items s) (Required s)
     (AdditionalProperties s) (AdditionalPropertiesBool s) (Definitions s)
     (Reference s) v.

Definition set_TypeValue (v : list string) (s : t) : t :=
  mk (ID s) (Title s) (Description s) (Format s) (JSONKey s) (PathElement s)
     v (Parent s) (Properties s) (Items s) (Required s)
     (AdditionalProperties s) (AdditionalPropertiesBool s) (Definitions s)
     (Reference s) (GeneratedType s).

(** Modelled from the spec: [FixMissingTypeValue] is declared outside the
    source files. A schema with properties but no declared type is given
    the type [object]. *)
Definition FixMissingTypeValue (s : t) : t :=
  match TypeValue s, Properties s with
  | [], _ :: _ => set_TypeValue ["object"] s
  | _, _ => s
  end.

(** Modelled from the spec: [MultiType] is declared outside the source
    files. It returns the declared tags and whether there is more than
    one of them. *)
Definition MultiType (s : t) : list string * bool :=
  (TypeValue s, bool_decide (1 < length (TypeValue s))%nat).

(** A node with every field at Go's zero value. *)
Definition zero : t :=
  mk "" "" "" "" "" "" [] None [] None [] None None [] "" "".
End Schema.

(** The reference resolver ([RefResolver]) is declared outside the source
    files; the generator only calls the three methods below, which are
    taken as they are given. [Init] is the error it returns, if any;
    [GetSchemaByReference] is [None] when it returns an error. *)
Record RefResolver := {
  Init : option string;
  GetPath : ptr → string;
  GetSchemaByReference : ptr → option ptr
}.

(** [type Generator struct] *)
Record Generator := mkGenerator {
  schemas : list ptr;
  resolver : RefResolver;
  Structs : gmap string Struct.t;
  Aliases : gmap string Field.t;
  customStringTypes : gmap string stringFormatType;
  refs : gmap string string;
  anonCount : Z
}.

(** The generator together with the schema nodes its pointers denote. *)
Record State := mkState {
  gen : Generator;
  store : list Schema.t
}.

Definition set_Structs (v : gmap string Struct.t) (g : Generator) : Generator :=
  mkGenerator (schemas g) (resolver g) v (Aliases g) (customStringTypes g) (refs g) (anonCount g).
Definition set_Aliases (v : gmap string Field.t) (g : Generator) : Generator :=
  mkGenerator (schemas g) (resolver g) (Structs g) v (customStringTypes g) (refs g) (anonCount g).
Definition set_anonCount (v : Z) (g : Generator) : Generator :=
  mkGenerator (schemas g) (resolver g) (Structs g) (Aliases g) (customStringTypes g) (refs g) v.

(** [func formatCustomTypes] *)
Definition formatCustomTypes : gmap string stringFormatType :=
  <["date-time" := {| PackageName := "time"; TypeName := "time.Time" |}]>
  (<["uuid" := {| PackageName := "github.com/google/uuid"; TypeName := "uuid.UUID" |}]> ∅).

(** [func New]; [NewRefResolver] is outside the source files, so the
    resolver built from the schemas is an argument. *)
Definition New (r : RefResolver) (roots : list ptr) : Generator :=
  {| schemas := roots; resolver := r; Structs := ∅; Aliases := ∅;
     customStringTypes := formatCustomTypes; refs := ∅; anonCount := 0 |}.

(** ** Results and the state-and-error monad of the generator *)

Inductive result (A : Type) : Type :=
| Ok (a : A)
| Err (msg : string).
Arguments Ok {A} a.
Arguments Err {A} msg.

Definition M (A : Type) : Type := State → option (result A * State).

Definition ret {A} (a : A) : M A := λ st, Some (Ok a, st).
Definition fail {A} (msg : string) : M A := λ st, Some (Err msg, st).
Definition stuck {A} : M A := λ _, None.
Definition bind {A B} (m : M A) (k : A → M B) : M B :=
  λ st, match m st with
        | None => None
        | Some (Ok a, st') => k a st'
        | Some (Err e, st') => Some (Err e, st')
        end.

#[global] Instance M_ret : MRet M := @ret.
#[global] Instance M_bind : MBind M := λ A B k m, bind m k.

(** Lift a pure Go result [(value, error)]. *)
Definition lift {A} (r : result A) : M A := λ st, Some (r, st).

(** Read the node behind a pointer. *)
Definition deref (p : ptr) : M Schema.t :=
  λ st, match store st !! p with
        | Some s => Some (Ok s, st)
        | None => None
        end.

Definition modify_node (f : Schema.t → Schema.t) (p : ptr) : M unit :=
  λ st, Some (Ok tt, mkState (gen st) (alter f p (store st))).

Definition modify_gen (f : Generator → Generator) : M unit :=
  λ st, Some (Ok tt, mkState (f (gen st)) (store st)).

Definition get_gen : M Generator := λ st, Some (Ok (gen st), st).

(** ** Naming engine *)

Section Naming.
Context `{!Unicode}.

(** [func isNotAGoNameCharacter] *)
Definition isNotAGoNameCharacter (r : Z) : bool :=
  if IsLetter r || IsDigit r then false else true.

(** [func splitOnAll]: [buf] is the buffer, [rv] the fragments so far. *)
Fixpoint splitOnAll_loop (shouldSplit : Z → bool) (cs : list Z)
    (buf : string) (rv : list string) : list string :=
  match cs with
  | [] => if bool_decide (0 < String.length buf)%nat then rv ++ [buf] else rv
  | c :: cs' =>
    if shouldSplit c
    then splitOnAll_loop shouldSplit cs' "" (rv ++ [buf])
    else splitOnAll_loop shouldSplit cs' (buf +:+ EncodeRune c) rv
  end.

Definition splitOnAll (s : string) (shouldSplit : Z → bool) : list string :=
  splitOnAll_loop shouldSplit (runes s) "" [].

(** [func capitaliseFirstLetter] *)
Definition capitaliseFirstLetter (s : string) : string :=
  match s with
  | EmptyString => s
  | String a suffix => ToUpper (String a EmptyString) +:+ suffix
  end.

(** [func applyConventions] *)
Definition applyConventions (fragment : string) (conventions : gmap string string) : string :=
  match conventions !! fragment with
  | Some conv => conv
  | None => fragment
  end.

(** [func getGolangName]: the loop over the fragments, [i] the index. *)
Fixpoint getGolangName_loop (conventions : gmap string string) (i : nat)
    (vs : list string) (buf : string) : string :=
  match vs with
  | [] => buf
  | v :: vs' =>
    let buf1 := if bool_decide (i = 0%nat) && startsWithDigit v then buf +:+ "_" else buf in
    getGolangName_loop conventions (S i) vs'
      (buf1 +:+ applyConventions (capitaliseFirstLetter v) conventions)
  end.

Definition getGolangName (s : string) (conventions : gmap string string) : string :=
  getGolangName_loop conventions 0 (splitOnAll s isNotAGoNameCharacter) "".

(** [func (g *Generator) getSchemaName] *)
Definition getSchemaName (keyName : string) (p : ptr)
    (conventions : gmap string string) : M string :=
  schema ← deref p;
  if bool_decide (0 < String.length (Schema.Title schema))%nat
  then ret (getGolangName (Schema.Title schema) conventions)
  else if bool_decide (keyName ≠ "")
  then ret (getGolangName keyName conventions)
  else match Schema.Parent schema with
  | None => ret "Root"
  | Some pp =>
    if bool_decide (Schema.JSONKey schema ≠ "")
    then ret (getGolangName (Schema.JSONKey schema) conventions)
    else
      parent ← deref pp;
      if bool_decide (Schema.JSONKey parent ≠ "")
      then ret (getGolangName (Schema.JSONKey parent +:+ "Item") conventions)
      else
        modify_gen (λ g, set_anonCount (wrap64 (anonCount g + 1)) g);;
        g ← get_gen;
        ret ("Anonymous" +:+ itoa (anonCount g))
  end.

End Naming.

(** ** Type resolution engine *)

Definition set_Fields (v : gmap string Field.t) (s : Struct.t) : Struct.t :=
  Struct.mk (Struct.ID s) (Struct.Name s) (Struct.Description s) v
    (Struct.GenerateCode s) (Struct.AdditionalType s) (Struct.importTypes s).
Definition set_GenerateCode (v : bool) (s : Struct.t) : Struct.t :=
  Struct.mk (Struct.ID s) (Struct.Name s) (Struct.Description s) (Struct.Fields s)
    v (Struct.AdditionalType s) (Struct.importTypes s).
Definition set_AdditionalType (v : string) (s : Struct.t) : Struct.t :=
  Struct.mk (Struct.ID s) (Struct.Name s) (Struct.Description s) (Struct.Fields s)
    (Struct.GenerateCode s) v (Struct.importTypes s).
Definition set_importTypes (v : list string) (s : Struct.t) : Struct.t :=
  Struct.mk (Struct.ID s) (Struct.Name s) (Struct.Description s) (Struct.Fields s)
    (Struct.GenerateCode s) (Struct.AdditionalType s) v.

(** [strct.Fields[f.Name] = f] *)
Definition add_Field (f : Field.t) (s : Struct.t) : Struct.t :=
  set_Fields (<[Field.Name f := f]> (Struct.Fields s)) s.

(** [func contains] *)
Fixpoint contains (s : list string) (e : string) : bool :=
  match s with
  | [] => false
  | a :: s' => if bool_decide (a = e) then true else contains s' e
  end.

(** [func getPrimitiveTypeName]: the pair [(name, err)]. *)
Definition getPrimitiveTypeName (schemaType subType : string) (pointer : bool)
    : string * option string :=
  if bool_decide (schemaType = "array") then
    if bool_decide (subType = "")
    then ("error_creating_array", Some "can't create an array of an empty subtype")
    else
      let subType1 := if bool_decide (subType = "int") then "int64" else subType in
      ("[]" +:+ Trim subType1 "*", None)
  else if bool_decide (schemaType = "boolean") then ("bool", None)
  else if bool_decide (schemaType = "integer") then ("int", None)
  else if bool_decide (schemaType = "number") then ("float64", None)
  else if bool_decide (schemaType = "null") then ("nil", None)
  else if bool_decide (schemaType = "object") then
    if bool_decide (subType = "")
    then ("error_creating_object", Some "can't create an object of an empty subtype")
    else if pointer then ("*" +:+ subType, None)
    else (subType, None)
  else if bool_decide (schemaType = "string") then ("string", None)
  else ("undefined",
        Some ("failed to get a primitive type for schemaType " +:+ schemaType +:+
              " and subtype " +:+ subType)).

(** [rv, err := f(...); if err != nil { return "", err }] *)
Definition checked (r : string * option string) : M string :=
  match r with
  | (_, Some err) => fail err
  | (rv, None) => ret rv
  end.

(** A call whose returned error is dropped by the caller. *)
Definition discard {A} (m : M A) : M unit :=
  λ st, match m st with
        | None => None
        | Some (_, st') => Some (Ok tt, st')
        end.

Section Resolution.
Context `{!Unicode}.

(** The type of [processSchema], which the functions below call
    recursively through [rec]. *)
Definition resolver_fn : Type := string → ptr → gmap string string → M string.

Variable rec : resolver_fn.

(** [func (g *Generator) processDefinitions] *)
Fixpoint processDefinitions_loop (conventions : gmap string string)
    (defs : list (string * ptr)) : M unit :=
  match defs with
  | [] => ret tt
  | (key, subSchema) :: defs' =>
    rec (getGolangName key conventions) subSchema conventions;;
    processDefinitions_loop conventions defs'
  end.

Definition processDefinitions (p : ptr) (conventions : gmap string string) : M unit :=
  schema ← deref p;
  processDefinitions_loop conventions (Schema.Definitions schema).

(** [func (g *Generator) processReference] *)
Definition processReference (p : ptr) (conventions : gmap string string) : M string :=
  schema ← deref p;
  g ← get_gen;
  let schemaPath := GetPath (resolver g) p in
  if bool_decide (Schema.Reference schema = "")
  then fail ("processReference empty reference: " +:+ schemaPath)
  else match GetSchemaByReference (resolver g) p with
  | None =>
    fail ("processReference: reference " +:+ dq +:+ Schema.Reference schema +:+ dq +:+
          " not found at " +:+ dq +:+ schemaPath +:+ dq)
  | Some r =>
    refSchema ← deref r;
    if bool_decide (Schema.GeneratedType refSchema = "")
    then
      refSchemaName ← getSchemaName "" r conventions;
      rec refSchemaName r conventions
    else ret (Schema.GeneratedType refSchema)
  end.

(** [func (g *Generator) processArray] *)
Definition processArray (name : string) (p : ptr) (conventions : gmap string string)
    : M string :=
  schema ← deref p;
  match Schema.Items schema with
  | Some items =>
    subName ← getSchemaName (name +:+ "Items") items conventions;
    subTyp ← rec subName items conventions;
    finalType ← checked (getPrimitiveTypeName "array" subTyp true);
    (if bool_decide (Schema.Parent schema = None)
     then
       let array := Field.mk name "" finalType (contains (Schema.Required schema) name)
                      (Schema.Description schema) (Schema.Format schema) in
       modify_gen (λ g, set_Aliases (<[Field.Name array := array]> (Aliases g)) g)
     else ret tt);;
    ret finalType
  | None => ret "[]interface{}"
  end.

(** [func (g *Generator) processObject], the loop over the properties. *)
Fixpoint processObject_properties (schema : Schema.t) (conventions : gmap string string)
    (customTypes : gmap string stringFormatType)
    (props : list (string * ptr)) (strct : Struct.t) : M Struct.t :=
  match props with
  | [] => ret strct
  | (propKey, prop) :: props' =>
    let fieldName := getGolangName propKey conventions in
    subSchemaName ← getSchemaName fieldName prop conventions;
    fieldType ← rec subSchemaName prop conventions;
    propSchema ← deref prop;
    let f := Field.mk fieldName propKey fieldType
               (contains (Schema.Required schema) propKey)
               (Schema.Description propSchema) (Schema.Format propSchema) in
    let strct1 :=
      if bool_decide (Field.Type_ f = "string") && bool_decide (Field.Format f ≠ "")
      then match customTypes !! Field.Format f with
           | Some customTypeForFormat =>
             set_importTypes (Struct.importTypes strct ++ [PackageName customTypeForFormat]) strct
           | None => strct
           end
      else strct in
    let strct2 := if Field.Required f then set_GenerateCode true strct1 else strct1 in
    processObject_properties schema conventions customTypes props' (add_Field f strct2)
  end.

(** The first block on [additionalProperties] (a typed sub-schema): the
    left result is the value of the early [return mapTyp, nil]. *)
Definition processObject_typed (schema : Schema.t) (conventions : gmap string string)
    (strct : Struct.t) : M (string + Struct.t) :=
  match Schema.AdditionalProperties schema with
  | None => ret (inr strct)
  | Some ap =>
    apSchema ← deref ap;
    match Schema.AdditionalPropertiesBool apSchema with
    | Some _ => ret (inr strct)
    | None =>
      apName ← getSchemaName "" ap conventions;
      subTyp ← rec apName ap conventions;
      let mapTyp := "map[string]" +:+ subTyp in
      let isDefinitionObject := HasPrefix (Schema.PathElement schema) "definitions" in
      if bool_decide (length (Schema.Properties schema) = 0%nat) && negb isDefinitionObject
      then ret (inl mapTyp)
      else
        let f := Field.mk "AdditionalProperties" "-" mapTyp false "" "" in
        ret (inr (set_AdditionalType subTyp (set_GenerateCode true (add_Field f strct))))
    end
  end.

(** The second block on [additionalProperties] ([true] or [false]). *)
Definition processObject_bool (schema : Schema.t) (strct : Struct.t) : M Struct.t :=
  match Schema.AdditionalProperties schema with
  | None => ret strct
  | Some ap =>
    apSchema ← deref ap;
    match Schema.AdditionalPropertiesBool apSchema with
    | None => ret strct
    | Some true =>
      let subTyp := "map[string]interface{}" in
      let f := Field.mk "AdditionalProperties" "-" subTyp false "" "" in
      ret (set_AdditionalType "interface{}" (set_GenerateCode true (add_Field f strct)))
    | Some false =>
      ret (set_AdditionalType "false" (set_GenerateCode true strct))
    end
  end.

(** [func (g *Generator) processObject] *)
Definition processObject (name : string) (p : ptr) (conventions : gmap string string)
    (customTypes : gmap string stringFormatType) : M string :=
  schema ← deref p;
  let strct := Struct.mk (Schema.ID schema) name (Schema.Description schema) ∅ false "" [] in
  modify_node (Schema.set_GeneratedType ("*" +:+ name)) p;;
  strct1 ← processObject_properties schema conventions customTypes
             (Schema.Properties schema) strct;
  r ← processObject_typed schema conventions strct1;
  match r with
  | inl mapTyp => ret mapTyp
  | inr strct2 =>
    strct3 ← processObject_bool schema strct2;
    modify_gen (λ g, set_Structs (<[Struct.Name strct3 := strct3]> (Structs g)) g);;
    checked (getPrimitiveTypeName "object" name true)
  end.

(** [func (g *Generator) processSchema], the [switch schemaType] of the
    loop body: the [rv, err] of the branch taken. *)
Definition processSchema_switch (name : string) (p : ptr)
    (conventions : gmap string string) (schemaType : string) : M string :=
  if bool_decide (schemaType = "object") then
    g ← get_gen;
    processObject name p conventions (customStringTypes g)
  else if bool_decide (schemaType = "array") then
    processArray name p conventions
  else checked (getPrimitiveTypeName schemaType "" false).

(** [func (g *Generator) processSchema], the loop over the declared types. *)
Fixpoint processSchema_types (schemaName : string) (p : ptr)
    (conventions : gmap string string) (isMultiType : bool)
    (types : list string) : M string :=
  match types with
  | [] => ret "interface{}"
  | schemaType :: types' =>
    let name := if isMultiType then schemaName +:+ "_" +:+ schemaType else schemaName in
    rv ← processSchema_switch name p conventions schemaType;
    if negb isMultiType then ret rv
    else processSchema_types schemaName p conventions isMultiType types'
  end.

(** [func (g *Generator) processSchema], one level of the recursion. *)
Definition processSchema_body (schemaName : string) (p : ptr)
    (conventions : gmap string string) : M string :=
  schema ← deref p;
  (if bool_decide (0 < length (Schema.Definitions schema))%nat
   then discard (processDefinitions p conventions)
   else ret tt);;
  modify_node Schema.FixMissingTypeValue p;;
  schema1 ← deref p;
  let '(types, isMultiType) := Schema.MultiType schema1 in
  if bool_decide (0 < length types)%nat
  then processSchema_types schemaName p conventions isMultiType types
  else if bool_decide (Schema.Reference schema1 ≠ "")
  then processReference p conventions
  else ret "interface{}".

End Resolution.

Section Engine.
Context `{!Unicode}.

(** [func (g *Generator) processSchema]: [fuel] bounds the depth of the
    recursion. *)
Fixpoint processSchema (fuel : nat) : resolver_fn :=
  match fuel with
  | O => λ _ _ _, stuck
  | S fuel' => processSchema_body (processSchema fuel')
  end.

(** [func (g *Generator) CreateTypes], the loop over [g.schemas]. *)
Fixpoint CreateTypes_loop (fuel : nat) (conventions : gmap string string)
    (roots : list ptr) : M unit :=
  match roots with
  | [] => ret tt
  | schema :: roots' =>
    name ← getSchemaName "" schema conventions;
    rootType ← processSchema fuel name schema conventions;
    (if bool_decide (rootType ≠ "*" +:+ name)
     then
       s ← deref schema;
       let a := Field.mk name "" rootType false (Schema.Description s) (Schema.Format s) in
       modify_gen (λ g, set_Aliases (<[Field.Name a := a]> (Aliases g)) g)
     else ret tt);;
    CreateTypes_loop fuel conventions roots'
  end.

Definition CreateTypes (fuel : nat) (conventions : gmap string string) : M unit :=
  g ← get_gen;
  match Init (resolver g) with
  | Some err => fail err
  | None => CreateTypes_loop fuel conventions (schemas g)
  end.

End Engine.

(** ** Mapping renderer *)

(** [func getESType] *)
Definition getESType (f : Field.t) : string :=
  if bool_decide (Field.Type_ f = "string") || bool_decide (Field.Type_ f = "[]string") then
    if bool_decide (Field.Format f = "date-time") then "date" else "keyword"
  else if bool_decide (Field.Type_ f = "int") then "integer"
  else if bool_decide (Field.Type_ f = "bool") then "boolean"
  else "object".

(** [func printIndented], applied to the text that [format] and its
    arguments produce; the result is the text written to [w]. *)
Definition printIndented (indent : nat) (text : string) : string :=
  (if bool_decide (0 < indent)%nat then Repeat tab indent else "") +:+ text.

(** [func printIndentedLn] *)
Definition printIndentedLn (indent : nat) (text : string) : string :=
  printIndented indent text +:+ nl.

(** Modelled from the spec: [getOrderedFieldNames] is declared outside the
    source files. It yields the keys of the field map in ascending order. *)
Definition getOrderedFieldNames (m : gmap string Field.t) : list string :=
  merge_sort String.le (map fst (map_to_list m)).

(** The zero [Field], which indexing a Go map yields for a missing key. *)
Definition zeroField : Field.t := Field.mk "" "" "" false "" "".

(** A leaf mapping [{ "type": "<t>" }] as the three writes of the code. *)
Definition leafMapping (indent : nat) (lines : nat → string) : string * nat :=
  let text0 := "{" +:+ nl in
  let indent1 := S indent in
  let text1 := lines indent1 in
  let indent2 := Nat.pred indent1 in
  (text0 +:+ text1 +:+ printIndented indent2 "}", indent2).

Section Render.

(** The recursive call [renderStructMapping(indent-1, w, s, structs)]. *)
Variable render : nat → Struct.t → option string.
Variable structs : gmap string Struct.t.

(** [func renderStructMapping], one iteration of the loop over the field
    names: the text written, and [indent] and [count] afterwards. *)
Definition renderStructMapping_field (fields : gmap string Field.t) (fieldKey : string)
    (indent count : nat) : option (string * nat * nat) :=
  let f := default zeroField (fields !! fieldKey) in
  if HasPrefix (Field.JSONName f) "_" || bool_decide (Field.JSONName f = "-")
  then Some ("", indent, count)
  else
    let sep := if bool_decide (count ≠ 0%nat) then "," +:+ nl else "" in
    let count1 := S count in
    let key := printIndented indent (dq +:+ Field.JSONName f +:+ dq +:+ ": ") in
    let esType := getESType f in
    let name := Trim (Field.Type_ f) "[]*" in
    if bool_decide (esType = "object") then
      match structs !! name with
      | Some s =>
        if bool_decide (Struct.AdditionalType s ≠ "") || bool_decide (Field.Format f = "raw")
        then
          let '(text, indent') :=
            leafMapping indent (λ i,
              printIndentedLn i (dq +:+ "enabled" +:+ dq +:+ " : false,") +:+
              printIndentedLn i (dq +:+ "type" +:+ dq +:+ ": " +:+ dq +:+ esType +:+ dq)) in
          Some (sep +:+ key +:+ text, indent', count1)
        else
          let indent1 := S indent in
          text ← render (Nat.pred indent1) s;
          Some (sep +:+ key +:+ text, Nat.pred indent1, count1)
      | None =>
        let ftype := if bool_decide (name = "int64") then "integer" else "keyword" in
        let '(text, indent') :=
          leafMapping indent (λ i,
            printIndentedLn i (dq +:+ "type" +:+ dq +:+ ": " +:+ dq +:+ ftype +:+ dq)) in
        Some (sep +:+ key +:+ text, indent', count1)
      end
    else
      let '(text, indent') :=
        leafMapping indent (λ i,
          printIndentedLn i (dq +:+ "type" +:+ dq +:+ ": " +:+ dq +:+ esType +:+ dq)) in
      Some (sep +:+ key +:+ text, indent', count1).

(** The loop [for _, fieldKey := range fieldNames]. *)
Fixpoint renderStructMapping_fields (fields : gmap string Field.t) (fieldNames : list string)
    (indent count : nat) : option (string * nat) :=
  match fieldNames with
  | [] => Some ("", indent)
  | fieldKey :: rest =>
    '(text, indent1, count1) ← renderStructMapping_field fields fieldKey indent count;
    '(text', indent2) ← renderStructMapping_fields fields rest indent1 count1;
    Some (text +:+ text', indent2)
  end.

(** [func renderStructMapping], one level of the recursion. *)
Definition renderStructMapping_body (indent : nat) (s : Struct.t) : option string :=
  let text0 := "{" +:+ nl in
  let indent1 := S indent in
  let text1 := printIndentedLn indent1 (dq +:+ "properties" +:+ dq +:+ ": {") in
  let indent2 := S indent1 in
  let fieldNames := getOrderedFieldNames (Struct.Fields s) in
  '(body, indent3) ← renderStructMapping_fields (Struct.Fields s) fieldNames indent2 0;
  let text2 := printIndentedLn indent3 "" in
  let indent4 := Nat.pred indent3 in
  let text3 := printIndentedLn indent4 "}" in
  let indent5 := Nat.pred indent4 in
  Some (text0 +:+ text1 +:+ body +:+ text2 +:+ text3 +:+ printIndented indent5 "}").

End Render.

(** [func renderStructMapping]: the text written to [w]; [fuel] bounds the
    nesting of inlined records. [indent] never wraps in a rendering of
    fewer than [2^63] levels and is a natural number. *)
Fixpoint renderStructMapping (fuel : nat) (indent : nat) (s : Struct.t)
    (structs : gmap string Struct.t) : option string :=
  match fuel with
  | O => None
  | S fuel' =>
    renderStructMapping_body (λ i s', renderStructMapping fuel' i s' structs) structs indent s
  end.

(** ** The mapping document

    [cleanPackageName] and [outputNameAndDescriptionComment] are declared
    outside the source files: the first is a parameter, the second is
    given by the text it writes. *)



Section Document.
Variable cleanPackageName : string → string.
Variable outputNameAndDescriptionComment : string → string → string.



End Document.

(** ** Records that are rendered inline

    [filterNoRender] and [check] are not called by [ESOutput]. The order
    in which a [range] yields the values of a map is not specified: it is
    given by [rangeFields] and [rangeStructs]. *)

(** [fmt.Println("name: ", name, "level:", level)]: the operands, each
    followed by a space or the final newline. *)
Definition checkLine (name : string) (level : Z) : string :=
  "name: " +:+ " " +:+ name +:+ " " +:+ "level:" +:+ " " +:+ itoa level +:+ nl.

Section Check.

(** The recursive call [check(level+1, s, structs, result)]; the state is
    the map [result] and the text printed so far. *)
Variable check : Z → Struct.t → gmap string Struct.t * string →
                 option (gmap string Struct.t * string).
Variable structs : gmap string Struct.t.

(** [func check], one iteration of the loop over the fields. *)
Definition check_field (level : Z) (f : Field.t) (st : gmap string Struct.t * string)
    : option (gmap string Struct.t * string) :=
  let esType := getESType f in
  let name := Trim (Field.Type_ f) "[]*" in
  if bool_decide (esType = "object") then
    let out := st.2 +:+ checkLine name level in
    match structs !! name with
    | Some s =>
      if bool_decide (0 < level)
      then check (wrap64 (level + 1)) s (delete (Struct.Name s) st.1, out)
      else Some (st.1, out)
    | None => Some (st.1, out)
    end
  else Some st.

Fixpoint check_fields (level : Z) (fs : list Field.t) (st : gmap string Struct.t * string)
    : option (gmap string Struct.t * string) :=
  match fs with
  | [] => Some st
  | f :: fs' => st1 ← check_field level f st; check_fields level fs' st1
  end.

End Check.

(** [func check]: [fuel] bounds the depth of the recursion. *)
Fixpoint check (fuel : nat) (rangeFields : gmap string Field.t → list Field.t)
    (structs : gmap string Struct.t) (level : Z) (s : Struct.t)
    (st : gmap string Struct.t * string) : option (gmap string Struct.t * string) :=
  match fuel with
  | O => None
  | S fuel' =>
    check_fields (check fuel' rangeFields structs) structs level
      (rangeFields (Struct.Fields s)) st
  end.

(** [func filterNoRender], the second loop. *)
Fixpoint filterNoRender_loop (fuel : nat) (rangeFields : gmap string Field.t → list Field.t)
    (structs : gmap string Struct.t) (ss : list (string * Struct.t))
    (st : gmap string Struct.t * string) : option (gmap string Struct.t * string) :=
  match ss with
  | [] => Some st
  | ks :: ss' =>
    st1 ← check fuel rangeFields structs 1 ks.2 st;
    filterNoRender_loop fuel rangeFields structs ss' st1
  end.

(** [func filterNoRender]: the map returned and the text printed. *)
Definition filterNoRender (fuel : nat) (rangeFields : gmap string Field.t → list Field.t)
    (rangeStructs : gmap string Struct.t → list (string * Struct.t))
    (structs : gmap string Struct.t) : option (gmap string Struct.t * string) :=
  let result := foldl (λ r ks, <[ks.1 := ks.2]> r) ∅ (rangeStructs structs) in
  filterNoRender_loop fuel rangeFields structs (rangeStructs structs) (result, "").

(** ** Sample schema sets

    Nodes are written the way the parser leaves them: [Parent] and
    [JSONKey] set on the children, [PathElement] naming the edge from the
    parent, [GeneratedType] empty. *)

Module Sample.

(** A child node reached under [key] (empty for items and additional
    properties) along the path element [path], declaring [types]. *)
Definition child (key path : string) (parent : nat) (types : list string) : Schema.t :=
  Schema.mk "" "" "" "" key path types (Some parent) [] None [] None None [] "" "".

(** A root node declaring [types]. *)
Definition root (types : list string) : Schema.t :=
  Schema.mk "" "" "" "" "" "#" types None [] None [] None None [] "" "".

Definition with_Properties (v : list (string * nat)) (s : Schema.t) : Schema.t :=
  Schema.mk (Schema.ID s) (Schema.Title s) (Schema.Description s) (Schema.Format s)
    (Schema.JSONKey s) (Schema.PathElement s) (Schema.TypeValue s) (Schema.Parent s)
    v (Schema.Items s) (Schema.Required s) (Schema.AdditionalProperties s)
    (Schema.AdditionalPropertiesBool s) (Schema.Definitions s) (Schema.Reference s)
    (Schema.GeneratedType s).

Definition with_Items (v : nat) (s : Schema.t) : Schema.t :=
  Schema.mk (Schema.ID s) (Schema.Title s) (Schema.Description s) (Schema.Format s)
    (Schema.JSONKey s) (Schema.PathElement s) (Schema.TypeValue s) (Schema.Parent s)
    (Schema.Properties s) (Some v) (Schema.Required s) (Schema.AdditionalProperties s)
    (Schema.AdditionalPropertiesBool s) (Schema.Definitions s) (Schema.Reference s)
    (Schema.GeneratedType s).

Definition with_AdditionalProperties (v : nat) (s : Schema.t) : Schema.t :=
  Schema.mk (Schema.ID s) (Schema.Title s) (Schema.Description s) (Schema.Format s)
    (Schema.JSONKey s) (Schema.PathElement s) (Schema.TypeValue s) (Schema.Parent s)
    (Schema.Properties s) (Schema.Items s) (Schema.Required s) (Some v)
    (Schema.AdditionalPropertiesBool s) (Schema.Definitions s) (Schema.Reference s)
    (Schema.GeneratedType s).

Definition with_Definitions (v : list (string * nat)) (s : Schema.t) : Schema.t :=
  Schema.mk (Schema.ID s) (Schema.Title s) (Schema.Description s) (Schema.Format s)
    (Schema.JSONKey s) (Schema.PathElement s) (Schema.TypeValue s) (Schema.Parent s)
    (Schema.Properties s) (Schema.Items s) (Schema.Required s) (Schema.AdditionalProperties s)
    (Schema.AdditionalPropertiesBool s) v (Schema.Reference s)
    (Schema.GeneratedType s).

Definition with_Reference (v : string) (s : Schema.t) : Schema.t :=
  Schema.mk (Schema.ID s) (Schema.Title s) (Schema.Description s) (Schema.Format s)
    (Schema.JSONKey s) (Schema.PathElement s) (Schema.TypeValue s) (Schema.Parent s)
    (Schema.Properties s) (Schema.Items s) (Schema.Required s) (Schema.AdditionalProperties s)
    (Schema.AdditionalPropertiesBool s) (Schema.Definitions s) v
    (Schema.GeneratedType s).

(** A resolver given by the table of the nodes its references denote. *)
Definition table (targets : list (nat * nat)) : RefResolver :=
  {| Init := None;
     GetPath := λ _, "#";
     GetSchemaByReference := λ p, (list_to_map targets : gmap nat nat) !! p |}.

(** The state in which [CreateTypes] starts: a new generator over the
    single root at index 0. *)
Definition start (targets : list (nat * nat)) (nodes : list Schema.t) : State :=
  mkState (New (table targets) [0%nat]) nodes.

(** [{"type":"object","additionalProperties":{"type":"string"}}] *)
Definition string_map : list Schema.t :=
  [ with_AdditionalProperties 1 (root ["object"]);
    child "" "additionalProperties" 0 ["string"] ].

(** [{"type":"string","definitions":{"bad":{"type":"foo"}}}] *)
Definition bad_definition : list Schema.t :=
  [ with_Definitions [("bad", 1%nat)] (root ["string"]);
    child "bad" "definitions/bad" 0 ["foo"] ].

(** [{"type":["string","integer"]}] *)
Definition string_or_integer : list Schema.t := [ root ["string"; "integer"] ].

(** [{"type":"array","items":{"type":"integer"}}] *)
Definition integer_array : list Schema.t :=
  [ with_Items 1 (root ["array"]);
    child "" "items" 0 ["integer"] ].

(** Two array properties whose items are maps of anonymous objects:
    [{"type":"object","properties":{
        "a":{"type":"array","items":{"type":"object","additionalProperties":
              {"type":"object","properties":{"p":{"type":"string"}}}}},
        "b":{"type":"array","items":{"type":"object","additionalProperties":
              {"type":"object","properties":{"q":{"type":"integer"}}}}}}}].
    [props] is the order in which [range] yields the two properties. *)
Definition two_anonymous (props : list (string * nat)) : list Schema.t :=
  [ with_Properties props (root ["object"]);
    with_Items 3 (child "a" "properties/a" 0 ["array"]);
    with_Items 4 (child "b" "properties/b" 0 ["array"]);
    with_AdditionalProperties 5 (child "" "items" 1 ["object"]);
    with_AdditionalProperties 6 (child "" "items" 2 ["object"]);
    with_Properties [("p", 7%nat)] (child "" "additionalProperties" 3 ["object"]);
    with_Properties [("q", 8%nat)] (child "" "additionalProperties" 4 ["object"]);
    child "p" "properties/p" 5 ["string"];
    child "q" "properties/q" 6 ["integer"] ].

(** Two references to one array node:
    [{"type":"object",
      "properties":{"a":{"$ref":"#/additionalProperties"},
                    "b":{"$ref":"#/additionalProperties"}},
      "additionalProperties":{"type":"array","items":
          {"type":"object","properties":{"x":{"type":"string"}}}}}] *)
Definition shared_array : list Schema.t :=
  [ with_AdditionalProperties 3
      (with_Properties [("a", 1%nat); ("b", 2%nat)] (root ["object"]));
    with_Reference "#/additionalProperties" (child "a" "properties/a" 0 []);
    with_Reference "#/additionalProperties" (child "b" "properties/b" 0 []);
    with_Items 4 (child "" "additionalProperties" 0 ["array"]);
    with_Properties [("x", 5%nat)] (child "" "items" 3 ["object"]);
    child "x" "properties/x" 4 ["string"] ].

Definition shared_array_refs : list (nat * nat) := [(1, 3); (2, 3)]%nat.

(** A linked list node:
    [{"definitions":{"node":{"type":"object","properties":{
        "value":{"type":"string"},
        "next":{"$ref":"#/definitions/node"}}}},
      "$ref":"#/definitions/node"}] *)
Definition linked_list : list Schema.t :=
  [ with_Reference "#/definitions/node"
      (with_Definitions [("node", 1%nat)] (root []));
    with_Properties [("value", 2%nat); ("next", 3%nat)]
      (child "node" "definitions/node" 0 ["object"]);
    child "value" "properties/value" 1 ["string"];
    with_Reference "#/definitions/node" (child "next" "properties/next" 1 []) ].

Definition linked_list_refs : list (nat * nat) := [(0, 1); (3, 1)]%nat.

(** A record with a child that points back to it:
    [{"type":"object",
      "definitions":{"d":{"type":"object","properties":{"up":{"$ref":"#"}}}},
      "properties":{"child":{"$ref":"#/definitions/d"}}}] *)
Definition pp_root : Schema.t :=
  with_Definitions [("d", 1%nat)] (with_Properties [("child", 2%nat)] (root ["object"])).
Definition pp_d : Schema.t :=
  with_Properties [("up", 3%nat)] (child "d" "definitions/d" 0 ["object"]).
Definition pp_child : Schema.t :=
  with_Reference "#/definitions/d" (child "child" "properties/child" 0 []).
Definition pp_up : Schema.t :=
  with_Reference "#" (child "up" "properties/up" 1 []).

Definition parent_pointer : list Schema.t := [pp_root; pp_d; pp_child; pp_up].

Definition parent_pointer_refs : list (nat * nat) := [(2, 1); (3, 0)]%nat.

(** A reference to a property that is a map:
    [{"type":"object","properties":{
        "m":{"type":"object","additionalProperties":{"type":"string"}},
        "r":{"$ref":"#/properties/m"}}}], the property [m] visited first. *)
Definition collapsed_target : list Schema.t :=
  [ with_Properties [("m", 1%nat); ("r", 2%nat)] (root ["object"]);
    with_AdditionalProperties 3 (child "m" "properties/m" 0 ["object"]);
    with_Reference "#/properties/m" (child "r" "properties/r" 0 []);
    child "" "additionalProperties" 1 ["string"] ].

Definition collapsed_target_refs : list (nat * nat) := [(2, 1)]%nat.

End Sample.

(** ** Vocabulary of the properties *)

(** The text of a scalar leaf mapping at a given indentation. *)
Definition typeLeaf (indent : nat) (t : string) : string :=
  "{" +:+ nl +:+
  printIndentedLn (S indent) (dq +:+ "type" +:+ dq +:+ ": " +:+ dq +:+ t +:+ dq) +:+
  printIndented indent "}".

(** The state once [schema.GeneratedType = "*" + name] has been executed. *)
Definition memoised (p : nat) (name : string) (st : State) : State :=
  mkState (gen st) (alter (Schema.set_GeneratedType ("*" +:+ name)) p (store st)).

(** What a run may do to a node and to the state: all fields but
    [TypeValue] and [GeneratedType] stay, the declared types once defaulted
    stay, a memo that is set stays set; the resolver and the custom string
    types stay. *)
Definition node_le (s s' : Schema.t) : Prop :=
  Schema.set_TypeValue [] (Schema.set_GeneratedType "" s') =
    Schema.set_TypeValue [] (Schema.set_GeneratedType "" s)
  ∧ Schema.TypeValue (Schema.FixMissingTypeValue s') =
    Schema.TypeValue (Schema.FixMissingTypeValue s)
  ∧ (Schema.GeneratedType s ≠ "" → Schema.GeneratedType s' ≠ "").

(** The states a run may lead to from [st]. *)
Definition evolves (st st' : State) : Prop :=
  Forall2 node_le (store st) (store st')
  ∧ resolver (gen st') = resolver (gen st)
  ∧ customStringTypes (gen st') = customStringTypes (gen st).

(** A computation all of whose runs relate the states by [evolves]. *)
Definition preserves {A} (m : M A) : Prop :=
  ∀ st r st', m st = Some (r, st') → evolves st st'.

(** The memo ([GeneratedType]) of node [p] in a state. *)
Definition memo (st : State) (p : nat) : string :=
  from_option Schema.GeneratedType "" (store st !! p).

(** The test of the renderer's [continue]: the JSON name starts with [_]
    or is [-]. *)
Definition notSerialized (f : Field.t) : bool :=
  HasPrefix (Field.JSONName f) "_" || bool_decide (Field.JSONName f = "-").

(** A record without the fields that the renderer does not serialize. *)
Definition withoutSkipped (s : Struct.t) : Struct.t :=
  set_Fields (filter (λ kv, notSerialized kv.2 = false) (Struct.Fields s)) s.

(** The states the run over [Sample.parent_pointer] goes through: nothing
    is registered, the memo of the root is still empty, the memo of [d] is
    [g]. *)
Definition pp_state (g : string) : State :=
  mkState (New (Sample.table Sample.parent_pointer_refs) [0%nat])
    [Sample.pp_root; Schema.set_GeneratedType g Sample.pp_d; Sample.pp_child; Sample.pp_up].

(** Every key of a field map is the name of the field it holds. *)
Definition fields_named (s : Struct.t) : Prop :=
  ∀ k f, Struct.Fields s !! k = Some f → Field.Name f = k.

(** Every key of the two registries is the name of the value it holds, and
    so is every key of the field map of a registered record. *)
Definition registries_named (st : State) : Prop :=
  (∀ k s, Structs (gen st) !! k = Some s → Struct.Name s = k ∧ fields_named s)
  ∧ (∀ k a, Aliases (gen st) !! k = Some a → Field.Name a = k).

(** The registries of [st'] hold a value under every key of those of [st]. *)
Definition registries_grow (st st' : State) : Prop :=
  dom (Structs (gen st)) ⊆ dom (Structs (gen st'))
  ∧ dom (Aliases (gen st)) ⊆ dom (Aliases (gen st')).

(** The concatenation of a list of strings. *)
Fixpoint joinAll (l : list string) : string :=
  match l with
  | [] => ""
  | x :: l' => x +:+ joinAll l'
  end.

(** The bytes of a string, and a test on all of them. *)
Fixpoint allBytes (P : ascii → bool) (s : string) : bool :=
  match s with
  | EmptyString => true
  | String a t => P a && allBytes P t
  end.

(** An ASCII letter or digit; a byte of a Go identifier over ASCII. *)
Definition asciiLetterOrDigit (a : ascii) : bool :=
  inRange 65 90 (byteZ a) || inRange 97 122 (byteZ a) || inRange 48 57 (byteZ a).

Definition goNameByte (a : ascii) : bool :=
  asciiLetterOrDigit a || bool_decide (a = "_"%char).

(** Whether the walk over the runes [cs] ends with a non-empty buffer,
    starting from the buffer [buf]. *)
Definition endsInFragment (shouldSplit : Z → bool) (cs : list Z) (buf : string) : bool :=
  match last cs with
  | Some c => negb (shouldSplit c)
  | None => bool_decide (buf ≠ "")
  end.

(** A record that is not marked for code generation has no additional
    type and no required field. *)
Definition code_flagged (s : Struct.t) : Prop :=
  Struct.GenerateCode s = false →
  Struct.AdditionalType s = ""
  ∧ ∀ k f, Struct.Fields s !! k = Some f → Field.Required f = false.

(** The field that [processObject] adds for the additional properties. *)
Definition catch_all_field (f : Field.t) : Prop :=
  Field.Name f = "AdditionalProperties" ∧ Field.JSONName f = "-"
  ∧ Field.Required f = false
  ∧ ∃ subTyp, Field.Type_ f = "map[string]" +:+ subTyp.

(** Every field of a record is a property under the identifier made from
    its JSON name, or the field of the additional properties. *)
Definition fields_accounted `{!Unicode} (conventions : gmap string string)
    (s : Struct.t) : Prop :=
  ∀ k f, Struct.Fields s !! k = Some f →
    Field.Name f = getGolangName (Field.JSONName f) conventions ∨ catch_all_field f.

(** Every memo of the store is empty or a pointer type. *)
Definition memo_pointer (st : State) : Prop :=
  ∀ p s, store st !! p = Some s →
    Schema.GeneratedType s = "" ∨ ∃ name, Schema.GeneratedType s = "*" +:+ name.

(** The parts of the generator that are set once by [New]. *)
Definition configuration_kept (st st' : State) : Prop :=
  schemas (gen st') = schemas (gen st)
  ∧ customStringTypes (gen st') = customStringTypes (gen st)
  ∧ refs (gen st') = refs (gen st).

(** All runs of [m] are in the relation [R] between the state before and
    after, and a result the run yields satisfies [Q]. *)
Definition respects (R : State → State → Prop) {A} (Q : A → Prop) (m : M A) : Prop :=
  ∀ st r st', m st = Some (r, st') → R st st' ∧ ∀ a, r = Ok a → Q a.

Definition any {A} : A → Prop := λ _, True.

(** The errors that a resolution can end in. *)
Definition known_error (e : string) : Prop :=
  e = "can't create an object of an empty subtype"
  ∨ (∃ t, e = "failed to get a primitive type for schemaType " +:+ t +:+
              " and subtype " +:+ "")
  ∨ (∃ ref path, e = "processReference: reference " +:+ dq +:+ ref +:+ dq +:+
                     " not found at " +:+ dq +:+ path +:+ dq).

(** From a state in [Pre], a run of [m] that returns yields a value and a
    state in [Q], or one of the known errors. *)
Definition outcome {A} (Pre : State → Prop) (Q : A → State → Prop) (m : M A) : Prop :=
  ∀ st r st', Pre st → m st = Some (r, st') →
    match r with Ok a => Q a st' | Err e => known_error e end.

Definition top : State → Prop := λ _, True.
Definition typeOK (ty : string) (_ : State) : Prop := ty ≠ "".
Definition anyOK {A} (_ : A) (_ : State) : Prop := True.

(** The name [k] is that of a registered record which an object-typed
    field of a registered record refers to. *)
Definition referenced (structs : gmap string Struct.t) (k : string) : Prop :=
  ∃ k0 s kf f s',
    structs !! k0 = Some s ∧ Struct.Fields s !! kf = Some f
    ∧ getESType f = "object"
    ∧ structs !! Trim (Field.Type_ f) "[]*" = Some s'
    ∧ Struct.Name s' = k.

(** What [check] keeps of the map [result]: it holds registered records
    under their keys, and it lacks only keys that are not registered or
    are referenced. *)
Definition check_inv (structs result : gmap string Struct.t) : Prop :=
  (∀ k s, result !! k = Some s → structs !! k = Some s)
  ∧ (∀ k, result !! k = None → structs !! k = None ∨ referenced structs k).

(** The orders of [range] are enumerations of the maps. *)
Definition fair_fields (rangeFields : gmap string Field.t → list Field.t) : Prop :=
  ∀ m, rangeFields m ≡ₚ (map_to_list m).*2.
Definition fair_structs (rangeStructs : gmap string Struct.t → list (string * Struct.t))
    (structs : gmap string Struct.t) : Prop :=
  rangeStructs structs ≡ₚ map_to_list structs.

(** * Properties *)

(** ** Checks of the embedding on small inputs *)

Example ex_itoa : itoa 12 = "12" ∧ itoa 0 = "0" ∧ itoa (-3) = "-3".
Proof. vm_compute. auto. Qed.

Example ex_trim : Trim "*Foo" "*" = "Foo" ∧ Trim "[]*Foo" "[]*" = "Foo" ∧ Trim "**" "*" = "".
Proof. vm_compute. auto. Qed.

Example ex_runes : runes "a_1" = [97; 95; 49].
Proof. reflexivity. Qed.

Example ex_names :
  let _ := ascii_tables in
  getGolangName "my_thing" ∅ = "MyThing" ∧
  getGolangName "My Thing" ∅ = "MyThing" ∧
  getGolangName "1st" ∅ = "_1st" ∧
  getGolangName "user id" (<["Id" := "ID"]> ∅) = "UserID" ∧
  splitOnAll "a__b_" isNotAGoNameCharacter = ["a"; ""; "b"].
Proof. vm_compute. auto. Qed.

Example ex_render :
  let fs : gmap string Field.t :=
    <["B" := Field.mk "B" "b" "int" false "" ""]>
    (<["A" := Field.mk "A" "a" "string" false "" ""]>
    (<["X" := Field.mk "X" "-" "map[string]string" false "" ""]> ∅)) in
  getOrderedFieldNames fs = ["A"; "B"; "X"] ∧
  renderStructMapping 1 0 (Struct.mk "" "S" "" fs false "" []) ∅ =
  Some ("{" +:+ nl +:+
        tab +:+ dq +:+ "properties" +:+ dq +:+ ": {" +:+ nl +:+
        tab +:+ tab +:+ dq +:+ "a" +:+ dq +:+ ": {" +:+ nl +:+
        tab +:+ tab +:+ tab +:+ dq +:+ "type" +:+ dq +:+ ": " +:+ dq +:+ "keyword" +:+ dq +:+ nl +:+
        tab +:+ tab +:+ "}," +:+ nl +:+
        tab +:+ tab +:+ dq +:+ "b" +:+ dq +:+ ": {" +:+ nl +:+
        tab +:+ tab +:+ tab +:+ dq +:+ "type" +:+ dq +:+ ": " +:+ dq +:+ "integer" +:+ dq +:+ nl +:+
        tab +:+ tab +:+ "}" +:+ tab +:+ tab +:+ nl +:+
        tab +:+ "}" +:+ nl +:+
        "}").
Proof. vm_compute. auto. Qed.

(** ** Running the monad *)

Lemma bind_run {A B} (m : M A) (k : A → M B) (st : State) :
  (m ≫= k) st =
  match m st with
  | None => None
  | Some (Ok a, st') => k a st'
  | Some (Err e, st') => Some (Err e, st')
  end.
Proof. reflexivity. Qed.

Lemma bind_run_ok {A B} (m : M A) (k : A → M B) (st st' : State) (a : A) :
  m st = Some (Ok a, st') → (m ≫= k) st = k a st'.
Proof. intros H. rewrite bind_run, H. reflexivity. Qed.

Lemma deref_run (p : ptr) (st : State) (s : Schema.t) :
  store st !! p = Some s → deref p st = Some (Ok s, st).
Proof. intros H. unfold deref. rewrite H. reflexivity. Qed.

(** One step of symbolic execution: expose the first action of a bind and
    reduce the primitive actions. *)
Ltac msimp := cbn [mret M_ret ret fail lift get_gen modify_gen modify_node checked].
Ltac mstep := rewrite bind_run; msimp.
Ltac mstep_with H := rewrite (bind_run_ok _ _ _ _ _ H); msimp.
Ltac mderef H := mstep_with (deref_run _ _ _ H).

(** ** Mapping renderer: classification of string slices *)

(** C10. A field of type [[]string] is classified like a scalar string:
    [date] when its format is [date-time], [keyword] otherwise; it is never
    [object], and its entry in the mapping is the plain leaf, whatever the
    record registry holds and whatever the recursive rendering would do. *)
Theorem string_slice_is_scalar_string (f : Field.t)
    (render : nat → Struct.t → option string) (structs : gmap string Struct.t)
    (fields : gmap string Field.t) (fieldKey : string) (indent count : nat) :
  Field.Type_ f = "[]string" →
  fields !! fieldKey = Some f →
  HasPrefix (Field.JSONName f) "_" = false →
  Field.JSONName f ≠ "-" →
  getESType f = (if bool_decide (Field.Format f = "date-time") then "date" else "keyword")
  ∧ getESType f =
    getESType (Field.mk (Field.Name f) (Field.JSONName f) "string" (Field.Required f)
                 (Field.Description f) (Field.Format f))
  ∧ getESType f ≠ "object"
  ∧ renderStructMapping_field render structs fields fieldKey indent count =
    Some ((if bool_decide (count ≠ 0%nat) then "," +:+ nl else "") +:+
          printIndented indent (dq +:+ Field.JSONName f +:+ dq +:+ ": ") +:+
          typeLeaf indent (getESType f),
          indent, S count).
Proof.
  intros Hty Hf Hpre Hdash.
  assert (Hes : getESType f =
    if bool_decide (Field.Format f = "date-time") then "date" else "keyword").
  { unfold getESType. rewrite Hty. reflexivity. }
  assert (Hno : getESType f ≠ "object").
  { rewrite Hes. case_bool_decide; discriminate. }
  split; [exact Hes|]. split; [|split; [exact Hno|]].
  - rewrite Hes. unfold getESType. reflexivity.
  - unfold renderStructMapping_field. rewrite Hf. cbn [default from_option id].
    rewrite Hpre. rewrite (bool_decide_eq_false_2 _ Hdash). cbn [orb].
    rewrite (bool_decide_eq_false_2 _ Hno).
    unfold leafMapping, typeLeaf. cbn [Nat.pred]. reflexivity.
Qed.

(** ** Array resolution: integer widening and pointer stripping *)

Lemma TrimRight_head (s cutset : string) (a : ascii) (t : string) :
  TrimRight s cutset = String a t → ∃ t', s = String a t'.
Proof.
  destruct s as [|b s']; cbn; [discriminate|].
  destruct (TrimRight s' cutset); [destruct (containsByte cutset b)|];
    intros [= <- _]; eauto.
Qed.

Lemma TrimLeft_head (s cutset : string) (a : ascii) (t : string) :
  TrimLeft s cutset = String a t → containsByte cutset a = false.
Proof.
  induction s as [|b s' IH]; cbn; [discriminate|].
  destruct (containsByte cutset b) eqn:Hb; [exact IH|].
  intros [= <- _]. exact Hb.
Qed.

(** No byte of the cutset is left at the front of a trimmed string. *)
Lemma Trim_head (s cutset : string) (a : ascii) (t : string) :
  Trim s cutset = String a t → containsByte cutset a = false.
Proof.
  unfold Trim. intros H. apply TrimRight_head in H as [t' H].
  eapply TrimLeft_head; eassumption.
Qed.

Lemma Trim_star_no_pointer (s t : string) : Trim s "*" ≠ String "*" t.
Proof.
  intros E. apply Trim_head in E. cbn in E.
  rewrite decide_True in E by reflexivity. discriminate.
Qed.

Section ArrayProperties.
Context `{!Unicode}.

(** C7. When the item type of an array resolves to [int], the array type
    is [[]int64]; in general the element type is the item type, widened
    from [int] to [int64], with the pointer marks trimmed, so it never
    starts with [*]. A scalar integer is [int]. The registries change only
    by the alias of a root array. *)
Theorem array_integer_widening (rec : resolver_fn) (name : string) (p items : nat)
    (conventions : gmap string string) (st st1 st2 : State)
    (schema : Schema.t) (subName subTyp : string) :
  store st !! p = Some schema →
  Schema.Items schema = Some items →
  getSchemaName (name +:+ "Items") items conventions st = Some (Ok subName, st1) →
  rec subName items conventions st1 = Some (Ok subTyp, st2) →
  subTyp ≠ "" →
  let elem := Trim (if bool_decide (subTyp = "int") then "int64" else subTyp) "*" in
  (∃ st3, processArray rec name p conventions st = Some (Ok ("[]" +:+ elem), st3)
          ∧ Structs (gen st3) = Structs (gen st2)
          ∧ store st3 = store st2)
  ∧ (subTyp = "int" → elem = "int64")
  ∧ (∀ t, elem ≠ String "*" t)
  ∧ getPrimitiveTypeName "integer" "" false = ("int", None).
Proof.
  intros Hp Hitems Hname Hrec Hne elem.
  split; [|split; [|split]].
  - unfold processArray.
    rewrite (bind_run_ok _ _ _ _ _ (deref_run _ _ _ Hp)). rewrite Hitems.
    rewrite (bind_run_ok _ _ _ _ _ Hname).
    rewrite (bind_run_ok _ _ _ _ _ Hrec).
    unfold getPrimitiveTypeName.
    rewrite (bool_decide_eq_true_2 ("array" = "array") eq_refl).
    rewrite (bool_decide_eq_false_2 _ Hne).
    cbn [checked]. fold elem.
    rewrite bind_run. cbn [mret M_ret ret].
    rewrite bind_run.
    destruct (bool_decide (Schema.Parent schema = None)); cbn; eexists; eauto.
  - intros ->. reflexivity.
  - intros t. apply Trim_star_no_pointer.
  - reflexivity.
Qed.

End ArrayProperties.

(** ** Object resolution: collapsing to a map *)

Lemma lookup_memoised (p q : nat) (name : string) (st : State) (s : Schema.t) :
  store st !! q = Some s →
  store (memoised p name st) !! q =
  Some (if decide (p = q) then Schema.set_GeneratedType ("*" +:+ name) s else s).
Proof.
  intros H. cbn. destruct (decide (p = q)) as [->|Hne].
  - rewrite list_lookup_alter_eq, H. reflexivity.
  - rewrite list_lookup_alter_ne, H by assumption. reflexivity.
Qed.

Lemma alter_fixed {A} (f : A → A) (i : nat) (l : list A) (x : A) :
  l !! i = Some x → f x = x → alter f i l = l.
Proof.
  intros Hl Hf. apply list_eq. intros j.
  destruct (decide (i = j)) as [<-|Hne].
  - rewrite list_lookup_alter_eq, Hl. cbn. rewrite Hf. reflexivity.
  - rewrite list_lookup_alter_ne by assumption. reflexivity.
Qed.

(** [FixMissingTypeValue] leaves a node that declares a type as it is. *)
Lemma FixMissingTypeValue_typed (p : nat) (st : State) (s : Schema.t) :
  store st !! p = Some s → Schema.TypeValue s ≠ [] →
  mkState (gen st) (alter Schema.FixMissingTypeValue p (store st)) = st.
Proof.
  intros Hp Hty.
  rewrite (alter_fixed _ _ _ _ Hp); [destruct st; reflexivity|].
  unfold Schema.FixMissingTypeValue. destruct (Schema.TypeValue s); [done|reflexivity].
Qed.

Section ObjectProperties.
Context `{!Unicode}.

(** C3. An object node without declared properties, with a typed
    [additionalProperties] sub-schema and a path outside [definitions],
    resolves to the map type over the sub-schema's type, and the state it
    leaves is the one the sub-schema's resolution left: no record is
    registered for the node. This holds of [processObject] and, for a node
    declaring the single type [object] and no definitions, of a whole
    level of [processSchema]. *)
Theorem additional_properties_collapse (rec : resolver_fn) (name : string) (p ap : nat)
    (conventions : gmap string string) (st st1 st2 : State)
    (schema apSchema : Schema.t) (apName subTyp : string) :
  store st !! p = Some schema →
  Schema.Properties schema = [] →
  Schema.AdditionalProperties schema = Some ap →
  store st !! ap = Some apSchema →
  Schema.AdditionalPropertiesBool apSchema = None →
  HasPrefix (Schema.PathElement schema) "definitions" = false →
  getSchemaName "" ap conventions (memoised p name st) = Some (Ok apName, st1) →
  rec apName ap conventions st1 = Some (Ok subTyp, st2) →
  (∀ customTypes,
     processObject rec name p conventions customTypes st =
     Some (Ok ("map[string]" +:+ subTyp), st2))
  ∧ (Schema.TypeValue schema = ["object"] → Schema.Definitions schema = [] →
     processSchema_body rec name p conventions st =
     Some (Ok ("map[string]" +:+ subTyp), st2)).
Proof.
  intros Hp Hprops Hap Hapn Hbool Hpath Hname Hrec.
  assert (Hobj : ∀ customTypes,
     processObject rec name p conventions customTypes st =
     Some (Ok ("map[string]" +:+ subTyp), st2)).
  { intros customTypes. unfold processObject.
    mderef Hp. mstep. fold (memoised p name st).
    rewrite Hprops. cbn [processObject_properties]. mstep.
    unfold processObject_typed. rewrite Hap. mstep.
    mderef (lookup_memoised p ap name st _ Hapn).
    assert (Hb : Schema.AdditionalPropertiesBool
              (if decide (p = ap)
               then Schema.set_GeneratedType ("*" +:+ name) apSchema else apSchema) = None).
    { destruct (decide (p = ap)); exact Hbool. }
    rewrite Hb. mstep_with Hname. mstep_with Hrec.
    rewrite Hprops, Hpath. reflexivity. }
  split; [exact Hobj|].
  intros Hty Hdefs. unfold processSchema_body.
  mderef Hp. rewrite Hdefs. cbn [length].
  rewrite bool_decide_eq_false_2 by lia. mstep. mstep.
  rewrite (FixMissingTypeValue_typed p st schema Hp) by (rewrite Hty; discriminate).
  mderef Hp.
  unfold Schema.MultiType. rewrite Hty. cbn [length].
  rewrite (bool_decide_eq_false_2 (1 < 1)%nat) by lia.
  rewrite (bool_decide_eq_true_2 (0 < 1)%nat) by lia.
  cbn [processSchema_types]. unfold processSchema_switch.
  rewrite bool_decide_eq_true_2 by reflexivity.
  mstep. mstep. rewrite Hobj. reflexivity.
Qed.

End ObjectProperties.

(** ** What a run may change

    The generator assigns two fields of a schema node, [TypeValue] (in
    [FixMissingTypeValue]) and [GeneratedType]; every run leaves all other
    fields, the declared types once defaulted, and the resolver as they
    were, and never empties a [GeneratedType] that is set. *)

Lemma node_le_fields (s s' : Schema.t) :
  node_le s s' →
  Schema.Properties s' = Schema.Properties s
  ∧ Schema.Definitions s' = Schema.Definitions s
  ∧ Schema.Items s' = Schema.Items s
  ∧ Schema.AdditionalProperties s' = Schema.AdditionalProperties s
  ∧ Schema.AdditionalPropertiesBool s' = Schema.AdditionalPropertiesBool s
  ∧ Schema.Reference s' = Schema.Reference s
  ∧ Schema.Parent s' = Schema.Parent s
  ∧ Schema.Title s' = Schema.Title s
  ∧ Schema.JSONKey s' = Schema.JSONKey s
  ∧ Schema.PathElement s' = Schema.PathElement s.
Proof.
  intros (H & _ & _). destruct s, s'. cbn in H. injection H as. subst.
  cbn. repeat split.
Qed.

#[local] Instance node_le_refl : Reflexive node_le.
Proof. intros s. split; [done|]. split; [done|auto]. Qed.

#[local] Instance node_le_trans : Transitive node_le.
Proof.
  intros s1 s2 s3 (H1 & H2 & H3) (H1' & H2' & H3').
  split; [congruence|]. split; [congruence|]. auto.
Qed.

#[local] Instance evolves_refl : Reflexive evolves.
Proof.
  intros st. split; [reflexivity|done].
Qed.

#[local] Instance evolves_trans : Transitive evolves.
Proof.
  intros st1 st2 st3 (H1 & H2 & H3) (H1' & H2' & H3').
  split; [|split; congruence].
  by etrans.
Qed.

Lemma evolves_alter (f : Schema.t → Schema.t) (p : nat) (st : State) :
  (∀ s, node_le s (f s)) →
  evolves st (mkState (gen st) (alter f p (store st))).
Proof.
  intros Hf. split; [|done]. cbn. apply Forall2_same_length_lookup.
  split; [by rewrite length_alter|].
  intros i x y Hx Hy. destruct (decide (p = i)) as [->|Hne].
  - rewrite list_lookup_alter_eq, Hx in Hy. cbn in Hy. by simplify_eq.
  - rewrite list_lookup_alter_ne, Hx in Hy by done. simplify_eq. reflexivity.
Qed.

Lemma node_le_memo (v : string) (s : Schema.t) :
  v ≠ "" → node_le s (Schema.set_GeneratedType v s).
Proof.
  intros Hv. destruct s as [??????[|??]?[|??]];
    (split; [reflexivity|]; split; [reflexivity|]; cbn; auto).
Qed.

Lemma FixMissingTypeValue_idem (s : Schema.t) :
  Schema.FixMissingTypeValue (Schema.FixMissingTypeValue s) = Schema.FixMissingTypeValue s.
Proof. destruct s as [??????[|??]?[|??]]; reflexivity. Qed.

Lemma node_le_fix (s : Schema.t) : node_le s (Schema.FixMissingTypeValue s).
Proof.
  split; [|split].
  - destruct s as [??????[|??]?[|??]]; reflexivity.
  - by rewrite FixMissingTypeValue_idem.
  - destruct s as [??????[|??]?[|??]]; cbn; auto.
Qed.

Lemma preserves_ret {A} (a : A) : preserves (mret a).
Proof. intros st r st' [= <- <-]. reflexivity. Qed.

Lemma preserves_fail {A} (e : string) : preserves (@fail A e).
Proof. intros st r st' [= <- <-]. reflexivity. Qed.

Lemma preserves_checked (r : string * option string) : preserves (checked r).
Proof. destruct r as [? [?|]]; [apply preserves_fail|apply preserves_ret]. Qed.

Lemma preserves_deref (p : nat) : preserves (deref p).
Proof.
  intros st r st'. unfold deref. destruct (store st !! p); [|done].
  intros [= <- <-]. reflexivity.
Qed.

Lemma preserves_get_gen : preserves get_gen.
Proof. intros st r st' [= <- <-]. reflexivity. Qed.

Lemma preserves_bind {A B} (m : M A) (k : A → M B) :
  preserves m → (∀ a, preserves (k a)) → preserves (m ≫= k).
Proof.
  intros Hm Hk st r st'. rewrite bind_run.
  destruct (m st) as [[[a|e] st1]|] eqn:E; [| |done].
  - intros Hka. etrans; [eapply Hm, E|eapply Hk, Hka].
  - intros [= <- <-]. eapply Hm, E.
Qed.

Lemma preserves_discard {A} (m : M A) : preserves m → preserves (discard m).
Proof.
  intros Hm st r st'. unfold discard.
  destruct (m st) as [[a st1]|] eqn:E; [|done].
  intros [= <- <-]. eapply Hm, E.
Qed.

Lemma preserves_modify_node (f : Schema.t → Schema.t) (p : nat) :
  (∀ s, node_le s (f s)) → preserves (modify_node f p).
Proof. intros Hf st r st' [= <- <-]. by apply evolves_alter. Qed.

Lemma preserves_modify_gen (f : Generator → Generator) :
  (∀ g, resolver (f g) = resolver g ∧ customStringTypes (f g) = customStringTypes g) →
  preserves (modify_gen f).
Proof.
  intros Hf st r st' [= <- <-]. split; [reflexivity|apply Hf].
Qed.

Create HintDb preserve.

#[local] Hint Resolve preserves_ret preserves_fail preserves_checked preserves_deref
  preserves_get_gen preserves_discard : preserve.

Ltac preserve :=
  repeat first
    [ progress intros
    | solve [auto with preserve]
    | apply preserves_bind
    | apply preserves_modify_gen; intros; split; reflexivity
    | match goal with
      | |- preserves (if ?b then _ else _) => destruct b
      | |- preserves (match ?x with _ => _ end) => destruct x
      | |- preserves (let '(_, _) := ?x in _) => destruct x
      end ].

Section Frame.
Context `{!Unicode}.

Lemma preserves_getSchemaName (keyName : string) (p : nat) (conventions : gmap string string) :
  preserves (getSchemaName keyName p conventions).
Proof. unfold getSchemaName. preserve. Qed.

#[local] Hint Resolve preserves_getSchemaName : preserve.

Variable rec : resolver_fn.
Hypothesis rec_preserves : ∀ name p conventions, preserves (rec name p conventions).

#[local] Hint Resolve rec_preserves : preserve.

Lemma preserves_processDefinitions (p : nat) (conventions : gmap string string) :
  preserves (processDefinitions rec p conventions).
Proof.
  unfold processDefinitions. preserve.
  match goal with |- preserves (processDefinitions_loop _ _ ?l) => induction l as [|[] ? IH] end;
    cbn [processDefinitions_loop]; preserve.
Qed.

Lemma preserves_processReference (p : nat) (conventions : gmap string string) :
  preserves (processReference rec p conventions).
Proof. unfold processReference. preserve. Qed.

Lemma preserves_processArray (name : string) (p : nat) (conventions : gmap string string) :
  preserves (processArray rec name p conventions).
Proof. unfold processArray. preserve. Qed.

Lemma preserves_processObject (name : string) (p : nat) (conventions : gmap string string)
    (customTypes : gmap string stringFormatType) :
  preserves (processObject rec name p conventions customTypes).
Proof.
  unfold processObject. preserve.
  - apply preserves_modify_node. intros s. by apply node_le_memo.
  - match goal with |- preserves (processObject_properties _ _ _ _ ?l ?s) =>
      generalize s; induction l as [|[] ? IH] end;
      intros; cbn [processObject_properties]; preserve.
  - unfold processObject_typed. preserve.
  - unfold processObject_bool. preserve.
Qed.

#[local] Hint Resolve preserves_processDefinitions preserves_processReference
  preserves_processArray preserves_processObject : preserve.

Lemma preserves_processSchema_body (name : string) (p : nat) (conventions : gmap string string) :
  preserves (processSchema_body rec name p conventions).
Proof.
  unfold processSchema_body. preserve.
  - apply preserves_modify_node, node_le_fix.
  - match goal with |- preserves (processSchema_types _ _ _ _ ?b ?l) =>
      induction l as [|? ? IH] end;
      cbn [processSchema_types]; unfold processSchema_switch; preserve.
Qed.

End Frame.

(** Every run of [processSchema] only evolves the state. *)
Lemma processSchema_preserves `{!Unicode} (fuel : nat) (name : string) (p : nat)
    (conventions : gmap string string) :
  preserves (processSchema fuel name p conventions).
Proof.
  revert name p conventions. induction fuel as [|fuel IH]; intros name p conventions.
  - intros st r st'. discriminate.
  - cbn [processSchema]. by apply preserves_processSchema_body.
Qed.

(** ** What object resolution returns *)

Lemma bind_ok_inv {A B} (m : M A) (k : A → M B) (st st' : State) (b : B) :
  (m ≫= k) st = Some (Ok b, st') →
  ∃ a st1, m st = Some (Ok a, st1) ∧ k a st1 = Some (Ok b, st').
Proof.
  rewrite bind_run. destruct (m st) as [[[a|e] st1]|]; [eauto|done..].
Qed.

Lemma ret_ok_inv {A} (a b : A) (st st' : State) :
  (mret a : M A) st = Some (Ok b, st') → a = b ∧ st = st'.
Proof. by intros [= -> ->]. Qed.

Section ObjectResult.
Context `{!Unicode}.
Variable rec : resolver_fn.

Lemma processObject_properties_Name (schema : Schema.t) (conventions : gmap string string)
    (customTypes : gmap string stringFormatType) (props : list (string * nat))
    (strct strct' : Struct.t) (st st' : State) :
  processObject_properties rec schema conventions customTypes props strct st
    = Some (Ok strct', st') →
  Struct.Name strct' = Struct.Name strct.
Proof.
  revert strct st. induction props as [|[propKey prop] props IH]; intros strct st.
  - intros [= -> _]. reflexivity.
  - cbn [processObject_properties]. intros Hrun.
    apply bind_ok_inv in Hrun as (subSchemaName & st1 & _ & Hrun).
    apply bind_ok_inv in Hrun as (fieldType & st2 & _ & Hrun).
    apply bind_ok_inv in Hrun as (propSchema & st3 & _ & Hrun).
    apply IH in Hrun. rewrite Hrun. cbn.
    repeat (case_match; cbn); reflexivity.
Qed.

(** A successful object resolution either registered a record under the
    given name and returns the pointer to it, or collapsed to a map type
    (no declared properties, outside [definitions]). *)
Lemma processObject_result (name : string) (p : nat) (conventions : gmap string string)
    (customTypes : gmap string stringFormatType) (st st' : State) (ty : string) :
  processObject rec name p conventions customTypes st = Some (Ok ty, st') →
  (ty = "*" +:+ name ∧ name ≠ ""
   ∧ ∃ strct, Structs (gen st') !! name = Some strct ∧ Struct.Name strct = name)
  ∨ (∃ schema subTyp, store st !! p = Some schema ∧ ty = "map[string]" +:+ subTyp
     ∧ Schema.Properties schema = []
     ∧ HasPrefix (Schema.PathElement schema) "definitions" = false).
Proof.
  unfold processObject. intros Hrun.
  apply bind_ok_inv in Hrun as (schema & st0 & Hd & Hrun).
  assert (Hp : store st !! p = Some schema ∧ st0 = st).
  { unfold deref in Hd. destruct (store st !! p); [|done]. by (unfold mret, M_ret, ret in *; simplify_eq). }
  destruct Hp as [Hp ->].
  apply bind_ok_inv in Hrun as ([] & st1 & _ & Hrun).
  apply bind_ok_inv in Hrun as (strct1 & st2 & Hprops & Hrun).
  apply processObject_properties_Name in Hprops. cbn in Hprops.
  apply bind_ok_inv in Hrun as (r & st3 & Htyped & Hrun).
  destruct r as [mapTyp|strct2].
  - apply ret_ok_inv in Hrun as [-> ->]. right.
    unfold processObject_typed in Htyped.
    destruct (Schema.AdditionalProperties schema) as [ap|]; [|done].
    apply bind_ok_inv in Htyped as (apSchema & st4 & _ & Htyped).
    destruct (Schema.AdditionalPropertiesBool apSchema); [done|].
    apply bind_ok_inv in Htyped as (apName & st5 & _ & Htyped).
    apply bind_ok_inv in Htyped as (subTyp & st6 & _ & Htyped).
    destruct (bool_decide (length (Schema.Properties schema) = 0%nat)) eqn:E1;
      [|done].
    destruct (HasPrefix (Schema.PathElement schema) "definitions") eqn:E2; [done|].
    cbn in Htyped. unfold ret in Htyped. simplify_eq.
    apply bool_decide_eq_true_1 in E1.
    exists schema, subTyp. split; [done|]. split; [done|]. split; [|done].
    by destruct (Schema.Properties schema).
  - assert (Hn2 : Struct.Name strct2 = name).
    { unfold processObject_typed in Htyped.
      destruct (Schema.AdditionalProperties schema) as [ap|]; [|by (unfold mret, M_ret, ret in *; simplify_eq)].
      apply bind_ok_inv in Htyped as (apSchema & st4 & _ & Htyped).
      destruct (Schema.AdditionalPropertiesBool apSchema); [by (unfold mret, M_ret, ret in *; simplify_eq)|].
      apply bind_ok_inv in Htyped as (apName & st5 & _ & Htyped).
      apply bind_ok_inv in Htyped as (subTyp & st6 & _ & Htyped).
      destruct (_ && _); by (unfold mret, M_ret, ret in *; simplify_eq). }
    apply bind_ok_inv in Hrun as (strct3 & st4 & Hbool & Hrun).
    assert (Hn3 : Struct.Name strct3 = name).
    { unfold processObject_bool in Hbool.
      destruct (Schema.AdditionalProperties schema) as [ap|]; [|by (unfold mret, M_ret, ret in *; simplify_eq)].
      apply bind_ok_inv in Hbool as (apSchema & st5 & _ & Hbool).
      destruct (Schema.AdditionalPropertiesBool apSchema) as [[]|]; by (unfold mret, M_ret, ret in *; simplify_eq). }
    apply bind_ok_inv in Hrun as ([] & st5 & Hreg & Hrun).
    injection Hreg as <-.
    unfold getPrimitiveTypeName in Hrun.
    rewrite (bool_decide_eq_false_2 ("object" = "array")) in Hrun by done.
    rewrite (bool_decide_eq_false_2 ("object" = "boolean")) in Hrun by done.
    rewrite (bool_decide_eq_false_2 ("object" = "integer")) in Hrun by done.
    rewrite (bool_decide_eq_false_2 ("object" = "number")) in Hrun by done.
    rewrite (bool_decide_eq_false_2 ("object" = "null")) in Hrun by done.
    rewrite (bool_decide_eq_true_2 ("object" = "object")) in Hrun by done.
    destruct (bool_decide (name = "")) eqn:Hne; [done|].
    apply bool_decide_eq_false_1 in Hne.
    cbn in Hrun. unfold ret in Hrun. injection Hrun as <- <-.
    left. split; [done|]. split; [done|].
    exists strct3. cbn. rewrite Hn3. by rewrite lookup_insert_eq.
Qed.

End ObjectResult.

(** ** The memo of a resolved object *)

Lemma evolves_lookup (st st' : State) (p : nat) (s : Schema.t) :
  evolves st st' → store st !! p = Some s →
  ∃ s', store st' !! p = Some s' ∧ node_le s s'.
Proof.
  intros (HF & _) Hp.
  destruct (Forall2_lookup_l _ _ _ _ _ HF Hp) as (s' & ? & ?). eauto.
Qed.

Lemma evolves_memo (st st' : State) (p : nat) :
  evolves st st' → memo st p ≠ "" → memo st' p ≠ "".
Proof.
  unfold memo. intros Hev. destruct (store st !! p) as [s|] eqn:Hp; [|done].
  destruct (evolves_lookup _ _ _ _ Hev Hp) as (s' & -> & (_ & _ & Hm)). exact Hm.
Qed.

Section MemoProperties.
Context `{!Unicode}.

(** A reference whose target has its memo set yields the memo, leaves the
    state as it is and makes no recursive call. *)
Lemma processReference_memo (rec : resolver_fn) (r t : nat)
    (conventions : gmap string string) (st : State) (rs : Schema.t) :
  store st !! r = Some rs →
  Schema.Reference rs ≠ "" →
  GetSchemaByReference (resolver (gen st)) r = Some t →
  memo st t ≠ "" →
  processReference rec r conventions st = Some (Ok (memo st t), st).
Proof.
  intros Hr Href Ht Hm. unfold processReference.
  mderef Hr. mstep. rewrite (bool_decide_eq_false_2 _ Href), Ht.
  unfold memo in *. destruct (store st !! t) as [ts|] eqn:Hts; [|done].
  mderef Hts. cbn in Hm |- *. rewrite (bool_decide_eq_false_2 _ Hm). reflexivity.
Qed.

Lemma processObject_sets_memo (fuel : nat) (name : string) (p : nat)
    (conventions : gmap string string) (customTypes : gmap string stringFormatType)
    (st st' : State) (r : result string) :
  processObject (processSchema fuel) name p conventions customTypes st = Some (r, st') →
  memo st' p ≠ "".
Proof.
  unfold processObject. rewrite bind_run.
  unfold deref at 1. destruct (store st !! p) as [schema|] eqn:Hp; [|done].
  rewrite bind_run. msimp.
  set (st1 := mkState (gen st) _).
  assert (Hm : memo st1 p ≠ "").
  { unfold memo, st1. cbn. rewrite list_lookup_alter_eq, Hp. done. }
  intros Hrun. eapply evolves_memo; [|exact Hm].
  revert Hrun.
  match goal with |- ?m st1 = _ → _ => assert (Hpres : preserves m) end; [|apply Hpres].
  assert (Hrec := processSchema_preserves fuel).
  preserve.
  - match goal with |- preserves (processObject_properties _ _ _ _ ?l ?s) =>
      generalize s; induction l as [|[] ? IH] end;
      intros; cbn [processObject_properties]; preserve.
  - unfold processObject_typed. preserve.
  - unfold processObject_bool. preserve.
Qed.

(** What the memo does in the code, for objects only. Once
    [processObject] has run on a node its memo is set, and no later
    resolution empties it. Every reference that finds the memo set returns
    the memo as it then is, leaves the state unchanged and does not
    process the node again (the recursive call may be anything). The type
    that the object resolution returned is the pointer to the record name
    it was given, the value it assigned to the memo, or the map type of a
    collapsed object: in that case the memo names a record that was never
    registered, and the references return it all the same. *)
Theorem memo_kept_and_reused (fuel0 fuel : nat) (rec1 rec2 : resolver_fn)
    (name name' : string) (t p r1 r2 : nat)
    (conventions : gmap string string) (customTypes : gmap string stringFormatType)
    (st0 st1 st2 : State) (ty : string) (res : result string) (s1 s2 : Schema.t) :
  processObject (processSchema fuel0) name t conventions customTypes st0 = Some (Ok ty, st1) →
  processSchema fuel name' p conventions st1 = Some (res, st2) →
  store st0 !! r1 = Some s1 → Schema.Reference s1 ≠ "" →
  GetSchemaByReference (resolver (gen st0)) r1 = Some t →
  store st0 !! r2 = Some s2 → Schema.Reference s2 ≠ "" →
  GetSchemaByReference (resolver (gen st0)) r2 = Some t →
  memo st1 t ≠ "" ∧ memo st2 t ≠ ""
  ∧ processReference rec1 r1 conventions st1 = Some (Ok (memo st1 t), st1)
  ∧ processReference rec2 r2 conventions st2 = Some (Ok (memo st2 t), st2)
  ∧ (ty = "*" +:+ name ∨ ∃ subTyp, ty = "map[string]" +:+ subTyp).
Proof.
  intros Hobj Hrun Hr1 Href1 Ht1 Hr2 Href2 Ht2.
  assert (Hm1 : memo st1 t ≠ "") by (eapply processObject_sets_memo, Hobj).
  assert (Hev1 : evolves st0 st1).
  { eapply preserves_processObject, Hobj. apply processSchema_preserves. }
  assert (Hev2 : evolves st1 st2) by (eapply processSchema_preserves, Hrun).
  assert (Hm2 : memo st2 t ≠ "") by (eapply evolves_memo; eassumption).
  assert (Hev02 : evolves st0 st2) by (etrans; eassumption).
  split; [exact Hm1|]. split; [exact Hm2|].
  destruct (evolves_lookup _ _ _ _ Hev1 Hr1) as (s1' & Hr1' & Hle1).
  destruct (evolves_lookup _ _ _ _ Hev02 Hr2) as (s2' & Hr2' & Hle2).
  apply node_le_fields in Hle1 as (_ & _ & _ & _ & _ & Hf1 & _).
  apply node_le_fields in Hle2 as (_ & _ & _ & _ & _ & Hf2 & _).
  destruct Hev1 as (_ & Hres1 & _). destruct Hev02 as (_ & Hres2 & _).
  split; [|split].
  - apply (processReference_memo rec1 r1 t conventions st1 s1'); try done.
    + by rewrite Hf1.
    + by rewrite Hres1.
  - apply (processReference_memo rec2 r2 t conventions st2 s2'); try done.
    + by rewrite Hf2.
    + by rewrite Hres2.
  - apply processObject_result in Hobj as [(-> & _)|(? & subTyp & _ & -> & _)]; eauto.
Qed.

End MemoProperties.

(** ** Union types *)

Section UnionProperties.
Context `{!Unicode}.
Variable rec : resolver_fn.

Lemma processSchema_types_union_result (name : string) (p : nat)
    (conventions : gmap string string) (types : list string)
    (st st' : State) (ty : string) :
  processSchema_types rec name p conventions true types st = Some (Ok ty, st') →
  ty = "interface{}".
Proof.
  revert st. induction types as [|t types IH]; intros st; cbn [processSchema_types].
  - by intros [= <- _].
  - intros Hrun. apply bind_ok_inv in Hrun as (rv & st1 & _ & Hrun). eauto.
Qed.

Lemma switch_primitive (name : string) (p : nat) (conventions : gmap string string)
    (t : string) (st : State) :
  t ≠ "object" → t ≠ "array" →
  ∃ r, processSchema_switch rec name p conventions t st = Some (r, st).
Proof.
  intros Ho Ha. unfold processSchema_switch.
  rewrite (bool_decide_eq_false_2 _ Ho), (bool_decide_eq_false_2 _ Ha).
  destruct (getPrimitiveTypeName t "" false) as [rv [e|]]; cbn; eauto.
Qed.

(** C5, as the code has it. For a node that declares several types, the
    branches run in the order of declaration, each under the name suffixed
    with its tag; when all of them succeed the result is [interface{}],
    and an error of a branch is the result otherwise. The object branch
    registers a record under the suffixed name (or collapses to a map), a
    branch of a primitive tag changes nothing in the model. For a single
    declared type the result of its branch, under the unsuffixed name, is
    returned as it is. *)
Theorem union_branches (name : string) (p : nat) (conventions : gmap string string)
    (t : string) (types : list string) (st : State) :
  processSchema_types rec name p conventions true (t :: types) st =
    match processSchema_switch rec (name +:+ "_" +:+ t) p conventions t st with
    | Some (Ok _, st1) => processSchema_types rec name p conventions true types st1
    | Some (Err e, st1) => Some (Err e, st1)
    | None => None
    end
  ∧ (∀ st' ty,
      processSchema_types rec name p conventions true (t :: types) st = Some (Ok ty, st') →
      ty = "interface{}")
  ∧ (∀ st1 ty,
      processSchema_switch rec (name +:+ "_" +:+ "object") p conventions "object" st
        = Some (Ok ty, st1) →
      (ty = "*" +:+ name +:+ "_object"
       ∧ ∃ strct, Structs (gen st1) !! (name +:+ "_object") = Some strct
                  ∧ Struct.Name strct = name +:+ "_object")
      ∨ ∃ subTyp, ty = "map[string]" +:+ subTyp)
  ∧ (t ≠ "object" → t ≠ "array" →
      ∃ r, processSchema_switch rec (name +:+ "_" +:+ t) p conventions t st = Some (r, st))
  ∧ processSchema_types rec name p conventions false (t :: types) st =
    processSchema_switch rec name p conventions t st.
Proof.
  split; [reflexivity|]. split; [|split; [|split]].
  - intros st' ty. apply processSchema_types_union_result.
  - intros st1 ty. unfold processSchema_switch.
    rewrite bool_decide_eq_true_2 by done. intros Hrun.
    apply bind_ok_inv in Hrun as (g & st0 & Hg & Hrun). injection Hg as <- <-.
    apply processObject_result in Hrun
      as [(-> & _ & strct & ? & ?)|(? & subTyp & _ & -> & _)]; [left|right]; eauto.
  - apply switch_primitive.
  - cbn [processSchema_types negb]. rewrite bind_run.
    by destruct (processSchema_switch rec name p conventions t st) as [[[] ?]|].
Qed.

End UnionProperties.

(** ** Mapping renderer: fields that are not serialized *)

Lemma StronglySorted_filter {A} (R : relation A) (P : A → Prop)
    `{∀ x, Decision (P x)} (l : list A) :
  StronglySorted R l → StronglySorted R (filter P l).
Proof.
  induction 1 as [|x l Hl IH Hx]; [constructor|].
  rewrite filter_cons. case_decide; [|done].
  constructor; [done|]. apply Forall_forall. intros y Hy.
  apply list_elem_of_filter in Hy as [_ Hy].
  rewrite Forall_forall in Hx. auto.
Qed.

(** The ordered names of the serialized fields are the serialized ones
    among the ordered names. *)
Lemma getOrderedFieldNames_filter (fields : gmap string Field.t) :
  getOrderedFieldNames (filter (λ kv, notSerialized kv.2 = false) fields) =
  filter (λ k, notSerialized (default zeroField (fields !! k)) = false)
         (getOrderedFieldNames fields).
Proof.
  unfold getOrderedFieldNames.
  apply (StronglySorted_unique String.le).
  - apply StronglySorted_merge_sort; apply _.
  - apply StronglySorted_filter, StronglySorted_merge_sort; apply _.
  - rewrite !merge_sort_Permutation.
    apply NoDup_Permutation.
    + apply NoDup_fst_map_to_list.
    + apply NoDup_filter, NoDup_fst_map_to_list.
    + intros k. rewrite list_elem_of_filter, !list_elem_of_fmap. split.
      * intros ([k' v] & -> & Hkv). apply elem_of_map_to_list in Hkv.
        apply map_lookup_filter_Some in Hkv as [Hk Hv]. cbn in *.
        rewrite Hk. split; [done|]. exists (k', v). split; [done|].
        by apply elem_of_map_to_list.
      * intros (Hq & [k' v] & -> & Hkv). apply elem_of_map_to_list in Hkv.
        cbn in *. rewrite Hkv in Hq. exists (k', v). split; [done|].
        apply elem_of_map_to_list, map_lookup_filter_Some. done.
Qed.

Section RenderProperties.

Lemma renderStructMapping_field_lookup render structs (fields fields' : gmap string Field.t)
    (k : string) (indent count : nat) :
  fields !! k = fields' !! k →
  renderStructMapping_field render structs fields k indent count =
  renderStructMapping_field render structs fields' k indent count.
Proof. intros E. unfold renderStructMapping_field. by rewrite E. Qed.

Lemma renderStructMapping_field_skipped render structs (fields : gmap string Field.t)
    (k : string) (indent count : nat) :
  notSerialized (default zeroField (fields !! k)) = true →
  renderStructMapping_field render structs fields k indent count = Some ("", indent, count).
Proof. intros E. unfold renderStructMapping_field. unfold notSerialized in E. by rewrite E. Qed.

(** The loop writes the same text when the skipped names are left out of
    the iteration and the skipped fields out of the field map. *)
Lemma renderStructMapping_fields_skip render structs (fields : gmap string Field.t)
    (names : list string) (indent count : nat) :
  renderStructMapping_fields render structs fields names indent count =
  renderStructMapping_fields render structs
    (filter (λ kv, notSerialized kv.2 = false) fields)
    (filter (λ k, notSerialized (default zeroField (fields !! k)) = false) names)
    indent count.
Proof.
  revert indent count. induction names as [|k names IH]; intros indent count; [done|].
  rewrite filter_cons. cbn [renderStructMapping_fields].
  destruct (notSerialized (default zeroField (fields !! k))) eqn:E.
  - rewrite decide_False by done.
    rewrite renderStructMapping_field_skipped by done. cbn.
    rewrite IH. by destruct (renderStructMapping_fields _ _ _ _ _ _) as [[? ?]|].
  - rewrite decide_True by done. cbn [renderStructMapping_fields].
    rewrite (renderStructMapping_field_lookup render structs
               (filter (λ kv, notSerialized kv.2 = false) fields) fields).
    + destruct (renderStructMapping_field _ _ _ _ _ _) as [[[? ?] ?]|]; cbn; [|done].
      by rewrite IH.
    + rewrite map_lookup_filter. destruct (fields !! k) as [f|]; [|done]. cbn in *.
      by rewrite option_guard_True.
Qed.

(** The loop writes the same text under two registries and two recursive
    renderers that agree on the records the fields refer to. *)
Lemma renderStructMapping_fields_ext render render' (structs structs' : gmap string Struct.t)
    (fields : gmap string Field.t) (names : list string) (indent count : nat) :
  (∀ n, match structs !! n, structs' !! n with
        | Some s, Some s' =>
          Struct.AdditionalType s = Struct.AdditionalType s' ∧ ∀ i, render i s = render' i s'
        | None, None => True
        | _, _ => False
        end) →
  renderStructMapping_fields render structs fields names indent count =
  renderStructMapping_fields render' structs' fields names indent count.
Proof.
  intros Hreg. revert indent count.
  induction names as [|k names IH]; intros indent count; [done|].
  cbn [renderStructMapping_fields].
  assert (E : renderStructMapping_field render structs fields k indent count =
              renderStructMapping_field render' structs' fields k indent count).
  { unfold renderStructMapping_field.
    set (f := default zeroField (fields !! k)).
    destruct (_ || _); [done|].
    destruct (bool_decide (getESType f = "object")); [|done].
    specialize (Hreg (Trim (Field.Type_ f) "[]*")).
    destruct (structs !! Trim (Field.Type_ f) "[]*") as [s1|];
      destruct (structs' !! Trim (Field.Type_ f) "[]*") as [s1'|];
      [|exfalso; exact Hreg..|reflexivity].
    destruct Hreg as [-> Hr]. by rewrite Hr. }
  rewrite E. clear E.
  destruct (renderStructMapping_field render' structs' fields k indent count)
    as [[[? ?] ?]|]; cbn; [|reflexivity].
  by rewrite IH.
Qed.

Lemma renderStructMapping_ext (fuel indent : nat) (s s' : Struct.t)
    (structs structs' : gmap string Struct.t) :
  withoutSkipped s = withoutSkipped s' →
  (∀ n, withoutSkipped <$> structs !! n = withoutSkipped <$> structs' !! n) →
  renderStructMapping fuel indent s structs = renderStructMapping fuel indent s' structs'.
Proof.
  intros Hs Hreg. revert indent s s' Hs.
  induction fuel as [|fuel IH]; intros indent s s' Hs; [done|].
  cbn [renderStructMapping]. unfold renderStructMapping_body.
  assert (Hf : filter (λ kv, notSerialized kv.2 = false) (Struct.Fields s) =
               filter (λ kv, notSerialized kv.2 = false) (Struct.Fields s')).
  { apply (f_equal Struct.Fields) in Hs. exact Hs. }
  rewrite (renderStructMapping_fields_skip _ structs (Struct.Fields s)).
  rewrite (renderStructMapping_fields_skip _ structs' (Struct.Fields s')).
  rewrite <- !getOrderedFieldNames_filter, Hf.
  erewrite renderStructMapping_fields_ext; [reflexivity|].
  intros n. specialize (Hreg n).
  destruct (structs !! n) as [s1|], (structs' !! n) as [s1'|]; try done.
  assert (Hreg' : withoutSkipped s1 = withoutSkipped s1')
    by (apply (inj Some); exact Hreg).
  split; [|intros i; apply IH; exact Hreg'].
  apply (f_equal Struct.AdditionalType) in Hreg'. exact Hreg'.
Qed.

(** C9. The rendered mapping of a record is determined by the fields whose
    JSON name neither starts with [_] nor is [-], in the record and in the
    records it inlines: two records, and two registries, that differ only
    in such fields render to the same text. In particular the mapping is
    that of the record with these fields removed. *)
Theorem skipped_fields_not_rendered (fuel indent : nat) (s s' : Struct.t)
    (structs structs' : gmap string Struct.t) :
  withoutSkipped s = withoutSkipped s' →
  (∀ n, withoutSkipped <$> structs !! n = withoutSkipped <$> structs' !! n) →
  renderStructMapping fuel indent s structs = renderStructMapping fuel indent s' structs'
  ∧ renderStructMapping fuel indent s structs =
    renderStructMapping fuel indent (withoutSkipped s) structs.
Proof.
  intros Hs Hreg. split.
  - by apply renderStructMapping_ext.
  - apply renderStructMapping_ext; [|done].
    unfold withoutSkipped, set_Fields. cbn. f_equal.
    apply map_eq. intros k. rewrite !map_lookup_filter.
    destruct (Struct.Fields s !! k) as [f|]; [|done]. cbn.
    case_guard; cbn; [by rewrite option_guard_True|done].
Qed.

End RenderProperties.

(** * Runs on the sample schema sets *)

(** Provide the state a run ends in, computed, as existential witness. *)
Ltac exists_final_state m :=
  let r := eval vm_compute in m in
  lazymatch r with
  | Some (_, ?st) => exists st
  end.

Ltac exists_value m :=
  let r := eval vm_compute in m in
  lazymatch r with
  | Some ?v => exists v
  end.

(** Replace a closed term by its value. *)
Ltac eval_closed t :=
  let v := eval vm_compute in t in
  replace t with v by (vm_compute; reflexivity).

Ltac eval_getSchemaName :=
  match goal with
  | |- context [getSchemaName ?k ?p ?c ?st] =>
    let v := eval vm_compute in (fst <$> getSchemaName k p c st) in
    lazymatch v with
    | Some ?r => replace (getSchemaName k p c st) with (Some (r, st)) by (vm_compute; reflexivity)
    end
  end.

Section Runs.
Context `{!Unicode}.

(** C8. A delimiter in front of a digit: [splitOnAll] yields an empty first
    fragment, the digit test of [getGolangName] looks at that fragment, and
    the name it returns starts with a digit. Consecutive delimiters yield
    an empty fragment as well. *)
Theorem getGolangName_leading_delimiter :
  splitOnAll "_1abc" isNotAGoNameCharacter = [""; "1abc"]
  ∧ getGolangName "_1abc" ∅ = "1abc"
  ∧ startsWithDigit (getGolangName "_1abc" ∅) = true
  ∧ splitOnAll "a__b" isNotAGoNameCharacter = ["a"; ""; "b"]
  ∧ getGolangName "1abc" ∅ = "_1abc".
Proof. repeat split; vm_compute; reflexivity. Qed.

(** C2. The definitions block of the sample fails to resolve, and the run
    over the schema set nevertheless succeeds: [processSchema] drops the
    error that [processDefinitions] returns. *)
Theorem definitions_error_swallowed :
  let st := Sample.start [] Sample.bad_definition in
  processDefinitions (processSchema 4) 0 ∅ st =
    Some (Err "failed to get a primitive type for schemaType foo and subtype ", st)
  ∧ ∃ st', CreateTypes 5 ∅ st = Some (Ok tt, st')
           ∧ Aliases (gen st') = {[ "Root" := Field.mk "Root" "" "string" false "" "" ]}
           ∧ Structs (gen st') = ∅.
Proof.
  split; [vm_compute; reflexivity|].
  eexists. split; [reflexivity|]. split; vm_compute; reflexivity.
Qed.

(** C1. One schema set, enumerated by [range] in two orders: the two
    properties of the root are the same map, yet the records registered as
    [Anonymous1] differ, and so do their rendered mappings. *)
Theorem resolution_depends_on_range_order :
  let ab := [("a", 1%nat); ("b", 2%nat)] in
  let ba := [("b", 2%nat); ("a", 1%nat)] in
  ab ≡ₚ ba
  ∧ ∃ st1 st2,
      CreateTypes 10 ∅ (Sample.start [] (Sample.two_anonymous ab)) = Some (Ok tt, st1)
      ∧ CreateTypes 10 ∅ (Sample.start [] (Sample.two_anonymous ba)) = Some (Ok tt, st2)
      ∧ Struct.Fields <$> Structs (gen st1) !! "Anonymous1"
        = Some {[ "P" := Field.mk "P" "p" "string" false "" "" ]}
      ∧ Struct.Fields <$> Structs (gen st2) !! "Anonymous1"
        = Some {[ "Q" := Field.mk "Q" "q" "int" false "" "" ]}
      ∧ Structs (gen st1) ≠ Structs (gen st2)
      ∧ (s ← Structs (gen st1) !! "Anonymous1"; renderStructMapping 2 0 s (Structs (gen st1)))
        ≠ (s ← Structs (gen st2) !! "Anonymous1"; renderStructMapping 2 0 s (Structs (gen st2))).
Proof.
  split; [apply Permutation_swap|].
  exists_final_state
    (CreateTypes 10 ∅ (Sample.start [] (Sample.two_anonymous [("a", 1%nat); ("b", 2%nat)]))).
  exists_final_state
    (CreateTypes 10 ∅ (Sample.start [] (Sample.two_anonymous [("b", 2%nat); ("a", 1%nat)]))).
  split; [vm_compute; reflexivity|]. split; [vm_compute; reflexivity|].
  split; [vm_compute; reflexivity|]. split; [vm_compute; reflexivity|].
  split.
  - intros E. apply (f_equal (λ m, Struct.Fields <$> m !! "Anonymous1")) in E.
    vm_compute in E. discriminate E.
  - vm_compute. discriminate.
Qed.

(** One level of the resolution at each of the three nodes on the cycle:
    it returns nothing when the recursive call on the next node does. *)
Lemma pp_level_root (rec : resolver_fn) (g : string) :
  rec "D" 1%nat ∅ (pp_state g) = None →
  processSchema_body rec "Root" 0%nat ∅ (pp_state g) = None.
Proof.
  intros Hrec. unfold processSchema_body.
  mderef (eq_refl : store (pp_state g) !! 0%nat = Some Sample.pp_root).
  rewrite bool_decide_eq_true_2 by (cbn; lia).
  rewrite bind_run. unfold discard, processDefinitions.
  mderef (eq_refl : store (pp_state g) !! 0%nat = Some Sample.pp_root).
  cbn [Sample.pp_root Sample.with_Definitions Schema.Definitions processDefinitions_loop].
  rewrite bind_run.
  eval_closed (getGolangName "d" ∅).
  rewrite Hrec. reflexivity.
Qed.

Lemma pp_level_d (rec : resolver_fn) (g : string) :
  rec "Up" 3%nat ∅ (pp_state "*D") = None →
  processSchema_body rec "D" 1%nat ∅ (pp_state g) = None.
Proof.
  intros Hrec. unfold processSchema_body.
  mderef (eq_refl : store (pp_state g) !! 1%nat = Some (Schema.set_GeneratedType g Sample.pp_d)).
  rewrite bool_decide_eq_false_2 by (cbn; lia).
  mstep. mstep.
  change (mkState (gen (pp_state g)) (alter Schema.FixMissingTypeValue 1%nat (store (pp_state g))))
    with (pp_state g).
  mderef (eq_refl : store (pp_state g) !! 1%nat = Some (Schema.set_GeneratedType g Sample.pp_d)).
  change (Schema.MultiType (Schema.set_GeneratedType g Sample.pp_d)) with (["object"], false).
  cbn [length]. rewrite bool_decide_eq_true_2 by lia.
  cbn [processSchema_types]. unfold processSchema_switch.
  rewrite bool_decide_eq_true_2 by done.
  mstep. mstep. unfold processObject.
  mderef (eq_refl : store (pp_state g) !! 1%nat = Some (Schema.set_GeneratedType g Sample.pp_d)).
  mstep.
  change (mkState (gen (pp_state g))
            (alter (Schema.set_GeneratedType ("*" +:+ "D")) 1%nat (store (pp_state g))))
    with (pp_state "*D").
  change (Schema.Properties (Schema.set_GeneratedType g Sample.pp_d)) with [("up", 3%nat)].
  cbn [processObject_properties]. rewrite bind_run.
  eval_closed (getGolangName "up" ∅).
  rewrite bind_run. eval_getSchemaName.
  rewrite bind_run, Hrec. reflexivity.
Qed.

Lemma pp_level_up (rec : resolver_fn) :
  rec "Root" 0%nat ∅ (pp_state "*D") = None →
  processSchema_body rec "Up" 3%nat ∅ (pp_state "*D") = None.
Proof.
  intros Hrec. unfold processSchema_body.
  mderef (eq_refl : store (pp_state "*D") !! 3%nat = Some Sample.pp_up).
  rewrite bool_decide_eq_false_2 by (cbn; lia).
  mstep. mstep.
  change (mkState (gen (pp_state "*D"))
            (alter Schema.FixMissingTypeValue 3%nat (store (pp_state "*D"))))
    with (pp_state "*D").
  mderef (eq_refl : store (pp_state "*D") !! 3%nat = Some Sample.pp_up).
  change (Schema.MultiType Sample.pp_up) with (@nil string, false).
  cbn [length]. rewrite bool_decide_eq_false_2 by lia.
  rewrite bool_decide_eq_true_2 by done.
  unfold processReference.
  mderef (eq_refl : store (pp_state "*D") !! 3%nat = Some Sample.pp_up).
  mstep. rewrite bool_decide_eq_false_2 by done.
  change (GetSchemaByReference (resolver (gen (pp_state "*D"))) 3%nat) with (Some 0%nat).
  cbv beta iota.
  mderef (eq_refl : store (pp_state "*D") !! 0%nat = Some Sample.pp_root).
  rewrite bool_decide_eq_true_2 by done.
  rewrite bind_run. eval_getSchemaName.
  rewrite Hrec. reflexivity.
Qed.

Lemma parent_pointer_diverges (fuel : nat) (g : string) :
  processSchema fuel "Root" 0%nat ∅ (pp_state g) = None
  ∧ processSchema fuel "D" 1%nat ∅ (pp_state g) = None
  ∧ processSchema fuel "Up" 3%nat ∅ (pp_state "*D") = None.
Proof.
  revert g. induction fuel as [|fuel IH]; intros g; [done|].
  cbn [processSchema]. split; [|split].
  - apply pp_level_root, IH.
  - apply pp_level_d, (IH g).
  - apply pp_level_up, (IH "*D").
Qed.

(** C6. The root of the sample is an object whose property [child] refers,
    through the definition [d], back to the root. Its resolution never
    returns, whatever the fuel: the definitions of the root are resolved
    before the memo of the root is set, and they lead back to the root. *)
Theorem parent_pointer_never_returns (fuel : nat) :
  CreateTypes fuel ∅ (Sample.start Sample.parent_pointer_refs Sample.parent_pointer) = None.
Proof.
  change (Sample.start Sample.parent_pointer_refs Sample.parent_pointer) with (pp_state "").
  unfold CreateTypes. mstep.
  change (Init (resolver (gen (pp_state "")))) with (@None string).
  change (schemas (gen (pp_state ""))) with [0%nat].
  cbn [CreateTypes_loop]. rewrite bind_run. eval_getSchemaName.
  rewrite bind_run, (proj1 (parent_pointer_diverges fuel "")). reflexivity.
Qed.
End Runs.

(** ** Relations that every run respects

    A relation between the state before and after, closed under the five
    writes of the generator (the memo [GeneratedType], the defaulted
    [TypeValue], [anonCount], a record inserted under its name, an alias
    inserted under its name), is kept by every run. [good] is a property
    of the record under construction that holds of the empty record and
    that the updates of [processObject] keep. The conventions are those of
    the run: every call passes them on unchanged. *)

Section Respects.
Context `{!Unicode}.
Variable conventions : gmap string string.
Variable R : State → State → Prop.
Context `{!Reflexive R, !Transitive R}.
Variable good : Struct.t → Prop.

Hypothesis R_memo : ∀ name p st, R st (memoised p name st).
Hypothesis R_fix : ∀ p st,
  R st (mkState (gen st) (alter Schema.FixMissingTypeValue p (store st))).
Hypothesis R_anon : ∀ st,
  R st (mkState (set_anonCount (wrap64 (anonCount (gen st) + 1)) (gen st)) (store st)).
Hypothesis R_struct : ∀ s st, good s →
  R st (mkState (set_Structs (<[Struct.Name s := s]> (Structs (gen st))) (gen st)) (store st)).
Hypothesis R_alias : ∀ a st,
  R st (mkState (set_Aliases (<[Field.Name a := a]> (Aliases (gen st))) (gen st)) (store st)).
Hypothesis good_empty : ∀ id name desc, good (Struct.mk id name desc ∅ false "" []).
Hypothesis good_imports : ∀ v s, good s → good (set_importTypes v s).
Hypothesis good_property : ∀ propKey fieldType req desc fmt s, good s →
  good (add_Field (Field.mk (getGolangName propKey conventions) propKey fieldType req desc fmt)
          (if req then set_GenerateCode true s else s)).
Hypothesis good_map : ∀ subTyp s, good s →
  good (set_AdditionalType subTyp (set_GenerateCode true
          (add_Field (Field.mk "AdditionalProperties" "-" ("map[string]" +:+ subTyp)
                        false "" "") s))).
Hypothesis good_closed : ∀ s, good s →
  good (set_AdditionalType "false" (set_GenerateCode true s)).

Lemma respects_ret {A} (Q : A → Prop) (a : A) : Q a → respects R Q (mret a).
Proof. intros Ha st r st' [= <- <-]. split; [reflexivity|]. by intros ? [= <-]. Qed.

Lemma respects_fail {A} (Q : A → Prop) (e : string) : respects R Q (fail e).
Proof. intros st r st' [= <- <-]. split; [reflexivity|done]. Qed.

Lemma respects_checked (r : string * option string) : respects R any (checked r).
Proof. destruct r as [? [?|]]; [apply respects_fail|by apply respects_ret]. Qed.

Lemma respects_deref (p : nat) : respects R any (deref p).
Proof.
  intros st r st'. unfold deref. destruct (store st !! p); [|done].
  intros [= <- <-]. split; [reflexivity|done].
Qed.

Lemma respects_get_gen : respects R any get_gen.
Proof. intros st r st' [= <- <-]. split; [reflexivity|done]. Qed.

Lemma respects_bind {A B} (P : A → Prop) (Q : B → Prop) (m : M A) (k : A → M B) :
  respects R P m → (∀ a, P a → respects R Q (k a)) → respects R Q (m ≫= k).
Proof.
  intros Hm Hk st r st'. rewrite bind_run.
  destruct (m st) as [[[a|e] st1]|] eqn:E; [| |done].
  - intros Hka. destruct (Hm _ _ _ E) as [HR HP].
    destruct (Hk a (HP a eq_refl) _ _ _ Hka) as [HR' HQ].
    split; [by etrans|done].
  - intros [= <- <-]. split; [eapply Hm, E|done].
Qed.

Lemma respects_weaken {A} (P Q : A → Prop) (m : M A) :
  respects R P m → (∀ a, P a → Q a) → respects R Q m.
Proof. intros Hm HPQ st r st' E. destruct (Hm _ _ _ E). split; [done|]. eauto. Qed.

Lemma respects_any {A} (P : A → Prop) (m : M A) : respects R P m → respects R any m.
Proof. intros Hm. by eapply respects_weaken. Qed.

Lemma respects_discard {A} (m : M A) : respects R any m → respects R any (discard m).
Proof.
  intros Hm st r st'. unfold discard.
  destruct (m st) as [[a st1]|] eqn:E; [|done].
  intros [= <- <-]. split; [eapply Hm, E|done].
Qed.

Lemma respects_getSchemaName (keyName : string) (p : nat) :
  respects R any (getSchemaName keyName p conventions).
Proof.
  unfold getSchemaName.
  apply (respects_bind any); [apply respects_deref|intros schema _].
  repeat case_match; try (by apply respects_ret).
  apply (respects_bind any); [apply respects_deref|intros parent _].
  case_match; [by apply respects_ret|].
  apply (respects_bind any).
  { intros st r st' [= <- <-]. split; [apply R_anon|done]. }
  intros _ _. apply (respects_bind any); [apply respects_get_gen|].
  intros g _. by apply respects_ret.
Qed.

Section Level.
Variable rec : resolver_fn.
Hypothesis rec_respects : ∀ name p, respects R any (rec name p conventions).

Lemma respects_processDefinitions (p : nat) :
  respects R any (processDefinitions rec p conventions).
Proof.
  unfold processDefinitions.
  apply (respects_bind any); [apply respects_deref|intros schema _].
  induction (Schema.Definitions schema) as [|[key sub] defs IH];
    cbn [processDefinitions_loop]; [by apply respects_ret|].
  apply (respects_bind any); [apply rec_respects|intros _ _; exact IH].
Qed.

Lemma respects_processReference (p : nat) :
  respects R any (processReference rec p conventions).
Proof.
  unfold processReference.
  apply (respects_bind any); [apply respects_deref|intros schema _].
  apply (respects_bind any); [apply respects_get_gen|intros g _].
  case_match; [apply respects_fail|].
  case_match; [|apply respects_fail].
  apply (respects_bind any); [apply respects_deref|intros refSchema _].
  case_match; [|by apply respects_ret].
  apply (respects_bind any); [apply respects_getSchemaName|intros refName _].
  apply rec_respects.
Qed.

Lemma respects_processArray (name : string) (p : nat) :
  respects R any (processArray rec name p conventions).
Proof.
  unfold processArray.
  apply (respects_bind any); [apply respects_deref|intros schema _].
  case_match; [|by apply respects_ret].
  apply (respects_bind any); [apply respects_getSchemaName|intros subName _].
  apply (respects_bind any); [apply rec_respects|intros subTyp _].
  apply (respects_bind any); [apply respects_checked|intros finalType _].
  apply (respects_bind any); [|intros _ _; by apply respects_ret].
  case_match; [|by apply respects_ret].
  intros st r st' [= <- <-]. split; [apply R_alias|done].
Qed.

Lemma respects_processObject_properties (schema : Schema.t)
    (customTypes : gmap string stringFormatType)
    (props : list (string * nat)) (strct : Struct.t) :
  good strct →
  respects R good (processObject_properties rec schema conventions customTypes props strct).
Proof.
  revert strct. induction props as [|[propKey prop] props IH]; intros strct Hgood;
    cbn [processObject_properties]; [by apply respects_ret|].
  apply (respects_bind any); [apply respects_getSchemaName|intros subSchemaName _].
  apply (respects_bind any); [apply rec_respects|intros fieldType _].
  apply (respects_bind any); [apply respects_deref|intros propSchema _].
  apply IH. cbn [Field.Required Field.Type_ Field.Format].
  apply good_property.
  repeat case_match; auto.
Qed.

Lemma respects_processObject_typed (schema : Schema.t) (strct : Struct.t) :
  good strct →
  respects R (λ r, match r with inl _ => True | inr s => good s end)
    (processObject_typed rec schema conventions strct).
Proof.
  intros Hgood. unfold processObject_typed.
  case_match; [|by apply respects_ret].
  apply (respects_bind any); [apply respects_deref|intros apSchema _].
  case_match; [by apply respects_ret|].
  apply (respects_bind any); [apply respects_getSchemaName|intros apName _].
  apply (respects_bind any); [apply rec_respects|intros subTyp _].
  case_match; apply respects_ret; auto.
Qed.

Lemma respects_processObject_bool (schema : Schema.t) (strct : Struct.t) :
  good strct → respects R good (processObject_bool schema strct).
Proof.
  intros Hgood. unfold processObject_bool.
  case_match; [|by apply respects_ret].
  apply (respects_bind any); [apply respects_deref|intros apSchema _].
  repeat case_match; apply respects_ret; auto.
Qed.

Lemma respects_processObject (name : string) (p : nat)
    (customTypes : gmap string stringFormatType) :
  respects R any (processObject rec name p conventions customTypes).
Proof.
  unfold processObject.
  apply (respects_bind any); [apply respects_deref|intros schema _].
  apply (respects_bind any).
  { intros st r st' [= <- <-]. split; [apply R_memo|done]. }
  intros _ _.
  apply (respects_bind good);
    [apply respects_processObject_properties, good_empty|intros strct1 Hg1].
  eapply respects_bind; [by apply respects_processObject_typed|].
  intros [mapTyp|strct2] Hg2; [by apply respects_ret|].
  apply (respects_bind good); [by apply respects_processObject_bool|intros strct3 Hg3].
  apply (respects_bind any); [|intros _ _; apply respects_checked].
  intros st r st' [= <- <-]. split; [by apply R_struct|done].
Qed.

Lemma respects_processSchema_switch (name : string) (p : nat) (schemaType : string) :
  respects R any (processSchema_switch rec name p conventions schemaType).
Proof.
  unfold processSchema_switch.
  destruct (bool_decide (schemaType = "object")).
  - apply (respects_bind any); [apply respects_get_gen|intros g _].
    apply respects_processObject.
  - destruct (bool_decide (schemaType = "array"));
      [apply respects_processArray|apply respects_checked].
Qed.

Lemma respects_processSchema_types (name : string) (p : nat)
    (isMultiType : bool) (types : list string) :
  respects R any (processSchema_types rec name p conventions isMultiType types).
Proof.
  induction types as [|t types IH]; cbn [processSchema_types];
    [by apply respects_ret|].
  apply (respects_bind any); [apply respects_processSchema_switch|intros rv _].
  destruct (negb isMultiType); [by apply respects_ret|exact IH].
Qed.

Lemma respects_processSchema_body (name : string) (p : nat) :
  respects R any (processSchema_body rec name p conventions).
Proof.
  unfold processSchema_body.
  apply (respects_bind any); [apply respects_deref|intros schema _].
  apply (respects_bind any).
  { case_match; [apply respects_discard, respects_processDefinitions|by apply respects_ret]. }
  intros _ _. apply (respects_bind any).
  { intros st r st' [= <- <-]. split; [apply R_fix|done]. }
  intros _ _.
  apply (respects_bind any); [apply respects_deref|intros schema1 _].
  destruct (Schema.MultiType schema1) as [types isMultiType].
  destruct (bool_decide (0 < length types)%nat); [apply respects_processSchema_types|].
  case_match; [apply respects_processReference|by apply respects_ret].
Qed.

End Level.

Lemma respects_processSchema (fuel : nat) (name : string) (p : nat) :
  respects R any (processSchema fuel name p conventions).
Proof.
  revert name p. induction fuel as [|fuel IH]; intros name p.
  - intros st r st'. discriminate.
  - cbn [processSchema]. by apply respects_processSchema_body.
Qed.

Lemma respects_CreateTypes (fuel : nat) :
  respects R any (CreateTypes fuel conventions).
Proof.
  unfold CreateTypes.
  apply (respects_bind any); [apply respects_get_gen|intros g _].
  destruct (Init (resolver g)); [apply respects_fail|].
  induction (schemas g) as [|schema roots IH]; cbn [CreateTypes_loop];
    [by apply respects_ret|].
  apply (respects_bind any); [apply respects_getSchemaName|intros name _].
  apply (respects_bind any); [apply respects_processSchema|intros rootType _].
  apply (respects_bind any); [|intros _ _; exact IH].
  case_match; [|by apply respects_ret].
  apply (respects_bind any); [apply respects_deref|intros sch _].
  intros st r st' [= <- <-]. split; [apply R_alias|done].
Qed.

End Respects.

(** ** Invariants of a whole run *)

(** A property of records that the updates of [processObject] keep holds
    of every registered record after a run, if it does before. *)
Section Registered.
Context `{!Unicode}.
Variable conventions : gmap string string.
Variable good : Struct.t → Prop.
Hypothesis good_empty : ∀ id name desc, good (Struct.mk id name desc ∅ false "" []).
Hypothesis good_imports : ∀ v s, good s → good (set_importTypes v s).
Hypothesis good_property : ∀ propKey fieldType req desc fmt s, good s →
  good (add_Field (Field.mk (getGolangName propKey conventions) propKey fieldType req desc fmt)
          (if req then set_GenerateCode true s else s)).
Hypothesis good_map : ∀ subTyp s, good s →
  good (set_AdditionalType subTyp (set_GenerateCode true
          (add_Field (Field.mk "AdditionalProperties" "-" ("map[string]" +:+ subTyp)
                        false "" "") s))).
Hypothesis good_closed : ∀ s, good s →
  good (set_AdditionalType "false" (set_GenerateCode true s)).

Lemma registered_records (fuel : nat) (st st' : State) (res : result unit) :
  (∀ k s, Structs (gen st) !! k = Some s → good s) →
  CreateTypes fuel conventions st = Some (res, st') →
  ∀ k s, Structs (gen st') !! k = Some s → good s.
Proof.
  intros Hst Hrun.
  pose (R := λ st st' : State,
          (∀ k s, Structs (gen st) !! k = Some s → good s) →
          ∀ k s, Structs (gen st') !! k = Some s → good s).
  assert (Hrefl : Reflexive R) by (intros x Hx; exact Hx).
  assert (Htrans : Transitive R) by (intros x y z H1 H2 Hx; exact (H2 (H1 Hx))).
  assert (Hres : respects R any (CreateTypes fuel conventions)).
  2: { by apply (Hres _ _ _ Hrun). }
  apply respects_CreateTypes with (good := good); try done.
  intros s0 st0 Hs0 Hall k s. cbn. rewrite lookup_insert.
  case_decide; [by intros [= <-]|apply Hall].
Qed.

End Registered.

Section RunInvariants.
Context `{!Unicode}.

Lemma fields_named_add (f : Field.t) (s : Struct.t) :
  fields_named s → fields_named (add_Field f s).
Proof.
  intros Hs k f'. unfold add_Field, set_Fields. cbn.
  rewrite lookup_insert. case_decide as E; [|apply Hs].
  intros [= <-]. exact E.
Qed.

(** The keys of [Structs], [Aliases] and of the field maps of the
    registered records are the names of the values they hold: every run of
    [CreateTypes] from a new generator ends in such a state. *)
Theorem registry_keys_are_names (fuel : nat) (conventions : gmap string string)
    (r : RefResolver) (roots : list nat) (nodes : list Schema.t)
    (res : result unit) (st' : State) :
  CreateTypes fuel conventions (mkState (New r roots) nodes) = Some (res, st') →
  registries_named st'.
Proof.
  intros Hrun.
  assert (Hrefl : Reflexive (λ st st', registries_named st → registries_named st'))
    by (intros ?; auto).
  assert (Htrans : Transitive (λ st st', registries_named st → registries_named st'))
    by (intros ??? H1 H2; auto).
  assert (Hres : respects (λ st st', registries_named st → registries_named st') any
                    (CreateTypes fuel conventions)).
  2: { apply (Hres _ _ _ Hrun). split; intros k x; cbn; by rewrite lookup_empty. }
  apply respects_CreateTypes with (good := fields_named); try done.
  - intros s st Hs [HS HA]. split; [|exact HA]. cbn. intros k s'.
    rewrite lookup_insert. case_decide as E; [|apply HS].
    intros [= <-]. split; [exact E|exact Hs].
  - intros a st [HS HA]. split; [exact HS|]. cbn. intros k a'.
    rewrite lookup_insert. case_decide as E; [|apply HA].
    intros [= <-]. exact E.
  - intros propKey fieldType req desc fmt s Hs. apply fields_named_add. by destruct req.
  - intros subTyp s Hs. by apply (fields_named_add _ s).
Qed.

(** No run of [CreateTypes] removes a key from [Structs] or [Aliases]: the
    registries only gain keys (the value under a key may be replaced). *)
Theorem registries_only_grow (fuel : nat) (conventions : gmap string string)
    (st st' : State) (res : result unit) :
  CreateTypes fuel conventions st = Some (res, st') →
  registries_grow st st'.
Proof.
  intros Hrun.
  assert (Hrefl : Reflexive registries_grow) by (intros ?; split; reflexivity).
  assert (Htrans : Transitive registries_grow).
  { intros ??? [H1 H2] [H3 H4]. split; etrans; eassumption. }
  assert (Hres : respects registries_grow any (CreateTypes fuel conventions)).
  2: { by apply (Hres _ _ _ Hrun). }
  apply respects_CreateTypes with (good := λ _, True); try done.
  - intros s0 st0 _. split; cbn; [|reflexivity]. rewrite dom_insert. set_solver.
  - intros a st0. split; cbn; [reflexivity|]. rewrite dom_insert. set_solver.
Qed.

(** A run of [CreateTypes] leaves the schema graph as it is: the store
    keeps its length, every node keeps all its fields except [TypeValue]
    and [GeneratedType], its declared types once defaulted stay the same
    and a [GeneratedType] that is set stays set; the resolver is kept. *)
Theorem CreateTypes_keeps_the_schemas (fuel : nat) (conventions : gmap string string)
    (st st' : State) (res : result unit) :
  CreateTypes fuel conventions st = Some (res, st') →
  length (store st') = length (store st)
  ∧ resolver (gen st') = resolver (gen st)
  ∧ ∀ p s, store st !! p = Some s →
      ∃ s', store st' !! p = Some s'
        ∧ Schema.set_TypeValue [] (Schema.set_GeneratedType "" s') =
          Schema.set_TypeValue [] (Schema.set_GeneratedType "" s)
        ∧ Schema.TypeValue (Schema.FixMissingTypeValue s') =
          Schema.TypeValue (Schema.FixMissingTypeValue s)
        ∧ (Schema.GeneratedType s ≠ "" → Schema.GeneratedType s' ≠ "").
Proof.
  intros Hrun.
  assert (Hev : evolves st st').
  { revert Hrun. generalize st res st'. change (preserves (CreateTypes fuel conventions)).
    unfold CreateTypes. apply preserves_bind; [apply preserves_get_gen|intros g].
    destruct (Init (resolver g)); [apply preserves_fail|].
    induction (schemas g) as [|schema roots IH]; cbn [CreateTypes_loop];
      [apply preserves_ret|].
    apply preserves_bind; [apply preserves_getSchemaName|intros name].
    apply preserves_bind; [apply processSchema_preserves|intros rootType].
    apply preserves_bind; [|intros _; exact IH].
    case_match; [|apply preserves_ret].
    apply preserves_bind; [apply preserves_deref|intros sch].
    apply preserves_modify_gen. intros g0. split; reflexivity. }
  split; [symmetry; eapply Forall2_length, Hev|].
  split; [apply Hev|].
  intros p s Hp. destruct (evolves_lookup _ _ _ _ Hev Hp) as (s' & Hp' & Hle).
  exists s'. split; [exact Hp'|exact Hle].
Qed.

(** A record registered by a run that is not marked for code generation
    has no additional type and no required field; in other words a record
    with a required field or with additional properties is always marked. *)
Theorem unmarked_records_are_optional (fuel : nat) (conventions : gmap string string)
    (st st' : State) (res : result unit) :
  (∀ k s, Structs (gen st) !! k = Some s → code_flagged s) →
  CreateTypes fuel conventions st = Some (res, st') →
  ∀ k s, Structs (gen st') !! k = Some s → code_flagged s.
Proof.
  apply registered_records.
  - intros id name desc _. split; [done|]. intros k f. cbn. by rewrite lookup_empty.
  - intros v s Hs. exact Hs.
  - intros propKey fieldType req desc fmt s Hs. destruct req; [done|].
    intros Hc. destruct (Hs Hc) as [Ha Hf]. split; [exact Ha|].
    intros k f. cbn. rewrite lookup_insert. case_decide; [by intros [= <-]|apply Hf].
  - intros subTyp s Hs. done.
  - intros s Hs. done.
Qed.

(** Every field of a record registered by a run is named by the
    identifier made from its JSON name under the conventions of the run,
    except the field [AdditionalProperties], whose JSON name is [-], which
    is not required and whose type is a map. *)
Theorem fields_are_properties_or_catch_all (fuel : nat)
    (conventions : gmap string string) (st st' : State) (res : result unit) :
  (∀ k s, Structs (gen st) !! k = Some s → fields_accounted conventions s) →
  CreateTypes fuel conventions st = Some (res, st') →
  ∀ k s, Structs (gen st') !! k = Some s → fields_accounted conventions s.
Proof.
  apply registered_records.
  - intros id name desc k f. cbn. by rewrite lookup_empty.
  - intros v s Hs. exact Hs.
  - intros propKey fieldType req desc fmt s Hs k f. cbn. rewrite lookup_insert.
    case_decide.
    + intros [= <-]. by left.
    + intros Hk. apply (Hs k). by destruct req.
  - intros subTyp s Hs k f. cbn. rewrite lookup_insert. case_decide.
    + intros [= <-]. right. unfold catch_all_field. cbn. eauto.
    + apply Hs.
  - intros s Hs. exact Hs.
Qed.

(** The memo of a node is only ever written as a pointer type: after a
    run every memo is empty or starts with [*], if that is so before. *)
Theorem memo_is_a_pointer (fuel : nat) (conventions : gmap string string)
    (st st' : State) (res : result unit) :
  memo_pointer st →
  CreateTypes fuel conventions st = Some (res, st') →
  memo_pointer st'.
Proof.
  intros Hst Hrun.
  pose (R := λ st st' : State, memo_pointer st → memo_pointer st').
  assert (Hrefl : Reflexive R) by (intros x Hx; exact Hx).
  assert (Htrans : Transitive R) by (intros x y z H1 H2 Hx; exact (H2 (H1 Hx))).
  assert (Hres : respects R any (CreateTypes fuel conventions)).
  2: { by apply (Hres _ _ _ Hrun). }
  apply respects_CreateTypes with (good := λ _, True); try done.
  - intros name p st0 Hm q s. cbn. rewrite list_lookup_alter.
    case_decide; [|apply Hm].
    intros Hq. apply fmap_Some in Hq as (s0 & Hs0 & ->).
    right. by exists name.
  - intros p st0 Hm q s. cbn. rewrite list_lookup_alter.
    case_decide; [|apply Hm].
    intros Hq. apply fmap_Some in Hq as (s0 & Hs0 & ->).
    replace (Schema.GeneratedType (Schema.FixMissingTypeValue s0))
      with (Schema.GeneratedType s0); [by eapply Hm|].
    unfold Schema.FixMissingTypeValue. by repeat case_match.
  - intros s0 st0 _ Hm. exact Hm.
Qed.

(** A run changes nothing of what [New] sets up once: the list of root
    schemas, the table of custom string types and the (unused) table of
    references. *)
Theorem CreateTypes_keeps_the_configuration (fuel : nat)
    (conventions : gmap string string) (st st' : State) (res : result unit) :
  CreateTypes fuel conventions st = Some (res, st') →
  configuration_kept st st'.
Proof.
  intros Hrun.
  assert (Hrefl : Reflexive configuration_kept) by (intros ?; by repeat split).
  assert (Htrans : Transitive configuration_kept).
  { intros ??? (H1 & H2 & H3) (H4 & H5 & H6). repeat split; etrans; eassumption. }
  assert (Hres : respects configuration_kept any (CreateTypes fuel conventions)).
  2: { by apply (Hres _ _ _ Hrun). }
  apply respects_CreateTypes with (good := λ _, True); try done.
Qed.

End RunInvariants.

(** ** Naming engine: fragments *)

Lemma EncodeRune_nonempty (r : Z) : EncodeRune r ≠ "".
Proof. unfold EncodeRune. repeat case_match; discriminate. Qed.

Lemma app_cons (a : ascii) (s t : string) : String a s +:+ t = String a (s +:+ t).
Proof. reflexivity. Qed.

Lemma append_nonempty_r (s t : string) : t ≠ "" → s +:+ t ≠ "".
Proof. destruct s; [done|]. rewrite app_cons. discriminate. Qed.

Lemma app_empty_l (s : string) : "" +:+ s = s.
Proof. reflexivity. Qed.

Lemma app_empty_r (s : string) : s +:+ "" = s.
Proof. induction s as [|a s IH]; [done|]. by rewrite app_cons, IH. Qed.

Lemma app_assoc_s (s t u : string) : (s +:+ t) +:+ u = s +:+ (t +:+ u).
Proof. induction s as [|a s IH]; [done|]. by rewrite !app_cons, IH. Qed.

Lemma joinAll_app (l1 l2 : list string) : joinAll (l1 ++ l2) = joinAll l1 +:+ joinAll l2.
Proof.
  induction l1 as [|x l1 IH]; [done|]. cbn [joinAll app]. by rewrite IH, app_assoc_s.
Qed.

Section SplitProperties.
Variable shouldSplit : Z → bool.

Lemma endsInFragment_cons (c c' : Z) (cs : list Z) (buf buf' : string) :
  endsInFragment shouldSplit (c :: c' :: cs) buf = endsInFragment shouldSplit (c' :: cs) buf'.
Proof.
  unfold endsInFragment. change (last (c :: c' :: cs)) with (last (c' :: cs)).
  destruct (last (c' :: cs)) eqn:E; [done|]. by apply last_None in E.
Qed.

Lemma splitOnAll_loop_length (cs : list Z) (buf : string) (rv : list string) :
  length (splitOnAll_loop shouldSplit cs buf rv) =
  (length rv + length (filter (λ c, shouldSplit c = true) cs)
   + (if endsInFragment shouldSplit cs buf then 1 else 0))%nat.
Proof.
  revert buf rv. induction cs as [|c cs IH]; intros buf rv.
  - cbn. unfold endsInFragment. cbn.
    destruct buf as [|a buf]; cbn.
    + rewrite bool_decide_eq_false_2 by (cbn; lia).
      rewrite bool_decide_eq_false_2 by (intros E; by apply E). lia.
    + rewrite bool_decide_eq_true_2 by (cbn; lia).
      rewrite bool_decide_eq_true_2 by done. rewrite length_app. cbn. lia.
  - cbn [splitOnAll_loop]. rewrite filter_cons.
    destruct (shouldSplit c) eqn:Hc.
    + rewrite decide_True by done. rewrite IH, length_app. cbn [length].
      assert (E : endsInFragment shouldSplit (c :: cs) buf =
                  endsInFragment shouldSplit cs "").
      { destruct cs as [|c' cs]; [|apply endsInFragment_cons]. unfold endsInFragment. cbn.
        rewrite Hc. rewrite bool_decide_eq_false_2; [done|]. intros E; by apply E. }
      rewrite E. lia.
    + rewrite decide_False by done. rewrite IH.
      assert (E : endsInFragment shouldSplit (c :: cs) buf =
                  endsInFragment shouldSplit cs (buf +:+ EncodeRune c)).
      { destruct cs as [|c' cs]; [|apply endsInFragment_cons]. unfold endsInFragment. cbn.
        rewrite Hc. rewrite bool_decide_eq_true_2; [done|].
        apply append_nonempty_r, EncodeRune_nonempty. }
      rewrite E. lia.
Qed.

Lemma splitOnAll_loop_join (cs : list Z) (buf : string) (rv : list string) :
  joinAll (splitOnAll_loop shouldSplit cs buf rv) =
  joinAll rv +:+ buf +:+
  joinAll (EncodeRune <$> filter (λ c, shouldSplit c = false) cs).
Proof.
  revert buf rv. induction cs as [|c cs IH]; intros buf rv.
  - cbn [splitOnAll_loop filter list_filter fmap list_fmap joinAll]. destruct buf as [|a buf].
    + rewrite bool_decide_eq_false_2 by (cbn; lia). by rewrite !app_empty_r.
    + rewrite bool_decide_eq_true_2 by (cbn; lia).
      rewrite joinAll_app. cbn [joinAll]. by rewrite !app_empty_r.
  - cbn [splitOnAll_loop]. rewrite filter_cons.
    destruct (shouldSplit c) eqn:Hc.
    + rewrite decide_False by done. rewrite IH, joinAll_app. cbn [joinAll].
      by rewrite app_empty_r, app_empty_l, app_assoc_s.
    + rewrite decide_True by done. rewrite IH. cbn [fmap list_fmap joinAll].
      by rewrite !app_assoc_s.
Qed.

(** [splitOnAll] yields one fragment for every delimiter, empty or not, and
    one more when the string ends in a character that is no delimiter. *)
Theorem splitOnAll_fragment_count (s : string) :
  length (splitOnAll s shouldSplit) =
  (length (filter (λ c, shouldSplit c = true) (runes s))
   + (if endsInFragment shouldSplit (runes s) "" then 1 else 0))%nat.
Proof. unfold splitOnAll. by rewrite splitOnAll_loop_length. Qed.

(** The fragments of [splitOnAll], put together, are the encodings of the
    characters of the string that are no delimiters, in order: nothing but
    the delimiters is lost and nothing is added. *)
Theorem splitOnAll_keeps_the_rest (s : string) :
  joinAll (splitOnAll s shouldSplit) =
  joinAll (EncodeRune <$> filter (λ c, shouldSplit c = false) (runes s)).
Proof. unfold splitOnAll. by rewrite splitOnAll_loop_join. Qed.

End SplitProperties.

(** ** Naming engine: identifiers *)

Lemma byteZ_range (a : ascii) : 0 ≤ byteZ a < 256.
Proof.
  unfold byteZ. pose proof (N_ascii_bounded a). lia.
Qed.

Lemma byte_of_byteZ (a : ascii) : byte_of (byteZ a) = a.
Proof. unfold byte_of, byteZ. rewrite N2Z.id. apply ascii_N_embedding. Qed.

Lemma byteZ_byte_of (z : Z) : 0 ≤ z < 256 → byteZ (byte_of z) = z.
Proof.
  intros Hz. unfold byte_of, byteZ. rewrite N_ascii_embedding by lia. lia.
Qed.

Lemma EncodeRune_ascii (a : ascii) : byteZ a < 0x80 → EncodeRune (byteZ a) = String a "".
Proof.
  intros Ha. pose proof (byteZ_range a). unfold EncodeRune, inRange.
  replace (0 <=? byteZ a) with true by (symmetry; apply Z.leb_le; lia).
  replace (byteZ a <=? 0x7F) with true by (symmetry; apply Z.leb_le; lia).
  cbn [andb]. unfold str1. by rewrite byte_of_byteZ.
Qed.

Lemma runes_cons_ascii (a : ascii) (t : string) :
  byteZ a < 0x80 → runes (String a t) = byteZ a :: runes t.
Proof.
  intros Ha. unfold runes. cbn [String.length rangeRunes].
  unfold DecodeRuneInString.
  replace (byteZ a <? 0x80) with true by (symmetry; apply Z.ltb_lt; lia).
  reflexivity.
Qed.

Lemma allBytes_app (P : ascii → bool) (s t : string) :
  allBytes P (s +:+ t) = allBytes P s && allBytes P t.
Proof.
  induction s as [|a s IH]; [done|]. rewrite app_cons. cbn [allBytes].
  by rewrite IH, andb_assoc.
Qed.

Lemma startsWithDigit_app (s t : string) :
  startsWithDigit s = true → startsWithDigit (s +:+ t) = true.
Proof. by destruct s. Qed.

Lemma splitOnAll_loop_rv (shouldSplit : Z → bool) (cs : list Z) (buf : string)
    (rv1 rv2 : list string) :
  splitOnAll_loop shouldSplit cs buf (rv1 ++ rv2) =
  (rv1 ++ splitOnAll_loop shouldSplit cs buf rv2)%list.
Proof.
  revert buf rv2. induction cs as [|c cs IH]; intros buf rv2; cbn [splitOnAll_loop].
  - case_bool_decide; [by rewrite app_assoc|done].
  - destruct (shouldSplit c); [|apply IH]. by rewrite <- app_assoc, IH.
Qed.

Section IdentifierProperties.
Context `{!Unicode}.

Lemma ascii_rune_delimiter (a : ascii) :
  byteZ a < 0x80 → isNotAGoNameCharacter (byteZ a) = negb (asciiLetterOrDigit a).
Proof.
  intros Ha. unfold isNotAGoNameCharacter, IsLetter, IsDigit, asciiLetterOrDigit.
  replace (byteZ a <? 0x80) with true by (symmetry; apply Z.ltb_lt; lia).
  by destruct (_ || _ || _).
Qed.

Lemma getGolangName_loop_prefix (conventions : gmap string string) (i : nat)
    (vs : list string) (buf : string) :
  ∃ r, getGolangName_loop conventions i vs buf = buf +:+ r.
Proof.
  revert i buf. induction vs as [|v vs IH]; intros i buf; cbn [getGolangName_loop].
  - exists "". by rewrite app_empty_r.
  - destruct (IH (S i) ((if bool_decide (i = 0%nat) && startsWithDigit v
                         then buf +:+ "_" else buf) +:+
                        applyConventions (capitaliseFirstLetter v) conventions))
      as [r ->].
    destruct (_ && _); eexists; rewrite ?app_assoc_s; reflexivity.
Qed.

Lemma first_fragment_digit (cs : list Z) (buf : string) :
  startsWithDigit buf = true →
  ∃ v vs, splitOnAll_loop isNotAGoNameCharacter cs buf [] = v :: vs
          ∧ startsWithDigit v = true.
Proof.
  revert buf. induction cs as [|c cs IH]; intros buf Hbuf; cbn [splitOnAll_loop].
  - destruct buf as [|a buf]; [done|].
    rewrite bool_decide_eq_true_2 by (cbn; lia). eauto.
  - destruct (isNotAGoNameCharacter c).
    + rewrite (splitOnAll_loop_rv _ cs "" [buf] []). cbn. eauto.
    + apply IH. by apply startsWithDigit_app.
Qed.

(** A name that starts with an ASCII digit is sanitized to an identifier
    that starts with an underscore, whatever the conventions. *)
Theorem getGolangName_digit_prefix (a : ascii) (t : string)
    (conventions : gmap string string) :
  inRange 48 57 (byteZ a) = true →
  ∃ r, getGolangName (String a t) conventions = String "_" r.
Proof.
  intros Ha.
  assert (Hlt : byteZ a < 0x80).
  { unfold inRange in Ha. apply andb_prop in Ha as [_ Ha]. apply Z.leb_le in Ha. lia. }
  unfold getGolangName, splitOnAll. rewrite runes_cons_ascii by done.
  cbn [splitOnAll_loop]. rewrite ascii_rune_delimiter by done.
  unfold asciiLetterOrDigit. rewrite Ha, !orb_true_r. cbn [negb].
  rewrite EncodeRune_ascii, app_empty_l by done.
  destruct (first_fragment_digit (runes t) (String a "")) as (v & vs & -> & Hv); [exact Ha|].
  cbn [getGolangName_loop]. rewrite bool_decide_eq_true_2 by done. rewrite Hv. cbn [andb].
  rewrite app_empty_l.
  destruct (getGolangName_loop_prefix conventions 1 vs
              ("_" +:+ applyConventions (capitaliseFirstLetter v) conventions)) as [r ->].
  eexists. rewrite app_assoc_s. reflexivity.
Qed.

Lemma splitOnAll_loop_all_delimiters (cs : list Z) (rv : list string) :
  Forall (λ c, isNotAGoNameCharacter c = true) cs →
  Forall (λ v, v = "") rv →
  Forall (λ v, v = "") (splitOnAll_loop isNotAGoNameCharacter cs "" rv).
Proof.
  intros Hcs. revert rv. induction Hcs as [|c cs Hc Hcs IH]; intros rv Hrv;
    cbn [splitOnAll_loop].
  - by rewrite bool_decide_eq_false_2 by (cbn; lia).
  - rewrite Hc. apply IH. apply Forall_app. split; [done|]. by constructor.
Qed.

(** A name without any letter or digit (the empty name among them) is
    sanitized to the empty identifier, unless the conventions give the
    empty fragment a replacement. *)
Theorem getGolangName_only_delimiters (s : string) (conventions : gmap string string) :
  Forall (λ c, isNotAGoNameCharacter c = true) (runes s) →
  conventions !! "" = None →
  getGolangName s conventions = "".
Proof.
  intros Hs Hconv. unfold getGolangName, splitOnAll.
  pose proof (splitOnAll_loop_all_delimiters (runes s) [] Hs (Forall_nil_2 _)) as Hfr.
  revert Hfr. generalize (splitOnAll_loop isNotAGoNameCharacter (runes s) "" []) as vs.
  generalize 0%nat as i.
  intros i vs Hvs. revert i. induction Hvs as [|v vs -> Hvs IH]; intros i; [done|].
  cbn [getGolangName_loop startsWithDigit capitaliseFirstLetter].
  rewrite andb_false_r. unfold applyConventions. rewrite Hconv. apply IH.
Qed.

Lemma upperByte_letterOrDigit (a : ascii) :
  asciiLetterOrDigit a = true → asciiLetterOrDigit (upperByte a) = true.
Proof.
  intros Ha. unfold upperByte. destruct (inRange 97 122 (byteZ a)) eqn:E; [|done].
  unfold asciiLetterOrDigit, inRange in *. apply andb_prop in E as [E1 E2].
  apply Z.leb_le in E1, E2. rewrite byteZ_byte_of by lia.
  replace (65 <=? byteZ a - 32) with true by (symmetry; apply Z.leb_le; lia).
  replace (byteZ a - 32 <=? 90) with true by (symmetry; apply Z.leb_le; lia).
  done.
Qed.

Lemma letterOrDigit_ascii (a : ascii) : asciiLetterOrDigit a = true → byteZ a < 0x80.
Proof.
  unfold asciiLetterOrDigit, inRange. intros Ha.
  repeat (apply orb_prop in Ha as [Ha|Ha]);
    apply andb_prop in Ha as [_ Ha]; apply Z.leb_le in Ha; lia.
Qed.

Lemma capitaliseFirstLetter_bytes (v : string) :
  allBytes asciiLetterOrDigit v = true →
  allBytes asciiLetterOrDigit (capitaliseFirstLetter v) = true.
Proof.
  destruct v as [|a v]; [done|]. cbn [allBytes capitaliseFirstLetter].
  intros Hv. apply andb_prop in Hv as [Ha Hv].
  unfold ToUpper. cbn [allAscii mapBytes].
  replace (byteZ a <? 0x80) with true
    by (symmetry; apply Z.ltb_lt; by apply letterOrDigit_ascii).
  cbn [andb]. rewrite app_cons, app_empty_l. cbn [allBytes].
  by rewrite upperByte_letterOrDigit, Hv.
Qed.

Lemma letterOrDigit_goNameByte (v : string) :
  allBytes asciiLetterOrDigit v = true → allBytes goNameByte v = true.
Proof.
  induction v as [|a v IH]; [done|]. cbn [allBytes]. intros Hv.
  apply andb_prop in Hv as [Ha Hv]. unfold goNameByte at 1. by rewrite Ha, IH.
Qed.

Lemma splitOnAll_loop_ascii (s : string) (buf : string) (rv : list string) :
  allAscii s = true →
  allBytes asciiLetterOrDigit buf = true →
  Forall (λ v, allBytes asciiLetterOrDigit v = true) rv →
  Forall (λ v, allBytes asciiLetterOrDigit v = true)
    (splitOnAll_loop isNotAGoNameCharacter (runes s) buf rv).
Proof.
  revert buf rv. induction s as [|a s IH]; intros buf rv Hs Hbuf Hrv.
  - cbn. case_bool_decide; [|done]. apply Forall_app. split; [done|]. by constructor.
  - cbn [allAscii] in Hs. apply andb_prop in Hs as [Ha Hs]. apply Z.ltb_lt in Ha.
    rewrite runes_cons_ascii by done. cbn [splitOnAll_loop].
    rewrite ascii_rune_delimiter by done.
    destruct (asciiLetterOrDigit a) eqn:Hld; cbn [negb].
    + apply IH; [done| |done]. rewrite EncodeRune_ascii by done.
      rewrite allBytes_app, Hbuf. cbn. by rewrite Hld.
    + apply IH; [done|done|]. apply Forall_app. split; [done|]. by constructor.
Qed.

(** On an ASCII name, with conventions whose replacements are made of ASCII
    letters, digits and underscores, the identifier that [getGolangName]
    returns is made of ASCII letters, digits and underscores. *)
Theorem getGolangName_bytes (s : string) (conventions : gmap string string) :
  allAscii s = true →
  (∀ k v, conventions !! k = Some v → allBytes goNameByte v = true) →
  allBytes goNameByte (getGolangName s conventions) = true.
Proof.
  intros Hs Hconv. unfold getGolangName, splitOnAll.
  pose proof (splitOnAll_loop_ascii s "" [] Hs eq_refl (Forall_nil_2 _)) as Hfr.
  revert Hfr. generalize (splitOnAll_loop isNotAGoNameCharacter (runes s) "" []) as vs.
  assert (Hbuf : allBytes goNameByte "" = true) by done.
  revert Hbuf. generalize "" as buf. generalize 0%nat as i.
  intros i buf Hbuf vs Hvs. revert i buf Hbuf.
  induction Hvs as [|v vs Hv Hvs IH]; intros i buf Hbuf; [done|].
  cbn [getGolangName_loop]. apply IH.
  rewrite allBytes_app. apply andb_true_intro. split.
  - destruct (_ && _); [|done]. by rewrite allBytes_app, Hbuf.
  - unfold applyConventions.
    destruct (conventions !! capitaliseFirstLetter v) as [conv|] eqn:E; [by eapply Hconv|].
    by apply letterOrDigit_goNameByte, capitaliseFirstLetter_bytes.
Qed.

End IdentifierProperties.

(** ** Helpers of the resolution *)

(** [contains] is membership in the slice. *)
Theorem contains_elem_of (s : list string) (e : string) :
  contains s e = true ↔ e ∈ s.
Proof.
  induction s as [|a s IH]; cbn [contains].
  - split; [done|]. by intros ?%elem_of_nil.
  - rewrite elem_of_cons. case_bool_decide as E.
    + split; [intros _; by left|done].
    + rewrite IH. split; [by right|]. intros [->|?]; done.
Qed.

(** [getPrimitiveTypeName] succeeds exactly on the five scalar tags, and
    on [array] and [object] when the subtype is not empty. *)
Theorem getPrimitiveTypeName_succeeds (schemaType subType : string) (pointer : bool) :
  (getPrimitiveTypeName schemaType subType pointer).2 = None ↔
  schemaType = "boolean" ∨ schemaType = "integer" ∨ schemaType = "number"
  ∨ schemaType = "null" ∨ schemaType = "string"
  ∨ ((schemaType = "array" ∨ schemaType = "object") ∧ subType ≠ "").
Proof.
  unfold getPrimitiveTypeName.
  repeat case_bool_decide; subst; try destruct pointer; cbn [snd]; split;
    try done; intuition congruence.
Qed.

Lemma getPrimitiveTypeName_object (name : string) :
  getPrimitiveTypeName "object" name true =
  if bool_decide (name = "")
  then ("error_creating_object", Some "can't create an object of an empty subtype")
  else ("*" +:+ name, None).
Proof.
  unfold getPrimitiveTypeName.
  rewrite (bool_decide_eq_false_2 ("object" = "array")) by done.
  rewrite (bool_decide_eq_false_2 ("object" = "boolean")) by done.
  rewrite (bool_decide_eq_false_2 ("object" = "integer")) by done.
  rewrite (bool_decide_eq_false_2 ("object" = "number")) by done.
  rewrite (bool_decide_eq_false_2 ("object" = "null")) by done.
  rewrite (bool_decide_eq_true_2 ("object" = "object")) by done.
  reflexivity.
Qed.

Lemma getPrimitiveTypeName_array (subTyp : string) :
  subTyp ≠ "" →
  getPrimitiveTypeName "array" subTyp true =
  ("[]" +:+ Trim (if bool_decide (subTyp = "int") then "int64" else subTyp) "*", None).
Proof.
  intros Hne. unfold getPrimitiveTypeName.
  rewrite (bool_decide_eq_true_2 ("array" = "array")) by done.
  by rewrite (bool_decide_eq_false_2 (subTyp = "")) by done.
Qed.

Lemma getPrimitiveTypeName_scalar (t : string) :
  t ≠ "object" → t ≠ "array" →
  (∃ ty, ty ≠ "" ∧ getPrimitiveTypeName t "" false = (ty, None))
  ∨ getPrimitiveTypeName t "" false =
    ("undefined", Some ("failed to get a primitive type for schemaType " +:+ t +:+
                        " and subtype " +:+ "")).
Proof.
  intros Ho Ha. unfold getPrimitiveTypeName.
  rewrite (bool_decide_eq_false_2 _ Ha).
  repeat (case_bool_decide; [left; eexists; split; [|reflexivity]; done|]).
  rewrite (bool_decide_eq_false_2 _ Ho).
  repeat (case_bool_decide; [left; eexists; split; [|reflexivity]; done|]).
  by right.
Qed.

(** ** The name of a schema *)

Section SchemaName.
Context `{!Unicode}.

(** [getSchemaName] always returns a name; it leaves the state as it is,
    unless it makes up an anonymous name from the incremented counter. *)
Lemma getSchemaName_effect (keyName : string) (p : nat) (conventions : gmap string string)
    (st st' : State) (r : result string) :
  getSchemaName keyName p conventions st = Some (r, st') →
  ∃ name, r = Ok name
    ∧ (st' = st
       ∨ (st' = mkState (set_anonCount (wrap64 (anonCount (gen st) + 1)) (gen st)) (store st)
          ∧ name = "Anonymous" +:+ itoa (wrap64 (anonCount (gen st) + 1)))).
Proof.
  unfold getSchemaName. rewrite bind_run. unfold deref at 1.
  destruct (store st !! p) as [schema|]; [|done].
  case_bool_decide; [intros [= <- <-]; eauto|].
  case_bool_decide; [intros [= <- <-]; eauto|].
  destruct (Schema.Parent schema) as [pp|]; [|intros [= <- <-]; eauto].
  case_bool_decide; [intros [= <- <-]; eauto|].
  rewrite bind_run. unfold deref at 1.
  destruct (store st !! pp) as [parent|]; [|done].
  case_bool_decide; [intros [= <- <-]; eauto|].
  intros [= <- <-]. eauto.
Qed.





End SchemaName.

(** ** Results and errors of a resolution *)

Section Outcomes.
Context `{!Unicode}.
Variable conventions : gmap string string.

Lemma outcome_ret {A} (Pre : State → Prop) (Q : A → State → Prop) (a : A) :
  (∀ st, Pre st → Q a st) → outcome Pre Q (mret a).
Proof. intros HQ st r st' Hpre [= <- <-]. by apply HQ. Qed.

Lemma outcome_fail {A} (Pre : State → Prop) (Q : A → State → Prop) (e : string) :
  known_error e → outcome Pre Q (@fail A e).
Proof. intros He st r st' Hpre [= <- <-]. exact He. Qed.

Lemma outcome_bind {A B} (Pre : State → Prop) (P : A → State → Prop)
    (Q : B → State → Prop) (m : M A) (k : A → M B) :
  outcome Pre P m → (∀ a, outcome (P a) Q (k a)) → outcome Pre Q (m ≫= k).
Proof.
  intros Hm Hk st r st' Hpre. rewrite bind_run.
  destruct (m st) as [[[a|e] st1]|] eqn:E; [| |done].
  - apply Hk. apply (Hm _ _ _ Hpre E).
  - intros [= <- <-]. apply (Hm _ _ _ Hpre E).
Qed.

Lemma outcome_weaken {A} (Pre Pre' : State → Prop) (Q Q' : A → State → Prop) (m : M A) :
  outcome Pre Q m → (∀ st, Pre' st → Pre st) → (∀ a st, Q a st → Q' a st) →
  outcome Pre' Q' m.
Proof.
  intros Hm Hpre HQ st r st' Hst Hrun. specialize (Hm _ _ _ (Hpre _ Hst) Hrun).
  destruct r; [by apply HQ|done].
Qed.

Lemma outcome_pure {A} (φ : Prop) (Pre : State → Prop) (Q : A → State → Prop) (m : M A) :
  (∀ st, Pre st → φ) → (φ → outcome Pre Q m) → outcome Pre Q m.
Proof. intros Hφ Hm st r st' Hst. exact (Hm (Hφ st Hst) st r st' Hst). Qed.

Lemma outcome_any {A} (Pre : State → Prop) (Q : A → State → Prop) (m : M A) :
  outcome top Q m → outcome Pre Q m.
Proof. intros Hm. by eapply outcome_weaken. Qed.

Lemma outcome_deref (p : nat) :
  outcome top (λ s st, store st !! p = Some s) (deref p).
Proof.
  intros st r st' _. unfold deref. destruct (store st !! p) eqn:E; [|done].
  by intros [= <- <-].
Qed.

Lemma outcome_total {A} (m : M A) :
  (∀ st r st', m st = Some (r, st') → ∃ a, r = Ok a) → outcome top anyOK m.
Proof. intros Hm st r st' _ Hrun. by destruct (Hm _ _ _ Hrun) as [a ->]. Qed.

Lemma outcome_getSchemaName (keyName : string) (p : nat) :
  outcome top anyOK (getSchemaName keyName p conventions).
Proof.
  apply outcome_total. intros st r st' Hrun.
  apply getSchemaName_effect in Hrun as (name & -> & _). eauto.
Qed.

Lemma outcome_discard {A} (m : M A) : outcome top anyOK (discard m).
Proof.
  apply outcome_total. intros st r st'. unfold discard.
  destruct (m st) as [[? ?]|]; [|done]. intros [= <- <-]. eauto.
Qed.

Lemma outcome_modify_node (f : Schema.t → Schema.t) (p : nat) :
  outcome top anyOK (modify_node f p).
Proof. apply outcome_total. intros st r st' [= <- <-]. eauto. Qed.

Lemma outcome_modify_gen (f : Generator → Generator) :
  outcome top anyOK (modify_gen f).
Proof. apply outcome_total. intros st r st' [= <- <-]. eauto. Qed.

Lemma outcome_get_gen : outcome top anyOK get_gen.
Proof. apply outcome_total. intros st r st' [= <- <-]. eauto. Qed.

Section Level.
Variable rec : resolver_fn.
Hypothesis rec_outcome : ∀ name p, outcome top typeOK (rec name p conventions).

Lemma outcome_processReference (p : nat) (s : Schema.t) :
  Schema.Reference s ≠ "" →
  outcome (λ st, store st !! p = Some s) typeOK (processReference rec p conventions).
Proof.
  intros Href st r st' Hp. unfold processReference.
  rewrite (bind_run_ok _ _ _ _ _ (deref_run _ _ _ Hp)).
  rewrite bind_run. cbn [get_gen].
  rewrite (bool_decide_eq_false_2 _ Href).
  destruct (GetSchemaByReference (resolver (gen st)) p) as [t|].
  - revert st r st' Hp.
    change (outcome (λ st, store st !! p = Some s) typeOK
              (refSchema ← deref t;
               if bool_decide (Schema.GeneratedType refSchema = "")
               then refSchemaName ← getSchemaName "" t conventions;
                    rec refSchemaName t conventions
               else mret (Schema.GeneratedType refSchema))).
    apply outcome_any.
    eapply outcome_bind; [apply outcome_deref|intros refSchema].
    apply outcome_any. case_bool_decide as Hg.
    + eapply outcome_bind; [apply outcome_getSchemaName|intros refName].
      apply outcome_any, rec_outcome.
    + by apply outcome_ret.
  - intros [= <- <-]. right. right. eauto.
Qed.

Lemma outcome_processArray (name : string) (p : nat) :
  outcome top typeOK (processArray rec name p conventions).
Proof.
  unfold processArray.
  eapply outcome_bind; [apply outcome_deref|intros schema]. apply outcome_any.
  destruct (Schema.Items schema) as [items|]; [|by apply outcome_ret].
  eapply outcome_bind; [apply outcome_getSchemaName|intros subName]. apply outcome_any.
  eapply outcome_bind; [apply rec_outcome|intros subTyp].
  apply (outcome_pure (subTyp ≠ "")); [done|intros Hne]. apply outcome_any.
  rewrite getPrimitiveTypeName_array by done. cbn [checked].
  apply (outcome_bind _ typeOK).
  { apply outcome_ret. intros ? _. unfold typeOK. by rewrite app_cons. }
  intros finalType. apply (outcome_pure (finalType ≠ "")); [done|intros Hfinal].
  apply outcome_any. apply (outcome_bind _ anyOK).
  - case_bool_decide; [apply outcome_modify_gen|by apply outcome_ret].
  - intros ?. by apply outcome_ret.
Qed.

Lemma outcome_processObject_properties (schema : Schema.t)
    (customTypes : gmap string stringFormatType)
    (props : list (string * nat)) (strct : Struct.t) :
  outcome top anyOK
    (processObject_properties rec schema conventions customTypes props strct).
Proof.
  revert strct. induction props as [|[propKey prop] props IH]; intros strct;
    cbn [processObject_properties]; [by apply outcome_ret|].
  eapply outcome_bind; [apply outcome_getSchemaName|intros subSchemaName].
  apply outcome_any.
  eapply outcome_bind; [apply rec_outcome|intros fieldType]. apply outcome_any.
  eapply outcome_bind; [apply outcome_deref|intros propSchema]. apply outcome_any.
  apply IH.
Qed.

Lemma outcome_processObject_typed (schema : Schema.t) (strct : Struct.t) :
  outcome top (λ r _, match r with inl ty => ty ≠ "" | inr _ => True end)
    (processObject_typed rec schema conventions strct).
Proof.
  unfold processObject_typed.
  destruct (Schema.AdditionalProperties schema) as [ap|]; [|by apply outcome_ret].
  eapply outcome_bind; [apply outcome_deref|intros apSchema]. apply outcome_any.
  destruct (Schema.AdditionalPropertiesBool apSchema); [by apply outcome_ret|].
  eapply outcome_bind; [apply outcome_getSchemaName|intros apName]. apply outcome_any.
  eapply outcome_bind; [apply rec_outcome|intros subTyp]. apply outcome_any.
  destruct (_ && _); apply outcome_ret; [|done].
  intros ? _. by rewrite app_cons.
Qed.

Lemma outcome_processObject_bool (schema : Schema.t) (strct : Struct.t) :
  outcome top anyOK (processObject_bool schema strct).
Proof.
  unfold processObject_bool.
  destruct (Schema.AdditionalProperties schema) as [ap|]; [|by apply outcome_ret].
  eapply outcome_bind; [apply outcome_deref|intros apSchema]. apply outcome_any.
  destruct (Schema.AdditionalPropertiesBool apSchema) as [[]|]; by apply outcome_ret.
Qed.

Lemma outcome_processObject (name : string) (p : nat)
    (customTypes : gmap string stringFormatType) :
  outcome top typeOK (processObject rec name p conventions customTypes).
Proof.
  unfold processObject.
  eapply outcome_bind; [apply outcome_deref|intros schema]. apply outcome_any.
  eapply outcome_bind; [apply outcome_modify_node|intros ?]. apply outcome_any.
  eapply outcome_bind; [apply outcome_processObject_properties|intros strct1].
  apply outcome_any.
  eapply outcome_bind; [apply outcome_processObject_typed|intros [mapTyp|strct2]].
  { apply (outcome_pure (mapTyp ≠ "")); [done|intros Hne]. by apply outcome_ret. }
  apply outcome_any.
  eapply outcome_bind; [apply outcome_processObject_bool|intros strct3].
  apply outcome_any.
  eapply outcome_bind; [apply outcome_modify_gen|intros ?]. apply outcome_any.
  rewrite getPrimitiveTypeName_object. case_bool_decide; cbn [checked].
  - apply outcome_fail. by left.
  - apply outcome_ret. intros ? _. unfold typeOK. by rewrite app_cons.
Qed.

Lemma outcome_processSchema_switch (name : string) (p : nat) (schemaType : string) :
  outcome top typeOK (processSchema_switch rec name p conventions schemaType).
Proof.
  unfold processSchema_switch. case_bool_decide as Ho.
  { eapply outcome_bind; [apply outcome_get_gen|intros g]. apply outcome_any.
    apply outcome_processObject. }
  case_bool_decide as Ha; [apply outcome_processArray|].
  destruct (getPrimitiveTypeName_scalar schemaType Ho Ha) as [(ty & Hty & ->)| ->];
    cbn [checked].
  - by apply outcome_ret.
  - apply outcome_fail. right. left. by exists schemaType.
Qed.

Lemma outcome_processSchema_types (name : string) (p : nat)
    (isMultiType : bool) (types : list string) :
  outcome top typeOK (processSchema_types rec name p conventions isMultiType types).
Proof.
  induction types as [|t types IH]; cbn [processSchema_types];
    [by apply outcome_ret|].
  eapply outcome_bind; [apply outcome_processSchema_switch|intros rv].
  destruct (negb isMultiType); [|apply outcome_any, IH].
  apply (outcome_pure (rv ≠ "")); [done|intros Hne]. by apply outcome_ret.
Qed.

Lemma outcome_processSchema_body (name : string) (p : nat) :
  outcome top typeOK (processSchema_body rec name p conventions).
Proof.
  unfold processSchema_body.
  eapply outcome_bind; [apply outcome_deref|intros schema]. apply outcome_any.
  apply (outcome_bind _ anyOK).
  { case_bool_decide; [apply outcome_discard|by apply outcome_ret]. }
  intros ?. apply outcome_any.
  eapply outcome_bind; [apply outcome_modify_node|intros ?]. apply outcome_any.
  eapply outcome_bind; [apply outcome_deref|intros schema1]. cbn beta.
  destruct (Schema.MultiType schema1) as [types isMultiType].
  case_bool_decide; [apply outcome_any, outcome_processSchema_types|].
  case_bool_decide as Href; [by apply outcome_processReference|].
  by apply outcome_ret.
Qed.

End Level.

Lemma outcome_processSchema (fuel : nat) (name : string) (p : nat) :
  outcome top typeOK (processSchema fuel name p conventions).
Proof.
  revert name p. induction fuel as [|fuel IH]; intros name p.
  - intros st r st' _. discriminate.
  - cbn [processSchema]. by apply outcome_processSchema_body.
Qed.

Lemma outcome_CreateTypes_loop (fuel : nat) (roots : list nat) :
  outcome top anyOK (CreateTypes_loop fuel conventions roots).
Proof.
  induction roots as [|schema roots IH]; cbn [CreateTypes_loop];
    [by apply outcome_ret|].
  eapply outcome_bind; [apply outcome_getSchemaName|intros name]. apply outcome_any.
  eapply outcome_bind; [apply outcome_processSchema|intros rootType]. apply outcome_any.
  apply (outcome_bind _ anyOK); [|intros ?; apply outcome_any, IH].
  case_bool_decide; [|by apply outcome_ret].
  eapply outcome_bind; [apply outcome_deref|intros s]. apply outcome_any.
  apply outcome_modify_gen.
Qed.

(** A type that a resolution returns is never empty. *)
Theorem processSchema_type_nonempty (fuel : nat) (name : string) (p : nat)
    (st st' : State) (ty : string) :
  processSchema fuel name p conventions st = Some (Ok ty, st') → ty ≠ "".
Proof. intros Hrun. by apply (outcome_processSchema fuel name p st (Ok ty) st'). Qed.

(** The errors of a resolution are those of an object under the empty
    name, of an unknown type tag and of a reference that the resolver does
    not find. The errors on an empty array subtype and on an empty
    reference do not occur. *)
Theorem processSchema_errors (fuel : nat) (name : string) (p : nat)
    (st st' : State) (e : string) :
  processSchema fuel name p conventions st = Some (Err e, st') → known_error e.
Proof. intros Hrun. by apply (outcome_processSchema fuel name p st (Err e) st'). Qed.

(** A run of [CreateTypes] fails with the error of the resolver's [Init]
    or with one of the errors of a resolution. *)
Theorem CreateTypes_errors (fuel : nat) (st st' : State) (e : string) :
  CreateTypes fuel conventions st = Some (Err e, st') →
  Init (resolver (gen st)) = Some e ∨ known_error e.
Proof.
  unfold CreateTypes. rewrite bind_run. cbn [get_gen].
  destruct (Init (resolver (gen st))) as [err|].
  - intros [= <- <-]. by left.
  - intros Hrun. right.
    by apply (outcome_CreateTypes_loop fuel (schemas (gen st)) st (Err e) st').
Qed.

End Outcomes.

(** ** Scalar nodes and objects without a name *)

Section LocalResolution.
Context `{!Unicode}.

(** A node that declares one tag other than [object] and [array], and has
    no definitions, resolves at the first level to the type of the tag in
    the table of [getPrimitiveTypeName], or fails with its error on an
    unknown tag; the state stays as it is. *)
Theorem processSchema_scalar (fuel : nat) (name : string) (p : nat)
    (conventions : gmap string string) (st : State) (schema : Schema.t) (t : string) :
  store st !! p = Some schema →
  Schema.Definitions schema = [] →
  Schema.TypeValue schema = [t] →
  t ≠ "object" → t ≠ "array" →
  processSchema (S fuel) name p conventions st =
  checked (getPrimitiveTypeName t "" false) st.
Proof.
  intros Hp Hdefs Hty Ho Ha. cbn [processSchema]. unfold processSchema_body.
  mderef Hp. rewrite Hdefs. cbn [length].
  rewrite (bool_decide_eq_false_2 (0 < 0)%nat) by lia.
  mstep. mstep.
  rewrite (FixMissingTypeValue_typed p st schema Hp) by (by rewrite Hty).
  mderef Hp. unfold Schema.MultiType. rewrite Hty. cbn [length].
  rewrite (bool_decide_eq_true_2 (0 < 1)%nat) by lia.
  rewrite (bool_decide_eq_false_2 (1 < 1)%nat) by lia.
  cbn [processSchema_types negb]. rewrite bind_run.
  unfold processSchema_switch.
  rewrite (bool_decide_eq_false_2 _ Ho), (bool_decide_eq_false_2 _ Ha).
  by destruct (getPrimitiveTypeName t "" false) as [rv [e|]].
Qed.

(** An object without properties and additional properties that is
    resolved under the empty name fails, after its memo has been written
    and its record has been registered under the empty name. *)
Theorem processObject_empty_name (rec : resolver_fn) (p : nat)
    (conventions : gmap string string) (customTypes : gmap string stringFormatType)
    (st : State) (schema : Schema.t) :
  store st !! p = Some schema →
  Schema.Properties schema = [] →
  Schema.AdditionalProperties schema = None →
  processObject rec "" p conventions customTypes st =
  Some (Err "can't create an object of an empty subtype",
        mkState
          (set_Structs
             (<["" := Struct.mk (Schema.ID schema) "" (Schema.Description schema)
                        ∅ false "" []]> (Structs (gen st)))
             (gen st))
          (store (memoised p "" st))).
Proof.
  intros Hp Hprops Hap. unfold processObject.
  mderef Hp. mstep. rewrite Hprops. cbn [processObject_properties]. mstep.
  unfold processObject_typed. rewrite Hap. mstep.
  unfold processObject_bool. rewrite Hap. mstep. mstep.
  rewrite getPrimitiveTypeName_object.
  rewrite (bool_decide_eq_true_2 ("" = "")) by done. reflexivity.
Qed.

End LocalResolution.

(** ** Shape and termination of a rendering *)

Section RenderShape.
Variable render : nat → Struct.t → option string.
Variable structs : gmap string Struct.t.

Lemma renderStructMapping_field_indent (fields : gmap string Field.t) (k : string)
    (indent count : nat) (text : string) (indent' count' : nat) :
  renderStructMapping_field render structs fields k indent count
    = Some (text, indent', count') →
  indent' = indent.
Proof.
  unfold renderStructMapping_field, leafMapping.
  destruct (_ || _); [by intros [= _ <- _]|].
  destruct (bool_decide _); [|by intros [= _ <- _]].
  destruct (structs !! _) as [s|]; [|by intros [= _ <- _]].
  destruct (_ || _); [by intros [= _ <- _]|].
  destruct (render _ s); [|done]. by intros [= _ <- _].
Qed.

Lemma renderStructMapping_fields_indent (fields : gmap string Field.t)
    (names : list string) (indent count : nat) (text : string) (indent' : nat) :
  renderStructMapping_fields render structs fields names indent count
    = Some (text, indent') →
  indent' = indent.
Proof.
  revert indent count text indent'.
  induction names as [|k names IH]; intros indent count text indent';
    cbn [renderStructMapping_fields]; [by intros [= _ <-]|].
  destruct (renderStructMapping_field _ _ _ _ _ _) as [[[t1 i1] c1]|] eqn:E; [|done].
  apply renderStructMapping_field_indent in E as ->. cbn.
  destruct (renderStructMapping_fields _ _ _ _ _ _) as [[t2 i2]|] eqn:E2; [|done].
  apply IH in E2 as ->. by intros [= _ <-].
Qed.

(** A field that inlines a record whose rendering does not return makes
    the loop over the fields not return. *)
Lemma renderStructMapping_fields_stuck (fields : gmap string Field.t)
    (names : list string) (k : string) (indent count : nat) :
  k ∈ names →
  (∀ i c, renderStructMapping_field render structs fields k i c = None) →
  renderStructMapping_fields render structs fields names indent count = None.
Proof.
  intros Hk Hstuck. revert indent count.
  induction names as [|k' names IH]; intros indent count; [by apply elem_of_nil in Hk|].
  cbn [renderStructMapping_fields].
  destruct (renderStructMapping_field _ _ _ k' _ _) as [[[t1 i1] c1]|] eqn:E; [|done].
  apply elem_of_cons in Hk as [->|Hk]; [by rewrite Hstuck in E|].
  cbn. by rewrite IH.
Qed.

(** Without a field that inlines a record, the loop returns. *)
Lemma renderStructMapping_fields_flat (fields : gmap string Field.t)
    (names : list string) (indent count : nat) :
  (∀ k i c, k ∈ names → is_Some (renderStructMapping_field render structs fields k i c)) →
  is_Some (renderStructMapping_fields render structs fields names indent count).
Proof.
  revert indent count. induction names as [|k names IH]; intros indent count Hall;
    cbn [renderStructMapping_fields]; [done|].
  destruct (Hall k indent count) as [[[t1 i1] c1] ->]; [by left|]. cbn.
  destruct (IH i1 c1) as [[t2 i2] ->]; [|done].
  intros k' i c Hk'. apply Hall. by right.
Qed.

End RenderShape.

Lemma elem_of_getOrderedFieldNames (fields : gmap string Field.t) (k : string) :
  k ∈ getOrderedFieldNames fields ↔ is_Some (fields !! k).
Proof.
  unfold getOrderedFieldNames. rewrite merge_sort_Permutation, list_elem_of_fmap.
  split.
  - intros ([k' v] & -> & Hkv). apply elem_of_map_to_list in Hkv. by exists v.
  - intros [v Hv]. exists (k, v). split; [done|]. by apply elem_of_map_to_list.
Qed.

(** The indentation is balanced: whatever the fields, a rendering that
    returns opens with [{] and the [properties] line one level deeper,
    and closes with an empty line two levels deeper, [}] one level deeper
    and [}] at the level it was called with. *)
Theorem renderStructMapping_balanced (fuel indent : nat) (s : Struct.t)
    (structs : gmap string Struct.t) (text : string) :
  renderStructMapping fuel indent s structs = Some text →
  ∃ body,
    text = "{" +:+ nl +:+
           printIndentedLn (S indent) (dq +:+ "properties" +:+ dq +:+ ": {") +:+
           body +:+
           printIndentedLn (S (S indent)) "" +:+
           printIndentedLn (S indent) "}" +:+
           printIndented indent "}".
Proof.
  destruct fuel as [|fuel]; [done|]. cbn [renderStructMapping].
  unfold renderStructMapping_body.
  destruct (renderStructMapping_fields _ _ _ _ _ _) as [[body i3]|] eqn:E; [|done].
  apply renderStructMapping_fields_indent in E as ->. cbn.
  intros [= <-]. by exists body.
Qed.

(** A record with a serialized field whose type names the record itself
    (as a record without additional type, the field not of the format
    [raw]) is inlined into itself without end: the rendering returns for
    no bound on the nesting. *)
Theorem self_reference_never_renders (fuel indent : nat) (s : Struct.t)
    (structs : gmap string Struct.t) (k : string) (f : Field.t) :
  Struct.Fields s !! k = Some f →
  notSerialized f = false →
  getESType f = "object" →
  structs !! Trim (Field.Type_ f) "[]*" = Some s →
  Struct.AdditionalType s = "" →
  Field.Format f ≠ "raw" →
  renderStructMapping fuel indent s structs = None.
Proof.
  intros Hk Hser Hes Hs Hadd Hraw. revert indent.
  induction fuel as [|fuel IH]; intros indent; [done|].
  cbn [renderStructMapping]. unfold renderStructMapping_body.
  rewrite (renderStructMapping_fields_stuck _ structs (Struct.Fields s) _ k); [done| |].
  - apply elem_of_getOrderedFieldNames. by exists f.
  - intros i c. unfold renderStructMapping_field. rewrite Hk. cbn [default from_option id].
    unfold notSerialized in Hser. rewrite Hser.
    rewrite (bool_decide_eq_true_2 _ Hes), Hs, Hadd.
    rewrite (bool_decide_eq_false_2 ("" ≠ "")) by (intros ?; done).
    rewrite (bool_decide_eq_false_2 _ Hraw). cbn [orb].
    by rewrite IH.
Qed.

(** A record none of whose serialized fields inlines a registered record
    is rendered at the first level, without a recursive call. *)
Theorem flat_record_renders (indent : nat) (s : Struct.t)
    (structs : gmap string Struct.t) :
  (∀ k f s', Struct.Fields s !! k = Some f →
     notSerialized f = false → getESType f = "object" →
     structs !! Trim (Field.Type_ f) "[]*" = Some s' →
     Struct.AdditionalType s' ≠ "" ∨ Field.Format f = "raw") →
  is_Some (renderStructMapping 1 indent s structs).
Proof.
  intros Hflat. cbn [renderStructMapping]. unfold renderStructMapping_body.
  destruct (renderStructMapping_fields_flat (λ _ _, None) structs (Struct.Fields s)
              (getOrderedFieldNames (Struct.Fields s)) (S (S indent)) 0)
    as [[body i3] ->]; [|done].
  intros k i c Hk. apply elem_of_getOrderedFieldNames in Hk as [f Hf].
  unfold renderStructMapping_field, leafMapping. rewrite Hf. cbn [default from_option id].
  destruct (notSerialized f) eqn:Hser; pose proof Hser as Hser';
    unfold notSerialized in Hser'; rewrite Hser'; [by eexists|].
  destruct (bool_decide (getESType f = "object")) eqn:Hes; [|by eexists].
  apply bool_decide_eq_true_1 in Hes.
  destruct (structs !! _) as [s'|] eqn:Hs'; [|by eexists].
  destruct (Hflat k f s' Hf Hser Hes Hs') as [Hadd|Hraw].
  - rewrite (bool_decide_eq_true_2 _ Hadd). by eexists.
  - rewrite (bool_decide_eq_true_2 _ Hraw), orb_true_r. by eexists.
Qed.

(** ** From a field type back to the record name *)

Lemma goNameByte_not_cut (a : ascii) :
  goNameByte a = true → containsByte "[]*" a = false.
Proof.
  intros Ha. cbn [containsByte].
  repeat (case_decide; [subst a; vm_compute in Ha; discriminate Ha|]).
  reflexivity.
Qed.

Lemma TrimLeft_prefix (pre s cutset : string) :
  allBytes (containsByte cutset) pre = true →
  TrimLeft (pre +:+ s) cutset = TrimLeft s cutset.
Proof.
  induction pre as [|a pre IH]; [by rewrite app_empty_l|].
  cbn [allBytes]. intros [Ha Hpre]%andb_prop. rewrite app_cons. cbn [TrimLeft].
  rewrite Ha. auto.
Qed.

Lemma TrimLeft_kept (s cutset : string) :
  allBytes (λ a, negb (containsByte cutset a)) s = true → TrimLeft s cutset = s.
Proof.
  destruct s as [|a s]; [done|]. cbn [allBytes TrimLeft].
  intros [Ha _]%andb_prop. apply negb_true_iff in Ha. by rewrite Ha.
Qed.

Lemma TrimRight_kept (s cutset : string) :
  allBytes (λ a, negb (containsByte cutset a)) s = true → TrimRight s cutset = s.
Proof.
  induction s as [|a s IH]; [done|]. cbn [allBytes TrimRight].
  intros [Ha Hs]%andb_prop. apply negb_true_iff in Ha. rewrite IH by done.
  destruct s; [by rewrite Ha|done].
Qed.

Lemma allBytes_impl (P Q : ascii → bool) (s : string) :
  (∀ a, P a = true → Q a = true) → allBytes P s = true → allBytes Q s = true.
Proof.
  intros HPQ. induction s as [|a s IH]; [done|]. cbn [allBytes].
  intros [Ha Hs]%andb_prop. by rewrite (HPQ a Ha), IH.
Qed.

(** The renderer finds the name of a record in the type of a field: the
    type that the generator writes for a record named [n] behind any
    nesting of pointers and slices, once trimmed by the cutset of the
    renderer, is [n], for every name made of letters, digits and
    underscores. *)
Theorem record_name_round_trip (pre n : string) :
  allBytes (containsByte "[]*") pre = true →
  allBytes goNameByte n = true →
  Trim (pre +:+ n) "[]*" = n.
Proof.
  intros Hpre Hn. unfold Trim. rewrite TrimLeft_prefix by done.
  assert (Hkept : allBytes (λ a, negb (containsByte "[]*" a)) n = true).
  { revert Hn. apply allBytes_impl. intros a Ha.
    by rewrite (goNameByte_not_cut a Ha). }
  by rewrite TrimLeft_kept, TrimRight_kept.
Qed.

(** ** What [filterNoRender] removes *)

Lemma foldl_insert_lookup {A} (l : list (string * A)) (r0 : gmap string A) (k : string) :
  NoDup l.*1 →
  foldl (λ r ks, <[ks.1 := ks.2]> r) r0 l !! k =
  match (list_to_map l : gmap string A) !! k with
  | Some v => Some v
  | None => r0 !! k
  end.
Proof.
  revert r0. induction l as [|[k1 v1] l IH]; intros r0 Hnd; [done|].
  apply NoDup_cons in Hnd as [Hk1 Hnd]. cbn [foldl fst snd fmap list_fmap] in *.
  rewrite IH by done. rewrite list_to_map_cons. destruct (decide (k = k1)) as [->|Hne].
  - rewrite (not_elem_of_list_to_map_1 _ _ Hk1), !lookup_insert_eq. done.
  - by rewrite !lookup_insert_ne by done.
Qed.

Section CheckProperties.
Variable rangeFields : gmap string Field.t → list Field.t.
Variable structs : gmap string Struct.t.
Hypothesis rangeFields_fair : fair_fields rangeFields.

Lemma elem_of_rangeFields (m : gmap string Field.t) (f : Field.t) :
  f ∈ rangeFields m ↔ ∃ k, m !! k = Some f.
Proof.
  rewrite (rangeFields_fair m), list_elem_of_fmap. split.
  - intros ([k f'] & -> & Hkf). exists k. by apply elem_of_map_to_list.
  - intros [k Hk]. exists (k, f). split; [done|]. by apply elem_of_map_to_list.
Qed.

Lemma check_inv_delete (result : gmap string Struct.t) (k0 kf : string)
    (s s' : Struct.t) (f : Field.t) :
  structs !! k0 = Some s → Struct.Fields s !! kf = Some f →
  getESType f = "object" → structs !! Trim (Field.Type_ f) "[]*" = Some s' →
  check_inv structs result → check_inv structs (delete (Struct.Name s') result).
Proof.
  intros Hs Hf Hes Hs' [Hsub Hnone]. split.
  - intros k v [_ Hk]%lookup_delete_Some. by apply Hsub.
  - intros k [<-|Hk]%lookup_delete_None; [|by apply Hnone].
    right. by exists k0, s, kf, f, s'.
Qed.

Section Step.
Variable rec : Z → Struct.t → gmap string Struct.t * string →
               option (gmap string Struct.t * string).
Hypothesis rec_spec : ∀ level s k0 st st',
  structs !! k0 = Some s →
  check_inv structs st.1 → rec level s st = Some st' →
  check_inv structs st'.1 ∧ ∀ k, st.1 !! k = None → st'.1 !! k = None.

Lemma check_field_spec (level : Z) (f : Field.t) (k0 kf : string) (s : Struct.t)
    (st st' : gmap string Struct.t * string) :
  structs !! k0 = Some s → Struct.Fields s !! kf = Some f →
  check_inv structs st.1 →
  check_field rec structs level f st = Some st' →
  check_inv structs st'.1
  ∧ (∀ k, st.1 !! k = None → st'.1 !! k = None)
  ∧ (0 < level → getESType f = "object" →
     ∀ s', structs !! Trim (Field.Type_ f) "[]*" = Some s' →
           st'.1 !! Struct.Name s' = None).
Proof.
  intros Hs Hf Hinv. unfold check_field.
  case_bool_decide as Hes; [|intros [= <-]; split; [exact Hinv|split; done]].
  destruct (structs !! Trim (Field.Type_ f) "[]*") as [s0|] eqn:Hs0;
    [|intros [= <-]; split; [exact Hinv|split; done]].
  case_bool_decide as Hlevel; [|intros [= <-]; split; [exact Hinv|split; done]].
  intros Hrec. eapply rec_spec in Hrec as [Hinv' Hmono]; cbn [fst snd] in *.
  - split; [done|]. split.
    + intros k Hk. apply Hmono, lookup_delete_None. by right.
    + intros _ _ s' [= <-]. apply Hmono, lookup_delete_None. by left.
  - exact Hs0.
  - exact (check_inv_delete _ k0 kf s s0 f Hs Hf Hes Hs0 Hinv).
Qed.

Lemma check_fields_spec (level : Z) (fs : list Field.t)
    (st st' : gmap string Struct.t * string) :
  (∀ f, f ∈ fs → ∃ k0 s kf, structs !! k0 = Some s ∧ Struct.Fields s !! kf = Some f) →
  check_inv structs st.1 →
  check_fields rec structs level fs st = Some st' →
  check_inv structs st'.1
  ∧ (∀ k, st.1 !! k = None → st'.1 !! k = None)
  ∧ (0 < level → ∀ f s', f ∈ fs → getESType f = "object" →
       structs !! Trim (Field.Type_ f) "[]*" = Some s' →
       st'.1 !! Struct.Name s' = None).
Proof.
  revert st. induction fs as [|f fs IH]; intros st Hfs Hinv; cbn [check_fields].
  - intros [= <-]. split; [done|]. split; [done|].
    intros _ f s' Hf. by apply elem_of_nil in Hf.
  - destruct (check_field rec structs level f st) as [st1|] eqn:E; [|done]. cbn.
    intros Hrest.
    destruct (Hfs f) as (k0 & s & kf & Hs & Hf); [by left|].
    destruct (check_field_spec level f k0 kf s st st1 Hs Hf Hinv E)
      as (Hinv1 & Hmono1 & Hdel1).
    destruct (IH st1) as (Hinv' & Hmono' & Hdel'); [|done|done|].
    { intros f' Hf'. apply Hfs. by right. }
    split; [done|]. split; [by auto|].
    intros Hlevel f' s' [->|Hf']%elem_of_cons Hes Hs'; [|by eapply Hdel'].
    apply Hmono'. by eapply Hdel1.
Qed.

End Step.

Lemma check_spec (fuel : nat) (level : Z) (s : Struct.t) (k0 : string)
    (st st' : gmap string Struct.t * string) :
  structs !! k0 = Some s →
  check_inv structs st.1 →
  check fuel rangeFields structs level s st = Some st' →
  check_inv structs st'.1
  ∧ (∀ k, st.1 !! k = None → st'.1 !! k = None)
  ∧ (0 < level → ∀ kf f s', Struct.Fields s !! kf = Some f → getESType f = "object" →
       structs !! Trim (Field.Type_ f) "[]*" = Some s' →
       st'.1 !! Struct.Name s' = None).
Proof.
  revert level s k0 st st'.
  induction fuel as [|fuel IH]; intros level s k0 st st' Hs Hinv; [done|].
  cbn [check]. intros Hrun.
  assert (Hrec : ∀ lvl s0 k1 st0 st0',
            structs !! k1 = Some s0 → check_inv structs st0.1 →
            check fuel rangeFields structs lvl s0 st0 = Some st0' →
            check_inv structs st0'.1 ∧ ∀ k, st0.1 !! k = None → st0'.1 !! k = None).
  { intros lvl s0 k1 st0 st0' Hs0 Hinv0 Hrun0.
    destruct (IH lvl s0 k1 st0 st0' Hs0 Hinv0 Hrun0) as (? & ? & _). done. }
  assert (Hfs : ∀ f, f ∈ rangeFields (Struct.Fields s) →
            ∃ k0 s kf, structs !! k0 = Some s ∧ Struct.Fields s !! kf = Some f).
  { intros f [kf Hf]%elem_of_rangeFields. by exists k0, s, kf. }
  destruct (check_fields_spec _ Hrec level _ st st' Hfs Hinv Hrun)
    as (Hinv' & Hmono & Hdel).
  split; [done|]. split; [done|].
  intros Hlevel kf f s' Hf. apply Hdel; [done|].
  apply elem_of_rangeFields. by exists kf.
Qed.

Lemma filterNoRender_loop_spec (fuel : nat) (ss : list (string * Struct.t))
    (st st' : gmap string Struct.t * string) :
  (∀ ks, ks ∈ ss → structs !! ks.1 = Some ks.2) →
  check_inv structs st.1 →
  filterNoRender_loop fuel rangeFields structs ss st = Some st' →
  check_inv structs st'.1
  ∧ (∀ k, st.1 !! k = None → st'.1 !! k = None)
  ∧ (∀ ks kf f s', ks ∈ ss → Struct.Fields ks.2 !! kf = Some f →
       getESType f = "object" →
       structs !! Trim (Field.Type_ f) "[]*" = Some s' →
       st'.1 !! Struct.Name s' = None).
Proof.
  revert st. induction ss as [|ks ss IH]; intros st Hss Hinv; cbn [filterNoRender_loop].
  - intros [= <-]. split; [done|]. split; [done|].
    intros ks kf f s' Hks. by apply elem_of_nil in Hks.
  - destruct (check fuel rangeFields structs 1 ks.2 st) as [st1|] eqn:E; [|done]. cbn.
    intros Hrest.
    destruct (check_spec fuel 1 ks.2 ks.1 st st1) as (Hinv1 & Hmono1 & Hdel1);
      [by apply Hss; left|done|done|].
    destruct (IH st1) as (Hinv' & Hmono' & Hdel'); [|done|done|].
    { intros ks' Hks'. apply Hss. by right. }
    split; [done|]. split; [by auto|].
    intros ks' kf f s' [->|Hks']%elem_of_cons Hf Hes Hs'; [|by eapply Hdel'].
    apply Hmono'. by eapply Hdel1.
Qed.

End CheckProperties.

(** Whatever the orders of the [range]s, a [filterNoRender] that returns
    has removed from the registry exactly the records that an
    object-typed field of a registered record names (removed under their
    [Name]); every other record is kept as it is. *)
Theorem filterNoRender_result (fuel : nat)
    (rangeFields : gmap string Field.t → list Field.t)
    (rangeStructs : gmap string Struct.t → list (string * Struct.t))
    (structs result : gmap string Struct.t) (out : string) :
  fair_fields rangeFields → fair_structs rangeStructs structs →
  filterNoRender fuel rangeFields rangeStructs structs = Some (result, out) →
  ∀ k s, result !! k = Some s ↔ structs !! k = Some s ∧ ¬ referenced structs k.
Proof.
  intros Hff Hfs. unfold filterNoRender. intros Hrun k s.
  assert (Hnd : NoDup (rangeStructs structs).*1).
  { rewrite Hfs. apply NoDup_fst_map_to_list. }
  assert (Hstart : foldl (λ r ks, <[ks.1 := ks.2]> r) ∅ (rangeStructs structs) = structs).
  { apply map_eq. intros k'. rewrite foldl_insert_lookup by done.
    rewrite (list_to_map_proper _ _ Hnd Hfs), list_to_map_to_list, lookup_empty.
    by destruct (structs !! k'). }
  rewrite Hstart in Hrun.
  apply filterNoRender_loop_spec in Hrun as ([Hsub Hnone] & _ & Hdel); cbn [fst] in *.
  - split.
    + intros Hk. split; [by apply Hsub|].
      intros (k0 & s0 & kf & f & s' & Hs0 & Hf & Hes & Hs' & <-).
      rewrite (Hdel (k0, s0) kf f s') in Hk; [done| |done..].
      rewrite Hfs. by apply elem_of_map_to_list.
    + intros [Hk Hnot]. destruct (result !! k) as [s2|] eqn:E.
      * apply Hsub in E. congruence.
      * destruct (Hnone k E) as [?|?]; [congruence|done].
  - done.
  - intros [k0 s0]. rewrite Hfs. apply elem_of_map_to_list.
  - split; [done|]. intros k' Hk'. by left.
Qed.



(** ** The mapping document *)




(** * Instances of the theorems and counterexamples

    The runs below use the tables that are exact on ASCII. *)

#[local] Existing Instance ascii_tables.

(** The linked list resolves: the record [Node] has the field [Next] of
    type [*Node]. *)
Example linked_list_resolves :
  ∃ st', CreateTypes 4 ∅ (Sample.start Sample.linked_list_refs Sample.linked_list)
           = Some (Ok tt, st')
         ∧ Struct.Fields <$> Structs (gen st') !! "Node" =
           Some (<["Next" := Field.mk "Next" "next" "*Node" false "" ""]>
                 {[ "Value" := Field.mk "Value" "value" "string" false "" "" ]}).
Proof.
  exists_final_state
    (CreateTypes 4 ∅ (Sample.start Sample.linked_list_refs Sample.linked_list)).
  split; vm_compute; reflexivity.
Qed.

(** C3 at [{"type":"object","additionalProperties":{"type":"string"}}]:
    the result is [map[string]string] and no record is registered. *)
Lemma additional_properties_collapse_witness :
  ∃ st2, processSchema_body (processSchema 1) "Root" 0%nat ∅
           (Sample.start [] Sample.string_map)
         = Some (Ok "map[string]string", st2)
         ∧ Structs (gen st2) = ∅.
Proof.
  pose (st := Sample.start [] Sample.string_map).
  pose (st1 := mkState (set_anonCount 1 (gen (memoised 0 "Root" st)))
                 (store (memoised 0 "Root" st))).
  exists st1. split; [|vm_compute; reflexivity].
  refine (proj2 (additional_properties_collapse (processSchema 1) "Root" 0%nat 1%nat ∅
                   st st1 st1
                   (Sample.with_AdditionalProperties 1 (Sample.root ["object"]))
                   (Sample.child "" "additionalProperties" 0 ["string"])
                   "Anonymous1" "string" _ _ _ _ _ _ _ _) _ _);
    vm_compute; reflexivity.
Defined.

(** C7 at [{"type":"array","items":{"type":"integer"}}]. *)
Lemma array_integer_widening_witness :
  ∃ st3, processArray (processSchema 1) "Root" 0%nat ∅
           (Sample.start [] Sample.integer_array)
         = Some (Ok "[]int64", st3).
Proof.
  pose (st := Sample.start [] Sample.integer_array).
  destruct (array_integer_widening (processSchema 1) "Root" 0%nat 1%nat ∅ st st st
              (Sample.with_Items 1 (Sample.root ["array"])) "RootItems" "int")
    as ((st3 & Hrun & _) & _).
  - vm_compute; reflexivity.
  - vm_compute; reflexivity.
  - vm_compute; reflexivity.
  - vm_compute; reflexivity.
  - discriminate.
  - exists st3. exact Hrun.
Defined.

(** C10 at a [[]string] field with the format [date-time]. *)
Lemma string_slice_is_scalar_string_witness :
  let f := Field.mk "Seen" "seen" "[]string" false "" "date-time" in
  getESType f = "date"
  ∧ renderStructMapping_field (λ _ _, None) ∅ {[ "Seen" := f ]} "Seen" 2 1 =
    Some ("," +:+ nl +:+ printIndented 2 (dq +:+ "seen" +:+ dq +:+ ": ") +:+ typeLeaf 2 "date",
          2%nat, 2%nat).
Proof.
  intros f.
  destruct (string_slice_is_scalar_string f (λ _ _, None) ∅ {[ "Seen" := f ]} "Seen" 2 1)
    as (Hes & _ & _ & Hrender).
  - reflexivity.
  - vm_compute; reflexivity.
  - vm_compute; reflexivity.
  - discriminate.
  - split; [exact Hes|exact Hrender].
Defined.

(** C9 at a record with the fields [a], [-] and [_id]. *)
Lemma skipped_fields_not_rendered_witness :
  let a := Field.mk "A" "a" "string" false "" "" in
  let fields : gmap string Field.t :=
    <["A" := a]>
    (<["AdditionalProperties" := Field.mk "AdditionalProperties" "-" "map[string]string" false "" ""]>
    (<["ID" := Field.mk "ID" "_id" "string" false "" ""]> ∅)) in
  renderStructMapping 1 0 (Struct.mk "" "S" "" fields true "string" []) ∅ =
  renderStructMapping 1 0 (Struct.mk "" "S" "" {[ "A" := a ]} true "string" []) ∅.
Proof.
  intros a fields.
  apply (skipped_fields_not_rendered 1 0
           (Struct.mk "" "S" "" fields true "string" [])
           (Struct.mk "" "S" "" {[ "A" := a ]} true "string" []) ∅ ∅).
  - vm_compute; reflexivity.
  - intros n. reflexivity.
Defined.

(** At the linked list: once [Node] is resolved, both references to it
    return its memo without a recursive call. *)
Lemma memo_kept_and_reused_witness :
  ∃ st1 st2,
    processObject (processSchema 2) "Node" 1%nat ∅ formatCustomTypes
      (Sample.start Sample.linked_list_refs Sample.linked_list) = Some (Ok "*Node", st1)
    ∧ processSchema 1 "Value" 2%nat ∅ st1 = Some (Ok "string", st2)
    ∧ memo st1 1%nat ≠ "" ∧ memo st2 1%nat ≠ ""
    ∧ processReference (λ _ _ _, stuck) 0%nat ∅ st1 = Some (Ok (memo st1 1%nat), st1)
    ∧ processReference (λ _ _ _, stuck) 3%nat ∅ st2 = Some (Ok (memo st2 1%nat), st2).
Proof.
  pose (st0 := Sample.start Sample.linked_list_refs Sample.linked_list).
  exists_final_state (processObject (processSchema 2) "Node" 1%nat ∅ formatCustomTypes st0).
  match goal with |- ∃ st2, _ ∧ processSchema 1 ?n ?p ?c ?st1 = _ ∧ _ =>
    exists_final_state (processSchema 1 n p c st1)
  end.
  match goal with |- ?A ∧ ?B ∧ _ =>
    assert (Ha : A) by (vm_compute; reflexivity);
    assert (Hb : B) by (vm_compute; reflexivity)
  end.
  split; [exact Ha|]. split; [exact Hb|].
  destruct (memo_kept_and_reused 2 1 (λ _ _ _, stuck) (λ _ _ _, stuck)
              "Node" "Value" 1%nat 2%nat 0%nat 3%nat ∅ formatCustomTypes
              st0 _ _ "*Node" (Ok "string")
              (Sample.with_Reference "#/definitions/node"
                 (Sample.with_Definitions [("node", 1%nat)] (Sample.root [])))
              (Sample.with_Reference "#/definitions/node"
                 (Sample.child "next" "properties/next" 1 []))
              Ha Hb)
    as (H1 & H2 & H3 & H4 & _).
  - vm_compute; reflexivity.
  - discriminate.
  - vm_compute; reflexivity.
  - vm_compute; reflexivity.
  - discriminate.
  - vm_compute; reflexivity.
  - repeat split; assumption.
Defined.

(** C5 (as the code has it) at [{"type":["string","integer"]}]: the
    branch of the tag [string] leaves the state as it is. *)
Lemma union_branches_witness :
  ∃ r, processSchema_switch (processSchema 0) ("Foo" +:+ "_" +:+ "string") 0%nat ∅ "string"
         (Sample.start [] Sample.string_or_integer)
       = Some (r, Sample.start [] Sample.string_or_integer).
Proof.
  apply (union_branches (processSchema 0) "Foo" 0%nat ∅ "string" ["integer"]
           (Sample.start [] Sample.string_or_integer)); discriminate.
Defined.

(** C5 as stated fails at a node declaring [string] and [integer],
    resolved under the name [Foo]: the result is [interface{}], and
    nothing is registered, neither as a record nor as an alias. *)
Lemma union_of_primitives_registers_nothing :
  ∃ st', processSchema 1 "Foo" 0%nat ∅ (Sample.start [] Sample.string_or_integer)
           = Some (Ok "interface{}", st')
         ∧ Structs (gen st') = ∅ ∧ Aliases (gen st') = ∅
         ∧ Structs (gen st') !! "Foo_string" = None
         ∧ Structs (gen st') !! "Foo_integer" = None
         ∧ Aliases (gen st') !! "Foo_string" = None
         ∧ Aliases (gen st') !! "Foo_integer" = None.
Proof.
  exists_final_state (processSchema 1 "Foo" 0%nat ∅ (Sample.start [] Sample.string_or_integer)).
  repeat split; vm_compute; reflexivity.
Qed.

(** C4. Two references to one array node: the node is never memoised
    (only [processObject] writes a memo), so each reference takes the
    branch for a reference that is not resolved yet and resolves the node
    again, and so does the direct visit. The two references yield
    different type names, the one item object is registered three times
    under three anonymous names, and its memo is assigned again at each
    visit. *)
Theorem two_references_two_types :
  ∃ st' root,
    CreateTypes 10 ∅ (Sample.start Sample.shared_array_refs Sample.shared_array)
      = Some (Ok tt, st')
    ∧ Structs (gen st') !! "Root" = Some root
    ∧ Field.Type_ <$> Struct.Fields root !! "A" = Some "[]Anonymous1Items"
    ∧ Field.Type_ <$> Struct.Fields root !! "B" = Some "[]Anonymous2Items"
    ∧ memo st' 3 = ""
    ∧ memo st' 4 = "*Anonymous3Items"
    ∧ (∀ k, k ∈ ["Anonymous1Items"; "Anonymous2Items"; "Anonymous3Items"] →
         Struct.Fields <$> Structs (gen st') !! k =
         Some {[ "X" := Field.mk "X" "x" "string" false "" "" ]}).
Proof.
  exists_final_state
    (CreateTypes 10 ∅ (Sample.start Sample.shared_array_refs Sample.shared_array)).
  match goal with |- ∃ root, _ ∧ ?m !! ?k = _ ∧ _ => exists_value (m !! k) end.
  repeat split; try (vm_compute; reflexivity).
  intros k Hk. repeat (apply elem_of_cons in Hk as [->|Hk]; [vm_compute; reflexivity|]).
  by apply elem_of_nil in Hk.
Qed.

(** The memo that is written can be stale: for an object that collapses
    to a map, [processObject] has written the pointer to a record that it
    never registers. A later reference to the node returns that memo: the
    field [R] has the type [*M], the field [M] the type
    [map[string]string], and no record [M] exists. *)
Example collapsed_object_stale_memo :
  ∃ st' root,
    CreateTypes 10 ∅ (Sample.start Sample.collapsed_target_refs Sample.collapsed_target)
      = Some (Ok tt, st')
    ∧ Structs (gen st') !! "Root" = Some root
    ∧ Field.Type_ <$> Struct.Fields root !! "M" = Some "map[string]string"
    ∧ Field.Type_ <$> Struct.Fields root !! "R" = Some "*M"
    ∧ Structs (gen st') !! "M" = None
    ∧ memo st' 1 = "*M".
Proof.
  exists_final_state
    (CreateTypes 10 ∅ (Sample.start Sample.collapsed_target_refs Sample.collapsed_target)).
  match goal with |- ∃ root, _ ∧ ?m !! ?k = _ ∧ _ => exists_value (m !! k) end.
  repeat split; vm_compute; reflexivity.
Qed.

(** ** Instances of the invariants and of the naming properties

    The run is that of [CreateTypes] on the linked list, which registers
    the record [Node]. *)

Lemma registry_keys_are_names_witness :
  ∃ st', CreateTypes 4 ∅ (Sample.start Sample.linked_list_refs Sample.linked_list)
           = Some (Ok tt, st')
         ∧ registries_named st'.
Proof.
  exists_final_state
    (CreateTypes 4 ∅ (Sample.start Sample.linked_list_refs Sample.linked_list)).
  match goal with |- ?A ∧ _ => assert (Hrun : A) by (vm_compute; reflexivity) end.
  split; [exact Hrun|].
  exact (registry_keys_are_names 4 ∅ _ _ _ _ _ Hrun).
Defined.

Lemma registries_only_grow_witness :
  ∃ st', CreateTypes 4 ∅ (Sample.start Sample.linked_list_refs Sample.linked_list)
           = Some (Ok tt, st')
         ∧ registries_grow (Sample.start Sample.linked_list_refs Sample.linked_list) st'.
Proof.
  exists_final_state
    (CreateTypes 4 ∅ (Sample.start Sample.linked_list_refs Sample.linked_list)).
  match goal with |- ?A ∧ _ => assert (Hrun : A) by (vm_compute; reflexivity) end.
  split; [exact Hrun|].
  exact (registries_only_grow 4 ∅ _ _ _ Hrun).
Defined.

Lemma CreateTypes_keeps_the_schemas_witness :
  ∃ st', CreateTypes 4 ∅ (Sample.start Sample.linked_list_refs Sample.linked_list)
           = Some (Ok tt, st')
         ∧ length (store st') = 4%nat.
Proof.
  exists_final_state
    (CreateTypes 4 ∅ (Sample.start Sample.linked_list_refs Sample.linked_list)).
  match goal with |- ?A ∧ _ => assert (Hrun : A) by (vm_compute; reflexivity) end.
  split; [exact Hrun|].
  exact (proj1 (CreateTypes_keeps_the_schemas 4 ∅ _ _ _ Hrun)).
Defined.

Lemma unmarked_records_are_optional_witness :
  ∃ st', CreateTypes 4 ∅ (Sample.start Sample.linked_list_refs Sample.linked_list)
           = Some (Ok tt, st')
         ∧ ∀ k s, Structs (gen st') !! k = Some s → code_flagged s.
Proof.
  exists_final_state
    (CreateTypes 4 ∅ (Sample.start Sample.linked_list_refs Sample.linked_list)).
  match goal with |- ?A ∧ _ => assert (Hrun : A) by (vm_compute; reflexivity) end.
  split; [exact Hrun|].
  refine (unmarked_records_are_optional 4 ∅ _ _ _ _ Hrun).
  intros k s. unfold Sample.start, New. cbn [gen Structs].
  rewrite lookup_empty. discriminate.
Defined.

Lemma fields_are_properties_or_catch_all_witness :
  ∃ st', CreateTypes 4 ∅ (Sample.start Sample.linked_list_refs Sample.linked_list)
           = Some (Ok tt, st')
         ∧ ∀ k s, Structs (gen st') !! k = Some s → fields_accounted ∅ s.
Proof.
  exists_final_state
    (CreateTypes 4 ∅ (Sample.start Sample.linked_list_refs Sample.linked_list)).
  match goal with |- ?A ∧ _ => assert (Hrun : A) by (vm_compute; reflexivity) end.
  split; [exact Hrun|].
  refine (fields_are_properties_or_catch_all 4 ∅ _ _ _ _ Hrun).
  intros k s. unfold Sample.start, New. cbn [gen Structs].
  rewrite lookup_empty. discriminate.
Defined.

Lemma memo_is_a_pointer_witness :
  ∃ st', CreateTypes 4 ∅ (Sample.start Sample.linked_list_refs Sample.linked_list)
           = Some (Ok tt, st')
         ∧ memo_pointer st'.
Proof.
  exists_final_state
    (CreateTypes 4 ∅ (Sample.start Sample.linked_list_refs Sample.linked_list)).
  match goal with |- ?A ∧ _ => assert (Hrun : A) by (vm_compute; reflexivity) end.
  split; [exact Hrun|].
  refine (memo_is_a_pointer 4 ∅ _ _ _ _ Hrun).
  intros p s. unfold Sample.start, Sample.linked_list. cbn [store].
  destruct p as [|[|[|[|p]]]]; cbn; intros Hp; simplify_eq; by left.
Defined.

Lemma CreateTypes_keeps_the_configuration_witness :
  ∃ st', CreateTypes 4 ∅ (Sample.start Sample.linked_list_refs Sample.linked_list)
           = Some (Ok tt, st')
         ∧ configuration_kept (Sample.start Sample.linked_list_refs Sample.linked_list) st'.
Proof.
  exists_final_state
    (CreateTypes 4 ∅ (Sample.start Sample.linked_list_refs Sample.linked_list)).
  match goal with |- ?A ∧ _ => assert (Hrun : A) by (vm_compute; reflexivity) end.
  split; [exact Hrun|].
  exact (CreateTypes_keeps_the_configuration 4 ∅ _ _ _ Hrun).
Defined.

Lemma getGolangName_digit_prefix_witness :
  ∃ r, getGolangName "1st-place" ∅ = String "_" r.
Proof.
  apply (getGolangName_digit_prefix "1" "st-place" ∅). reflexivity.
Defined.

Lemma getGolangName_only_delimiters_witness :
  getGolangName "$-" ∅ = "".
Proof.
  apply (getGolangName_only_delimiters "$-" ∅).
  - replace (runes "$-") with [36; 45] by (vm_compute; reflexivity).
    repeat constructor.
  - apply lookup_empty.
Defined.

Lemma getGolangName_bytes_witness :
  allBytes goNameByte (getGolangName "user-id" {[ "Id" := "ID" ]}) = true.
Proof.
  apply (getGolangName_bytes "user-id" {[ "Id" := "ID" ]}).
  - reflexivity.
  - intros k v Hkv. apply lookup_singleton_Some in Hkv as [_ <-]. reflexivity.
Defined.

(** Provide the value (or the error) and the state of a run, computed, as
    existential witnesses. *)
Ltac exists_outcome m :=
  let r := eval vm_compute in m in
  lazymatch r with
  | Some (Ok ?v, ?st) => exists v, st
  | Some (Err ?e, ?st) => exists e, st
  end.


Lemma processSchema_type_nonempty_witness :
  ∃ ty st', processSchema 3 "Root" 0%nat ∅
              (Sample.start Sample.linked_list_refs Sample.linked_list) = Some (Ok ty, st')
            ∧ ty ≠ "".
Proof.
  exists_outcome (processSchema 3 "Root" 0%nat ∅
                    (Sample.start Sample.linked_list_refs Sample.linked_list)).
  match goal with |- ?A ∧ _ => assert (Hrun : A) by (vm_compute; reflexivity) end.
  split; [exact Hrun|].
  exact (processSchema_type_nonempty ∅ 3 "Root" 0%nat _ _ _ Hrun).
Defined.

Lemma processSchema_errors_witness :
  ∃ e st', processSchema 1 "Bad" 1%nat ∅ (Sample.start [] Sample.bad_definition)
             = Some (Err e, st')
           ∧ known_error e.
Proof.
  exists_outcome (processSchema 1 "Bad" 1%nat ∅ (Sample.start [] Sample.bad_definition)).
  match goal with |- ?A ∧ _ => assert (Hrun : A) by (vm_compute; reflexivity) end.
  split; [exact Hrun|].
  exact (processSchema_errors ∅ 1 "Bad" 1%nat _ _ _ Hrun).
Defined.

Lemma CreateTypes_errors_witness :
  ∃ e st', CreateTypes 1 ∅ (Sample.start [] [Sample.root ["foo"]]) = Some (Err e, st')
           ∧ (Init (resolver (gen (Sample.start [] [Sample.root ["foo"]]))) = Some e
              ∨ known_error e).
Proof.
  exists_outcome (CreateTypes 1 ∅ (Sample.start [] [Sample.root ["foo"]])).
  match goal with |- ?A ∧ _ => assert (Hrun : A) by (vm_compute; reflexivity) end.
  split; [exact Hrun|].
  exact (CreateTypes_errors ∅ 1 _ _ _ Hrun).
Defined.

Lemma processSchema_scalar_witness :
  processSchema 1 "Root" 0%nat ∅ (Sample.start [] [Sample.root ["number"]]) =
  Some (Ok "float64", Sample.start [] [Sample.root ["number"]]).
Proof.
  apply (processSchema_scalar 0 "Root" 0%nat ∅ (Sample.start [] [Sample.root ["number"]])
           (Sample.root ["number"]) "number"); try reflexivity; discriminate.
Defined.

Lemma processObject_empty_name_witness :
  ∃ st', processObject (processSchema 0) "" 0%nat ∅ formatCustomTypes
           (Sample.start [] [Sample.root ["object"]])
         = Some (Err "can't create an object of an empty subtype", st')
         ∧ is_Some (Structs (gen st') !! "").
Proof.
  eexists. split.
  - apply (processObject_empty_name (processSchema 0) 0%nat ∅ formatCustomTypes
             (Sample.start [] [Sample.root ["object"]]) (Sample.root ["object"]));
      reflexivity.
  - cbn [gen Structs set_Structs]. rewrite lookup_insert_eq. by eexists.
Defined.

Lemma renderStructMapping_balanced_witness :
  ∃ text body,
    renderStructMapping 1 1 (Struct.mk "" "S" ""
        {[ "A" := Field.mk "A" "a" "string" false "" "" ]} true "" []) ∅ = Some text
    ∧ text = "{" +:+ nl +:+
             printIndentedLn 2 (dq +:+ "properties" +:+ dq +:+ ": {") +:+
             body +:+
             printIndentedLn 3 "" +:+ printIndentedLn 2 "}" +:+ printIndented 1 "}".
Proof.
  exists_value (renderStructMapping 1 1 (Struct.mk "" "S" ""
                  {[ "A" := Field.mk "A" "a" "string" false "" "" ]} true "" []) ∅).
  match goal with |- ∃ body, ?A ∧ _ => assert (Hrun : A) by (vm_compute; reflexivity) end.
  destruct (renderStructMapping_balanced 1 1 _ _ _ Hrun) as [body Hbody].
  exists body. split; [exact Hrun|exact Hbody].
Defined.

Lemma self_reference_never_renders_witness :
  let next := Field.mk "Next" "next" "*Node" false "" "" in
  let node := Struct.mk "" "Node" ""
                (<["Next" := next]> {[ "Value" := Field.mk "Value" "value" "string" false "" "" ]})
                false "" [] in
  renderStructMapping 1000 0 node {[ "Node" := node ]} = None.
Proof.
  intros next node.
  apply (self_reference_never_renders 1000 0 node {[ "Node" := node ]} "Next" next).
  - vm_compute; reflexivity.
  - reflexivity.
  - reflexivity.
  - vm_compute; reflexivity.
  - reflexivity.
  - discriminate.
Defined.

Lemma flat_record_renders_witness :
  is_Some (renderStructMapping 1 0
             (Struct.mk "" "S" "" {[ "A" := Field.mk "A" "a" "float64" false "" "" ]}
                true "" [])
             ∅).
Proof.
  apply flat_record_renders. intros k f s' _ _ _ Hs'.
  rewrite lookup_empty in Hs'. discriminate Hs'.
Defined.

Lemma record_name_round_trip_witness :
  Trim ("[]*" +:+ "Node_1") "[]*" = "Node_1".
Proof.
  apply (record_name_round_trip "[]*" "Node_1"); reflexivity.
Defined.

Lemma filterNoRender_result_witness :
  let b := Struct.mk "" "B" "" {[ "X" := Field.mk "X" "x" "string" false "" "" ]} false "" [] in
  let a := Struct.mk "" "A" "" {[ "B" := Field.mk "B" "b" "*B" false "" "" ]} false "" [] in
  let structs : gmap string Struct.t := <["A" := a]> {[ "B" := b ]} in
  ∃ result out,
    filterNoRender 2 (λ m, (map_to_list m).*2) map_to_list structs = Some (result, out)
    ∧ result !! "A" = Some a ∧ result !! "B" = None
    ∧ ∀ k s, result !! k = Some s ↔ structs !! k = Some s ∧ ¬ referenced structs k.
Proof.
  intros b a structs.
  let r := eval vm_compute in
             (filterNoRender 2 (λ m : gmap string Field.t, (map_to_list m).*2)
                map_to_list structs) in
  lazymatch r with Some (?res, ?out) => exists res, out end.
  match goal with |- ?A ∧ _ => assert (Hrun : A) by (vm_compute; reflexivity) end.
  split; [exact Hrun|]. split; [vm_compute; reflexivity|]. split; [vm_compute; reflexivity|].
  apply (filterNoRender_result 2 _ _ structs _ _ (λ m, reflexivity _) (reflexivity _) Hrun).
Defined.

